(** * Wrapped strided intervals of claripy ([claripy/vsa/strided_interval.py])

    A shallow embedding of the [StridedInterval] class and of the
    [WarrenMethods] helpers, followed by the properties of the written
    specification that were checked against it.

    Conventions of the embedding.
    - Python integers are [Z]; [%] and [/] on integers are floor modulo and
      floor division ([Z.modulo], [Z.div]) and raise [ZeroDivisionError] on a
      zero divisor; [&], [|], [^], [~], [<<], [>>] are [Z.land], [Z.lor],
      [Z.lxor], [Z.lnot], [Z.shiftl], [Z.shiftr].
    - Code that can raise returns a [result]; the exception is a value.
    - An object is a record; a method that assigns attributes returns the
      updated record.  Object names ([_name], the [si_id_ctr] counter) carry no
      meaning for the operations below and are left out.
    - The width [bits] is a [positive]: the constructor's width inference for
      [bits == 0] goes through floating point logarithms and is not part of
      this development.
    - [fractions.gcd] is Euclid's algorithm of the Python library; on the
      non-negative arguments it receives here it is [Z.gcd].
    - A method is embedded by its body.  The decorator [reversed_processor]
      calls the body on [self] as it is when the [reversed] flag of [self] is
      clear; [normalize_types] calls it on both operands as they are when
      these are StridedIntervals of one width whose flags agree.  The
      properties are stated for intervals with the flag clear ([wf]). *)

From Stdlib Require Import ZArith List Bool Lia String.
Import ListNotations.
Local Open Scope Z_scope.

Local Coercion Z.pos : positive >-> Z.

(** ** Exceptions *)

Inductive exn : Type :=
| ZeroDivisionError
| NameError (name : string)
| AssertionError (msg : string)
| ValueError
| TypeError
| Exception (msg : string)
| ClaripyOperationError (msg : string).

Inductive result (A : Type) : Type :=
| Ok (a : A)
| Raise (e : exn).

Arguments Ok {A} a.
Arguments Raise {A} e.

Definition bind {A B : Type} (c : result A) (k : A -> result B) : result B :=
  match c with
  | Ok a => k a
  | Raise e => Raise e
  end.

Notation "x <- c ;; k" := (bind c (fun x => k))
  (at level 61, c at next level, right associativity).

(** [a % b] and [a / b] on Python integers. *)
Definition py_mod (a b : Z) : result Z :=
  if b =? 0 then Raise ZeroDivisionError else Ok (a mod b).

Definition py_div (a b : Z) : result Z :=
  if b =? 0 then Raise ZeroDivisionError else Ok (a / b).

(** [for x in xs: acc = body(acc, x)], stopping at the first exception. *)
Fixpoint for_each {A S : Type} (xs : list A) (body : S -> A -> result S) (acc : S)
  : result S :=
  match xs with
  | [] => Ok acc
  | x :: rest => acc' <- body acc x ;; for_each rest body acc'
  end.

(** ** Three-valued booleans *)

(** Modelled from the spec: [claripy/vsa/bool_result.py] is not part of the
    sources at hand; the specification describes its values as the
    three-valued lattice [{True, False, Maybe}]. *)
Inductive BoolResult : Type := TrueResult | FalseResult | MaybeResult.

Definition BoolResult_identical (a b : BoolResult) : bool :=
  match a, b with
  | TrueResult, TrueResult | FalseResult, FalseResult | MaybeResult, MaybeResult => true
  | _, _ => false
  end.

(** Modelled from the spec: negation in the three-valued lattice ([True] to
    [False], [False] to [True], [Maybe] to [Maybe]). *)
Definition BoolResult_not (a : BoolResult) : BoolResult :=
  match a with
  | TrueResult => FalseResult
  | FalseResult => TrueResult
  | MaybeResult => MaybeResult
  end.

(** The aggregation that closes every comparison method. *)
Definition aggregate (ret : list BoolResult) : BoolResult :=
  if forallb (fun r => BoolResult_identical r TrueResult) ret then TrueResult
  else if forallb (fun r => BoolResult_identical r FalseResult) ret then FalseResult
  else MaybeResult.

(** ** WarrenMethods *)

Module WarrenMethods.

(** The loops run [m] over [1 << (w - 1)], ..., 2, 1; the recursion is on the
    number of remaining positions. *)

Fixpoint min_xor_loop (n : nat) (m a b c d : Z) : Z :=
  match n with
  | O => Z.lxor a c
  | S n' =>
      if m =? 0 then Z.lxor a c
      else if negb (Z.land (Z.land (Z.lnot a) c) m =? 0) then
        let temp := Z.land (Z.lor a m) (- m) in
        let a := if temp <=? b then temp else a in
        min_xor_loop n' (Z.shiftr m 1) a b c d
      else if negb (Z.land (Z.land a (Z.lnot c)) m =? 0) then
        let temp := Z.land (Z.lor c m) (- m) in
        let c := if temp <=? d then temp else c in
        min_xor_loop n' (Z.shiftr m 1) a b c d
      else min_xor_loop n' (Z.shiftr m 1) a b c d
  end.

Definition min_xor (a b c d w : Z) : Z :=
  min_xor_loop (Z.to_nat w) (Z.shiftl 1 (w - 1)) a b c d.

Fixpoint max_xor_loop (n : nat) (m a b c d : Z) : Z :=
  match n with
  | O => Z.lxor b d
  | S n' =>
      if m =? 0 then Z.lxor b d
      else if negb (Z.land (Z.land b d) m =? 0) then
        let temp := Z.lor (b - m) (m - 1) in
        if temp >=? a then max_xor_loop n' (Z.shiftr m 1) a temp c d
        else
          let temp := Z.lor (d - m) (m - 1) in
          let d := if temp >=? c then temp else d in
          max_xor_loop n' (Z.shiftr m 1) a b c d
      else max_xor_loop n' (Z.shiftr m 1) a b c d
  end.

Definition max_xor (a b c d w : Z) : Z :=
  max_xor_loop (Z.to_nat w) (Z.shiftl 1 (w - 1)) a b c d.

(** [min_or], [max_or], [min_and] and [max_and] leave their loop by [break]
    as soon as one bound has been moved. *)

Fixpoint min_or_loop (n : nat) (m a b c d : Z) : Z :=
  match n with
  | O => Z.lor a c
  | S n' =>
      if m =? 0 then Z.lor a c
      else if negb (Z.land (Z.land (Z.lnot a) c) m =? 0) then
        let temp := Z.land (Z.lor a m) (- m) in
        if temp <=? b then Z.lor temp c
        else min_or_loop n' (Z.shiftr m 1) a b c d
      else if negb (Z.land (Z.land a (Z.lnot c)) m =? 0) then
        let temp := Z.land (Z.lor c m) (- m) in
        if temp <=? d then Z.lor a temp
        else min_or_loop n' (Z.shiftr m 1) a b c d
      else min_or_loop n' (Z.shiftr m 1) a b c d
  end.

Definition min_or (a b c d w : Z) : Z :=
  min_or_loop (Z.to_nat w) (Z.shiftl 1 (w - 1)) a b c d.

Fixpoint max_or_loop (n : nat) (m a b c d : Z) : Z :=
  match n with
  | O => Z.lor b d
  | S n' =>
      if m =? 0 then Z.lor b d
      else if negb (Z.land (Z.land b d) m =? 0) then
        let temp := Z.lor (b - m) (m - 1) in
        if temp >=? a then Z.lor temp d
        else
          let temp := Z.lor (d - m) (m - 1) in
          if temp >=? c then Z.lor b temp
          else max_or_loop n' (Z.shiftr m 1) a b c d
      else max_or_loop n' (Z.shiftr m 1) a b c d
  end.

Definition max_or (a b c d w : Z) : Z :=
  max_or_loop (Z.to_nat w) (Z.shiftl 1 (w - 1)) a b c d.

Fixpoint min_and_loop (n : nat) (m a b c d : Z) : Z :=
  match n with
  | O => Z.land a c
  | S n' =>
      if m =? 0 then Z.land a c
      else if negb (Z.land (Z.land (Z.lnot a) (Z.lnot c)) m =? 0) then
        let temp := Z.land (Z.lor a m) (- m) in
        if temp <=? b then Z.land temp c
        else
          let temp := Z.land (Z.lor c m) (- m) in
          if temp <=? d then Z.land a temp
          else min_and_loop n' (Z.shiftr m 1) a b c d
      else min_and_loop n' (Z.shiftr m 1) a b c d
  end.

Definition min_and (a b c d w : Z) : Z :=
  min_and_loop (Z.to_nat w) (Z.shiftl 1 (w - 1)) a b c d.

Fixpoint max_and_loop (n : nat) (m a b c d : Z) : Z :=
  match n with
  | O => Z.land b d
  | S n' =>
      if m =? 0 then Z.land b d
      else if negb (Z.land (Z.land (Z.lnot d) b) m =? 0) then
        let temp := Z.lor (Z.land b (Z.lnot m)) (m - 1) in
        if temp >=? a then Z.land temp d
        else max_and_loop n' (Z.shiftr m 1) a b c d
      else if negb (Z.land (Z.land d (Z.lnot b)) m =? 0) then
        let temp := Z.lor (Z.land d (Z.lnot m)) (m - 1) in
        if temp >=? c then Z.land b temp
        else max_and_loop n' (Z.shiftr m 1) a b c d
      else max_and_loop n' (Z.shiftr m 1) a b c d
  end.

Definition max_and (a b c d w : Z) : Z :=
  max_and_loop (Z.to_nat w) (Z.shiftl 1 (w - 1)) a b c d.

End WarrenMethods.

(** ** The StridedInterval datum *)

Record StridedInterval : Type := mkSI {
  bits : positive;
  stride : Z;
  lower_bound : Z;
  upper_bound : Z;
  reversed : bool;
  uninitialized : bool;
  is_bottom : bool
}.

Definition set_bits (self : StridedInterval) (v : positive) : StridedInterval :=
  mkSI v (stride self) (lower_bound self) (upper_bound self)
       (reversed self) (uninitialized self) (is_bottom self).

Definition set_stride (self : StridedInterval) (v : Z) : StridedInterval :=
  mkSI (bits self) v (lower_bound self) (upper_bound self)
       (reversed self) (uninitialized self) (is_bottom self).

Definition set_lower_bound (self : StridedInterval) (v : Z) : StridedInterval :=
  mkSI (bits self) (stride self) v (upper_bound self)
       (reversed self) (uninitialized self) (is_bottom self).

Definition set_upper_bound (self : StridedInterval) (v : Z) : StridedInterval :=
  mkSI (bits self) (stride self) (lower_bound self) v
       (reversed self) (uninitialized self) (is_bottom self).

Definition set_reversed (self : StridedInterval) (v : bool) : StridedInterval :=
  mkSI (bits self) (stride self) (lower_bound self) (upper_bound self)
       v (uninitialized self) (is_bottom self).

(** *** Modular arithmetic and helpers *)

Definition _modular_add (a b bits : Z) : Z := (a + b) mod 2 ^ bits.
Definition _modular_sub (a b bits : Z) : Z := (a - b) mod 2 ^ bits.
Definition _modular_mul (a b bits : Z) : Z := (a * b) mod 2 ^ bits.

Definition gcd (a b : Z) : Z := Z.gcd a b.

Definition highbit (k : Z) : Z := Z.shiftl 1 (k - 1).
Definition max_int (k : Z) : Z := highbit (k + 1) - 1.
Definition min_int (k : Z) : Z := - highbit k.

Definition _wrapped_cardinality (x y bits : Z) : Z :=
  if x =? (y + 1) mod 2 ^ bits then 2 ^ bits
  else Z.land ((y - x) + 1) (2 ^ bits - 1).

Definition _is_msb_zero (v bits : Z) : bool :=
  Z.land (Z.land v (2 ^ bits - 1)) (2 ^ (bits - 1)) =? 0.

Definition _is_msb_one (v bits : Z) : bool := negb (_is_msb_zero v bits).

Definition _get_msb (v bits : Z) : Z := if _is_msb_zero v bits then 0 else 1.

Definition _unsigned_to_signed (v bits : Z) : Z :=
  if _is_msb_zero v bits then v else - (2 ^ bits - v).

Definition _lex_lte (x y bits : Z) : bool :=
  Z.land x (2 ^ bits - 1) <=? Z.land y (2 ^ bits - 1).

Definition _lex_lt (x y bits : Z) : bool :=
  Z.land x (2 ^ bits - 1) <? Z.land y (2 ^ bits - 1).

(** *** Properties *)

Definition is_empty (self : StridedInterval) : bool := is_bottom self.

Definition is_top (self : StridedInterval) : bool :=
  (stride self =? 1)
  && (lower_bound self =? _modular_add (upper_bound self) 1 (bits self)).

Definition is_integer (self : StridedInterval) : bool :=
  lower_bound self =? upper_bound self.

(** *** Construction and normalisation *)

Definition _normalize_top (self : StridedInterval) : StridedInterval :=
  if (lower_bound self =? _modular_add (upper_bound self) 1 (bits self))
     && (stride self =? 1)
  then set_upper_bound (set_lower_bound self 0) (max_int (bits self))
  else self.

Definition normalize (self : StridedInterval) : result StridedInterval :=
  let self :=
    if (Z.pos (bits self) =? 8) && reversed self then set_reversed self false else self in
  if is_empty self then Ok self
  else
    let self :=
      if lower_bound self =? upper_bound self then set_stride self 0 else self in
    let self :=
      if lower_bound self <? 0
      then set_lower_bound self (Z.land (lower_bound self) (2 ^ bits self - 1))
      else self in
    let self := _normalize_top self in
    if stride self <? 0 then Raise (Exception "Why does this happen?")
    else Ok self.

(** [StridedInterval(bits=..., stride=..., lower_bound=..., upper_bound=...,
    uninitialized=..., bottom=...)]; an argument left out is [None]. *)
Definition __init__ (bits : positive) (stride lower_bound upper_bound : option Z)
  (uninitialized bottom : bool) : result StridedInterval :=
  let s := match stride with Some s => s | None => 1 end in
  let l := match lower_bound with Some l => l | None => 0 end in
  let u := match upper_bound with Some u => u | None => 2 ^ bits - 1 end in
  normalize (mkSI bits s (Z.land l (2 ^ bits - 1)) (Z.land u (2 ^ bits - 1))
                  false uninitialized bottom).

(** The call with the four numeric arguments given and the flags at their
    defaults, the most frequent one. *)
Definition SI (bits : positive) (stride lower_bound upper_bound : Z)
  : result StridedInterval :=
  __init__ bits (Some stride) (Some lower_bound) (Some upper_bound) false false.

Definition copy (self : StridedInterval) : result StridedInterval :=
  si <- __init__ (bits self) (Some (stride self)) (Some (lower_bound self))
                 (Some (upper_bound self)) (uninitialized self) (is_bottom self) ;;
  Ok (set_reversed si (reversed self)).

Definition top (bits : positive) (uninitialized : bool) : result StridedInterval :=
  __init__ bits (Some 1) (Some 0) (Some (max_int bits)) uninitialized false.

Definition empty (bits : positive) : result StridedInterval :=
  __init__ bits None None None false true.

(** *** Pole splitting *)

Definition _ssplit (self : StridedInterval) : result (list StridedInterval) :=
  let south_pole_right := max_int (bits self) in
  if upper_bound self <? lower_bound self then
    r <- py_mod (south_pole_right - lower_bound self) (stride self) ;;
    let a_upper_bound := south_pole_right - r in
    a <- SI (bits self) (stride self) (lower_bound self) a_upper_bound ;;
    let b_lower_bound := _modular_add a_upper_bound (stride self) (bits self) in
    b <- SI (bits self) (stride self) b_lower_bound (upper_bound self) ;;
    Ok [a; b]
  else
    c <- copy self ;; Ok [c].

Definition _nsplit (self : StridedInterval) : result (list StridedInterval) :=
  let north_pole_left := max_int (bits self - 1) in
  let north_pole_right := 2 ^ (bits self - 1) in
  let straddling :=
    if upper_bound self >=? north_pole_right then
      if lower_bound self >? upper_bound self then true
      else if lower_bound self <=? north_pole_left then true
      else false
    else
      (lower_bound self >? upper_bound self) && (lower_bound self <=? north_pole_left) in
  if straddling then
    r <- py_mod (north_pole_left - lower_bound self) (stride self) ;;
    let a_upper_bound := north_pole_left - r in
    a <- SI (bits self) (stride self) (lower_bound self) a_upper_bound ;;
    let b_lower_bound := a_upper_bound + stride self in
    b <- SI (bits self) (stride self) b_lower_bound (upper_bound self) ;;
    Ok [a; b]
  else
    c <- copy self ;; Ok [c].

Definition _psplit (self : StridedInterval) : result (list StridedInterval) :=
  nsplit_list <- _nsplit self ;;
  for_each nsplit_list
    (fun psplit_list si => l <- _ssplit si ;; Ok (psplit_list ++ l)) [].

Definition _signed_bounds (self : StridedInterval) : result (list (Z * Z)) :=
  nsplit <- _nsplit self ;;
  match nsplit with
  | [n0] =>
      Ok [(_unsigned_to_signed (lower_bound n0) (bits self),
           _unsigned_to_signed (upper_bound n0) (bits self))]
  | [n0; n1] =>
      Ok [(lower_bound n0, upper_bound n0);
          (_unsigned_to_signed (lower_bound n1) (bits self),
           _unsigned_to_signed (upper_bound n1) (bits self))]
  | _ => Raise (Exception "WTF")
  end.

Definition _unsigned_bounds (self : StridedInterval) : result (list (Z * Z)) :=
  ssplit <- _ssplit self ;;
  match ssplit with
  | [s0] => Ok [(lower_bound s0, upper_bound s0)]
  | [s0; s1] =>
      Ok [(lower_bound s0, upper_bound s0); (lower_bound s1, upper_bound s1)]
  | _ => Raise (Exception "WTF")
  end.

(** *** Comparisons

    The methods below are the bodies under the [normalize_types] decorator.
    On two StridedIntervals of one width whose [reversed] flags agree the
    decorator coerces, extends and reverses nothing and calls the body on the
    operands as they are. *)

(** The nested loop shared by the eight comparison methods: one verdict for
    every pair of bound pairs. *)
Definition verdicts (bounds_1 bounds_2 : list (Z * Z))
  (verdict : Z -> Z -> Z -> Z -> BoolResult) : list BoolResult :=
  flat_map (fun b1 => map (fun b2 => verdict (fst b1) (snd b1) (fst b2) (snd b2)) bounds_2)
           bounds_1.

Definition lt_verdict (lb_1 ub_1 lb_2 ub_2 : Z) : BoolResult :=
  if ub_1 <? lb_2 then TrueResult
  else if lb_1 >=? ub_2 then FalseResult
  else MaybeResult.

Definition le_verdict (lb_1 ub_1 lb_2 ub_2 : Z) : BoolResult :=
  if ub_1 <=? lb_2 then TrueResult
  else if lb_1 >? ub_2 then FalseResult
  else MaybeResult.

Definition gt_verdict (lb_1 ub_1 lb_2 ub_2 : Z) : BoolResult :=
  if lb_1 >? ub_2 then TrueResult
  else if ub_1 <=? lb_2 then FalseResult
  else MaybeResult.

Definition ge_verdict (lb_1 ub_1 lb_2 ub_2 : Z) : BoolResult :=
  if lb_1 >=? ub_2 then TrueResult
  else if ub_1 <? lb_2 then FalseResult
  else MaybeResult.

Definition SLT (self o : StridedInterval) : result BoolResult :=
  signed_bounds_1 <- _signed_bounds self ;;
  signed_bounds_2 <- _signed_bounds o ;;
  Ok (aggregate (verdicts signed_bounds_1 signed_bounds_2 lt_verdict)).

Definition SLE (self o : StridedInterval) : result BoolResult :=
  signed_bounds_1 <- _signed_bounds self ;;
  signed_bounds_2 <- _signed_bounds o ;;
  Ok (aggregate (verdicts signed_bounds_1 signed_bounds_2 le_verdict)).

Definition SGT (self o : StridedInterval) : result BoolResult :=
  signed_bounds_1 <- _signed_bounds self ;;
  signed_bounds_2 <- _signed_bounds o ;;
  Ok (aggregate (verdicts signed_bounds_1 signed_bounds_2 gt_verdict)).

Definition SGE (self o : StridedInterval) : result BoolResult :=
  signed_bounds_1 <- _signed_bounds self ;;
  signed_bounds_2 <- _signed_bounds o ;;
  Ok (aggregate (verdicts signed_bounds_1 signed_bounds_2 ge_verdict)).

Definition ULT (self o : StridedInterval) : result BoolResult :=
  unsigned_bounds_1 <- _unsigned_bounds self ;;
  unsigned_bounds_2 <- _unsigned_bounds o ;;
  Ok (aggregate (verdicts unsigned_bounds_1 unsigned_bounds_2 lt_verdict)).

Definition ULE (self o : StridedInterval) : result BoolResult :=
  unsigned_bounds_1 <- _unsigned_bounds self ;;
  unsigned_bounds_2 <- _unsigned_bounds o ;;
  Ok (aggregate (verdicts unsigned_bounds_1 unsigned_bounds_2 le_verdict)).

Definition UGT (self o : StridedInterval) : result BoolResult :=
  unsigned_bounds_1 <- _unsigned_bounds self ;;
  unsigned_bounds_2 <- _unsigned_bounds o ;;
  Ok (aggregate (verdicts unsigned_bounds_1 unsigned_bounds_2 gt_verdict)).

Definition UGE (self o : StridedInterval) : result BoolResult :=
  unsigned_bounds_1 <- _unsigned_bounds self ;;
  unsigned_bounds_2 <- _unsigned_bounds o ;;
  Ok (aggregate (verdicts unsigned_bounds_1 unsigned_bounds_2 ge_verdict)).

(** *** Cardinality, complement, membership and the poset order *)

Definition cardinality (self : StridedInterval) : result Z :=
  if is_bottom self then Ok 0
  else if is_integer self then Ok 1
  else
    py_div (_modular_sub (upper_bound self) (lower_bound self) (bits self) + stride self)
           (stride self).

Definition complement (self : StridedInterval) : result StridedInterval :=
  if is_empty self then top (bits self) false
  else if is_top self then empty (bits self)
  else
    let y_plus_1 := _modular_add (upper_bound self) 1 (bits self) in
    let x_minus_1 := _modular_sub (lower_bound self) 1 (bits self) in
    let dist := _wrapped_cardinality y_plus_1 x_minus_1 (bits self) - 1 in
    let new_stride :=
      if dist <? 0 then 0
      else if stride self =? 0 then 1
      else gcd (stride self) dist in
    SI (bits self) new_stride y_plus_1 x_minus_1.

Definition _wrapped_member (self : StridedInterval) (v : Z) : bool :=
  _lex_lte (v - lower_bound self) (upper_bound self - lower_bound self) (bits self).

Definition _wrapped_lte (self b : StridedInterval) : bool :=
  let a := self in
  if is_empty a then true
  else if is_top a && is_top b then true
  else if is_top a then false
  else if is_top b then true
  else if _wrapped_member b (lower_bound a) && _wrapped_member b (upper_bound a) then
    if ((lower_bound b =? lower_bound a) && (upper_bound b =? upper_bound a))
       || negb (_wrapped_member a (lower_bound b))
       || negb (_wrapped_member a (upper_bound b))
    then true else false
  else false.

Definition _gap (src_interval tar_interval : StridedInterval) : result StridedInterval :=
  if negb (Pos.eqb (bits src_interval) (bits tar_interval)) then
    Raise (AssertionError "Number of bits should be same for operands")
  else
    let s := src_interval in
    let t := tar_interval in
    let b := upper_bound s in
    let c := lower_bound t in
    let w := bits s in
    if negb (_wrapped_member t b) && negb (_wrapped_member s c) then
      i <- SI w 1 c b ;; complement i
    else empty w.

Definition _bigger (interval1 interval2 : StridedInterval) : result StridedInterval :=
  c2 <- cardinality interval2 ;;
  c1 <- cardinality interval1 ;;
  if c2 >? c1 then copy interval2 else copy interval1.

(** *** Join: interval extension and the pseudo least upper bound *)

Definition _interval_extend (self t : StridedInterval) : result StridedInterval :=
  let s := self in
  let w := bits s in
  let a := lower_bound s in
  let b := upper_bound s in
  let c := lower_bound t in
  let d := upper_bound t in
  if _wrapped_lte s t then copy t
  else if _wrapped_lte t s then copy s
  else
    sc <- complement s ;;
    if _wrapped_lte sc t then top w false
    else
      let new_stride :=
        if is_integer s && is_integer t then _wrapped_cardinality a c w - 1
        else if is_integer s then gcd (_wrapped_cardinality a c w - 1) (stride t)
        else if is_integer t then gcd (_wrapped_cardinality b c w - 1) (stride s)
        else gcd (gcd (stride s) (stride t)) (_wrapped_cardinality a c w - 1) in
      let new_stride := if new_stride =? -1 then 0 else new_stride in
      SI w new_stride a d.

(** [sorted(intervals, key=lambda x: x.lower_bound)]: a stable sort. *)
Fixpoint insert_by_lower_bound (x : StridedInterval) (l : list StridedInterval)
  : list StridedInterval :=
  match l with
  | [] => [x]
  | y :: l' =>
      if lower_bound x <=? lower_bound y then x :: y :: l'
      else y :: insert_by_lower_bound x l'
  end.

Definition sorted_by_lower_bound (l : list StridedInterval) : list StridedInterval :=
  fold_right insert_by_lower_bound [] l.

Definition _least_upper_bound (intervals_to_join : list StridedInterval)
  : result StridedInterval :=
  match intervals_to_join with
  | [] => Raise (AssertionError "No intervals to join")
  | [i] => copy i
  | i0 :: _ =>
      if negb (forallb (fun x => Pos.eqb (bits x) (bits i0)) intervals_to_join) then
        Raise (AssertionError "All intervals to join should be same")
      else
        let sorted_intervals := sorted_by_lower_bound intervals_to_join in
        let w := bits i0 in
        f <- empty w ;;
        g <- empty w ;;
        f <- for_each sorted_intervals
               (fun f s =>
                  if is_top s || _lex_lte (upper_bound s) (lower_bound s) w
                  then _interval_extend f s else Ok f) f ;;
        fg <- for_each sorted_intervals
               (fun fg s =>
                  gp <- _gap (fst fg) s ;;
                  g <- _bigger (snd fg) gp ;;
                  f <- _interval_extend (fst fg) s ;;
                  Ok (f, g)) (f, g) ;;
        fc <- complement (fst fg) ;;
        bg <- _bigger (snd fg) fc ;;
        si <- complement bg ;;
        let si := if is_integer si then set_stride si 0 else si in
        let si :=
          if is_top si then set_stride si 1
          else
            set_stride si
              (fold_left (fun acc i => gcd acc (stride i))
                         intervals_to_join (stride i0)) in
        Ok si
  end.

(** The module constant [allow_dsis] is [False]; [union] then joins the two
    operands.  The other branch builds a [DiscreteStridedIntervalSet], a class
    outside the sources at hand. *)
Definition union (self b : StridedInterval) : result StridedInterval :=
  _least_upper_bound [self; b].

(** *** Arithmetic *)

Definition _wrappedoverflow_add (a b : StridedInterval) : bool :=
  let card_self :=
    if is_integer a && (lower_bound a =? 0) then 0
    else _wrapped_cardinality (lower_bound a) (upper_bound a) (bits a) in
  let card_b :=
    if is_integer b && (lower_bound b =? 0) then 0
    else _wrapped_cardinality (lower_bound b) (upper_bound b) (bits b) in
  card_self + card_b >? max_int (bits a).

Definition _wrappedoverflow_sub (a b : StridedInterval) : bool :=
  _wrappedoverflow_add a b.

Definition add (self b : StridedInterval) : result StridedInterval :=
  let new_bits := Pos.max (bits self) (bits b) in
  if _wrappedoverflow_add self b then top (bits self) false
  else
    let lb := _modular_add (lower_bound self) (lower_bound b) new_bits in
    let ub := _modular_add (upper_bound self) (upper_bound b) new_bits in
    let uninitialized := uninitialized self || uninitialized b in
    let stride := gcd (stride self) (stride b) in
    si <- __init__ new_bits (Some stride) (Some lb) (Some ub) uninitialized false ;;
    normalize si.

Definition sub (self b : StridedInterval) : result StridedInterval :=
  let new_bits := Pos.max (bits self) (bits b) in
  if _wrappedoverflow_sub self b then top (bits self) false
  else
    let lb := _modular_sub (lower_bound self) (upper_bound b) new_bits in
    let ub := _modular_sub (upper_bound self) (lower_bound b) new_bits in
    let uninitialized := uninitialized self || uninitialized b in
    let stride := gcd (stride self) (stride b) in
    si <- __init__ new_bits (Some stride) (Some lb) (Some ub) uninitialized false ;;
    normalize si.

Definition neg (self : StridedInterval) : result StridedInterval :=
  z <- SI (bits self) 0 0 0 ;; sub z self.

Definition _wrapped_unsigned_div (a b : StridedInterval) : result StridedInterval :=
  let bits := Pos.max (bits a) (bits b) in
  let divisor_lb := lower_bound b in
  let divisor_ub := upper_bound b in
  let finish (divisor_lb divisor_ub : Z) : result StridedInterval :=
    let divisor_ub :=
      if divisor_ub =? 0 then Z.land (divisor_ub - 1) (2 ^ bits - 1) else divisor_ub in
    lb <- py_div (lower_bound a) divisor_ub ;;
    ub <- py_div (upper_bound a) divisor_lb ;;
    let stride := 1 in
    SI bits stride lb ub in
  if divisor_lb =? 0 then
    if divisor_ub =? 0 then empty bits
    else finish (divisor_lb + 1) divisor_ub
  else finish divisor_lb divisor_ub.

Definition _wrapped_signed_div (a b : StridedInterval) : result StridedInterval :=
  let bits := Pos.max (bits a) (bits b) in
  let divisor_lb := lower_bound b in
  let divisor_ub := upper_bound b in
  let finish (divisor_lb divisor_ub : Z) : result StridedInterval :=
    let divisor_ub :=
      if divisor_ub =? 0 then Z.land (divisor_ub - 1) (2 ^ bits - 1) else divisor_ub in
    let dividend_positive := _is_msb_zero (lower_bound a) bits in
    let divisor_positive := _is_msb_zero (lower_bound b) bits in
    let stride := 1 in
    if dividend_positive && divisor_positive then
      lb <- py_div (lower_bound a) divisor_ub ;;
      ub <- py_div (upper_bound a) divisor_lb ;;
      SI bits stride lb ub
    else if dividend_positive && negb divisor_positive then
      lb <- py_div (upper_bound a) (_unsigned_to_signed divisor_ub bits) ;;
      ub <- py_div (lower_bound a) (_unsigned_to_signed divisor_lb bits) ;;
      SI bits stride lb ub
    else if negb dividend_positive && divisor_positive then
      lb <- py_div (_unsigned_to_signed (lower_bound a) bits) divisor_lb ;;
      ub <- py_div (_unsigned_to_signed (upper_bound a) bits) divisor_ub ;;
      SI bits stride lb ub
    else
      lb <- py_div (_unsigned_to_signed (upper_bound a) bits)
                   (_unsigned_to_signed (lower_bound b) bits) ;;
      ub <- py_div (_unsigned_to_signed (lower_bound a) bits)
                   (_unsigned_to_signed (upper_bound b) bits) ;;
      SI bits stride lb ub in
  if divisor_lb =? 0 then
    if divisor_ub =? 0 then empty bits
    else finish 1 divisor_ub
  else finish divisor_lb divisor_ub.

(** [udiv] and [sdiv] collect the quotients of the pieces in a Python [set] and
    join [list(resulting_intervals)].  Which elements a set merges depends on
    the truth value of the [BoolResult] that [__eq__] returns, and the order of
    its iteration on the hash table; neither is fixed by the sources at hand.
    The conversion is the parameter [list_of_set]; [python_set] below states
    what every Python set guarantees of it. *)
Section PythonSet.

Variable list_of_set : list StridedInterval -> list StridedInterval.

(** The nested loop of [udiv] and [sdiv]: the quotient of every pair of
    pieces, in the order of insertion. *)
Definition quotients (div : StridedInterval -> StridedInterval -> result StridedInterval)
  (splitted_dividends splitted_divisors : list StridedInterval)
  : result (list StridedInterval) :=
  for_each splitted_dividends
    (fun acc dividend =>
       for_each splitted_divisors
         (fun acc divisor => tmp <- div dividend divisor ;; Ok (acc ++ [tmp])) acc)
    [].

Definition sdiv (self o : StridedInterval) : result StridedInterval :=
  splitted_dividends <- _psplit self ;;
  splitted_divisors <- _psplit o ;;
  ret <- empty (bits self) ;;
  resulting_intervals <- quotients _wrapped_signed_div splitted_dividends splitted_divisors ;;
  r <- _least_upper_bound (list_of_set resulting_intervals) ;;
  normalize r.

Definition udiv (self o : StridedInterval) : result StridedInterval :=
  splitted_dividends <- _ssplit self ;;
  splitted_divisors <- _ssplit o ;;
  ret <- empty (bits self) ;;
  resulting_intervals <- quotients _wrapped_unsigned_div splitted_dividends splitted_divisors ;;
  r <- _least_upper_bound (list_of_set resulting_intervals) ;;
  normalize r.

End PythonSet.

(** *** Bitwise operations *)

(** Name resolution at the constructor call of [bitwise_xor]: the integer
    names bound in the method at that point.  The module binds no name
    [mew_stride] either. *)
Definition lookup_name (scope : list (string * Z)) (name : string) : result Z :=
  match find (fun entry => String.eqb (fst entry) name) scope with
  | Some entry => Ok (snd entry)
  | None => Raise (NameError name)
  end.

Definition bitwise_xor (self t : StridedInterval) : result StridedInterval :=
  let s := self in
  let new_stride := 1 in
  us <- _ssplit s ;;
  result_interval <-
    for_each us
      (fun acc u =>
         vs <- _ssplit t ;;
         for_each vs
           (fun acc v =>
              let w := bits u in
              let low_bound :=
                WarrenMethods.min_xor (lower_bound u) (upper_bound u)
                                      (lower_bound v) (upper_bound v) w in
              let upper_bound :=
                WarrenMethods.max_xor (lower_bound u) (upper_bound u)
                                      (lower_bound v) (upper_bound v) w in
              stride_arg <-
                lookup_name [("new_stride"%string, new_stride); ("w"%string, Z.pos w);
                             ("low_bound"%string, low_bound);
                             ("upper_bound"%string, upper_bound)]
                            "mew_stride" ;;
              new_interval <- SI w stride_arg low_bound upper_bound ;;
              Ok (acc ++ [new_interval])) acc)
      [] ;;
  r <- _least_upper_bound result_interval ;;
  normalize r.

Definition bitwise_or (self t : StridedInterval) : result StridedInterval :=
  let s := self in
  let new_stride := 1 in
  us <- _ssplit s ;;
  result_interval <-
    for_each us
      (fun acc u =>
         vs <- _ssplit t ;;
         for_each vs
           (fun acc v =>
              let w := bits u in
              let low_bound :=
                WarrenMethods.min_or (lower_bound u) (upper_bound u)
                                     (lower_bound v) (upper_bound v) w in
              let upper_bound :=
                WarrenMethods.max_or (lower_bound u) (upper_bound u)
                                     (lower_bound v) (upper_bound v) w in
              new_interval <- SI w new_stride low_bound upper_bound ;;
              Ok (acc ++ [new_interval])) acc)
      [] ;;
  r <- _least_upper_bound result_interval ;;
  normalize r.

Definition bitwise_and (self t : StridedInterval) : result StridedInterval :=
  let s := self in
  let new_stride := 1 in
  us <- _ssplit s ;;
  result_interval <-
    for_each us
      (fun acc u =>
         vs <- _ssplit t ;;
         for_each vs
           (fun acc v =>
              let w := bits u in
              let low_bound :=
                WarrenMethods.min_and (lower_bound u) (upper_bound u)
                                      (lower_bound v) (upper_bound v) w in
              let upper_bound :=
                WarrenMethods.max_and (lower_bound u) (upper_bound u)
                                      (lower_bound v) (upper_bound v) w in
              new_interval <- SI w new_stride low_bound upper_bound ;;
              Ok (acc ++ [new_interval])) acc)
      [] ;;
  r <- _least_upper_bound result_interval ;;
  normalize r.

(** *** Shifts *)

Inductive shift_amount_t : Type :=
| ShiftInt (n : Z)
| ShiftSI (expr : StridedInterval).

Definition round (max x : Z) : Z :=
  if (x <? 0) || (x >? max) then max else x.

Definition _pre_shift (self : StridedInterval) (shift_amount : shift_amount_t) : Z * Z :=
  match shift_amount with
  | ShiftInt expr => (expr, expr)
  | ShiftSI expr =>
      if is_integer expr then
        (round (bits self) (lower_bound expr), round (bits self) (lower_bound expr))
      else if lower_bound expr <? 0 then
        if upper_bound expr >=? 0 then (0, Z.pos (bits self))
        else (Z.pos (bits self), Z.pos (bits self))
      else (round (bits self) (lower_bound self), round (bits self) (upper_bound self))
  end.

Definition py_rshift (a n : Z) : result Z :=
  if n <? 0 then Raise ValueError else Ok (Z.shiftr a n).

Definition py_lshift (a n : Z) : result Z :=
  if n <? 0 then Raise ValueError else Ok (Z.shiftl a n).

(** [xrange(lower, upper + 1)] *)
Definition xrange (lower stop : Z) : list Z :=
  map (fun i => lower + Z.of_nat i) (seq 0 (Z.to_nat (stop - lower))).

Definition or_sign (bound : option Z) (bits_sign : Z) : result (option Z) :=
  match bound with
  | Some v => Ok (Some (Z.lor v bits_sign))
  | None => Raise TypeError
  end.

Definition rshift (self : StridedInterval) (shift_amount : shift_amount_t)
  (preserve_sign : bool) : result StridedInterval :=
  let '(lower, upper) := _pre_shift self shift_amount in
  st <- for_each (xrange lower (upper + 1))
          (fun st shift_amount =>
             let '(new_lower_bound, new_upper_bound, lower_bound_shifted,
                   upper_bound_shifted) := st in
             l <- py_rshift (lower_bound self) shift_amount ;;
             let '(new_lower_bound, lower_bound_shifted) :=
               match new_lower_bound with
               | None => (Some l, shift_amount)
               | Some cur =>
                   if l <? cur then (Some l, shift_amount)
                   else (new_lower_bound, lower_bound_shifted)
               end in
             u <- py_rshift (upper_bound self) shift_amount ;;
             let '(new_upper_bound, upper_bound_shifted) :=
               match new_upper_bound with
               | None => (Some u, shift_amount)
               | Some cur =>
                   if u >? cur then (Some u, shift_amount)
                   else (new_upper_bound, upper_bound_shifted)
               end in
             Ok (new_lower_bound, new_upper_bound, lower_bound_shifted,
                 upper_bound_shifted))
          (None, None, 0, 0) ;;
  let '(new_lower_bound, new_upper_bound, lower_bound_shifted, upper_bound_shifted) := st in
  bounds <-
    (if preserve_sign then
       let mask := 2 ^ (bits self - 1) in
       new_lower_bound <-
         (if Z.land (lower_bound self) mask >? 0 then
            bits_sign <- py_lshift (2 ^ lower_bound_shifted - 1)
                                   (bits self - lower_bound_shifted) ;;
            or_sign new_lower_bound bits_sign
          else Ok new_lower_bound) ;;
       new_upper_bound <-
         (if Z.land (upper_bound self) mask >? 0 then
            bits_sign <- py_lshift (2 ^ upper_bound_shifted - 1)
                                   (bits self - upper_bound_shifted) ;;
            or_sign new_upper_bound bits_sign
          else Ok new_upper_bound) ;;
       Ok (new_lower_bound, new_upper_bound)
     else Ok (new_lower_bound, new_upper_bound)) ;;
  shifted_stride <- py_rshift (stride self) upper ;;
  ret <- __init__ (bits self) (Some (Z.max shifted_stride 1)) (fst bounds) (snd bounds)
                  false false ;;
  normalize ret.

Definition lshift (self : StridedInterval) (shift_amount : shift_amount_t)
  : result StridedInterval :=
  let '(lower, upper) := _pre_shift self shift_amount in
  st <- for_each (xrange lower (upper + 1))
          (fun st shift_amount =>
             let '(new_lower_bound, new_upper_bound) := st in
             l <- py_lshift (lower_bound self) shift_amount ;;
             let new_lower_bound :=
               match new_lower_bound with
               | None => Some l
               | Some cur => if l <? cur then Some l else new_lower_bound
               end in
             u <- py_lshift (upper_bound self) shift_amount ;;
             let new_upper_bound :=
               match new_upper_bound with
               | None => Some u
               | Some cur => if u >? cur then Some u else new_upper_bound
               end in
             Ok (new_lower_bound, new_upper_bound))
          (None, None) ;;
  let '(new_lower_bound, new_upper_bound) := st in
  shifted_stride <- py_lshift (stride self) lower ;;
  ret <- __init__ (bits self) (Some (Z.max shifted_stride 1))
                  new_lower_bound new_upper_bound false false ;;
  normalize ret.

(** *** Width extension and concretisation *)

Definition zero_extend (self : StridedInterval) (new_length : positive)
  : result StridedInterval :=
  si <- copy self ;;
  Ok (set_bits si new_length).

(** The inner [while len(results) < n and lb <= ub] loop of [eval]; [room] is
    [n - len(results)]. *)
Fixpoint eval_walk (room : nat) (lb ub stride : Z) (results : list Z) : list Z :=
  match room with
  | O => results
  | S room' =>
      if lb <=? ub then eval_walk room' (lb + stride) ub stride (results ++ [lb])
      else results
  end.

Definition eval (self : StridedInterval) (n : Z) (signed : bool) : result (list Z) :=
  if is_empty self then Ok []
  else if (stride self =? 0) && (n >? 0) then Ok [lower_bound self]
  else
    bounds <- (if signed then _signed_bounds self else _unsigned_bounds self) ;;
    Ok (fold_left
          (fun results b =>
             eval_walk (Z.to_nat (n - Z.of_nat (List.length results)))
                       (fst b) (snd b) (stride self) results)
          bounds []).

(** *** Widening *)

Definition upper (bits i stride : Z) : Z :=
  if stride >=? 1 then
    let offset := i mod stride in
    let max := max_int bits in
    let max_offset := max mod stride in
    if max_offset >=? offset then max - (max_offset - offset)
    else max - ((max_offset + stride) - offset)
  else max_int bits.

Definition lower (bits i stride : Z) : Z :=
  if stride >=? 1 then
    let offset := i mod stride in
    let min := min_int bits in
    let min_offset := min mod stride in
    if offset >=? min_offset then min + (offset - min_offset)
    else min + ((offset + stride) - min_offset)
  else min_int bits.

Definition widen (self b : StridedInterval) : result StridedInterval :=
  ret <-
    (if is_empty self && negb (is_empty b) then top (bits self) false
     else if is_empty self then Ok b
     else if is_empty b then Ok self
     else
       let new_stride := gcd (stride self) (stride b) in
       let l :=
         if lower_bound b <? lower_bound self
         then lower (bits self) (lower_bound self) new_stride
         else lower_bound self in
       let u :=
         if upper_bound b >? upper_bound self
         then upper (bits self) (upper_bound self) new_stride
         else upper_bound self in
       if new_stride =? 0 then
         if is_integer self && is_integer b then SI (bits self) 1 l u
         else Raise (ClaripyOperationError "SI: operands are not reduced.")
       else SI (bits self) new_stride l u) ;;
  normalize ret.

(** *** Bitwise negation *)

(** The body under [reversed_processor], which calls it on the operand as it
    is when the [reversed] flag is clear.  [~v] is [Z.lnot v]. *)
Definition bitwise_not (self : StridedInterval) : result StridedInterval :=
  splitted_si <- _ssplit self ;;
  if (List.length splitted_si =? 0)%nat then empty (bits self)
  else
    result_interval <-
      for_each splitted_si
        (fun result_interval si =>
           let lb := Z.lnot (upper_bound si) in
           let ub := Z.lnot (lower_bound si) in
           let stride := stride self in
           tmp <- SI (bits self) stride lb ub ;;
           Ok (result_interval ++ [tmp])) [] ;;
    r <- _least_upper_bound result_interval ;;
    normalize r.

(** *** Remainder *)

(** The body under [normalize_types]. *)
Definition __mod__ (self o : StridedInterval) : result StridedInterval :=
  if is_integer self && is_integer o then
    r <- py_mod (lower_bound self) (lower_bound o) ;;
    SI (bits self) 0 r r
  else
    SI (bits self) 1 0 (upper_bound o - 1).

(** ** Notions of the specification *)

(** What a Python set guarantees of [list(set)] after a run of [add]s: the
    list is not empty when something was added, and it holds added elements
    only. *)
Definition python_set (list_of_set : list StridedInterval -> list StridedInterval) : Prop :=
  (forall l, l <> [] -> list_of_set l <> [])
  /\ (forall l x, In x (list_of_set l) -> In x l).

(** The data model of the specification (section 3): a non-negative stride,
    bounds stored unsigned in [[0, 2^bits)], and stride 0 exactly for the
    singletons.  The lazy [reversed] flag is clear, as the constructor leaves
    it: the [reversed_processor] and [normalize_types] decorators then pass
    operands of one width to the method bodies unchanged. *)
Record wf (x : StridedInterval) : Prop := mk_wf {
  wf_stride : 0 <= stride x;
  wf_lower_bound : 0 <= lower_bound x < 2 ^ bits x;
  wf_upper_bound : 0 <= upper_bound x < 2 ^ bits x;
  wf_singleton : lower_bound x = upper_bound x <-> stride x = 0;
  wf_reversed : reversed x = false
}.

(** The stride discipline of the specification (section 8, property 12). *)
Definition stride_discipline (x : StridedInterval) : Prop :=
  is_bottom x = false -> 0 < stride x ->
  (_modular_sub (upper_bound x) (lower_bound x) (bits x)) mod stride x = 0.

(** The concretisation: every value [eval] can list. *)
Definition concretize (x : StridedInterval) : result (list Z) :=
  eval x (2 ^ bits x) false.

(** The values of the record type that the factories return. *)
Definition TOP (w : positive) : StridedInterval :=
  mkSI w 1 0 (2 ^ w - 1) false false false.

Definition BOTTOM (w : positive) : StridedInterval :=
  mkSI w 1 0 (2 ^ w - 1) false false true.

(** The cardinality of an operand as [_wrappedoverflow_add] counts it. *)
Definition overflow_cardinality (x : StridedInterval) : Z :=
  if is_integer x && (lower_bound x =? 0) then 0
  else _wrapped_cardinality (lower_bound x) (upper_bound x) (bits x).

(** [add] as the specification words it: TOP when the wrapped cardinalities
    of the two operands sum to more than [max_int], the sum of the bounds with
    the gcd of the strides otherwise. *)
Definition add_as_specified (a b : StridedInterval) : Prop :=
  let w := bits a in
  if _wrapped_cardinality (lower_bound a) (upper_bound a) w
     + _wrapped_cardinality (lower_bound b) (upper_bound b) w >? max_int w
  then add a b = top w false
  else
    exists r, add a b = Ok r
      /\ lower_bound r = _modular_add (lower_bound a) (lower_bound b) w
      /\ upper_bound r = _modular_add (upper_bound a) (upper_bound b) w
      /\ stride r = gcd (stride a) (stride b).

(** The bounds and the stride that [complement] passes to the constructor in
    its third case, the stride already with the constructor's rule for
    singletons. *)
Definition complement_lower_bound (x : StridedInterval) : Z :=
  (upper_bound x + 1) mod 2 ^ bits x.

Definition complement_upper_bound (x : StridedInterval) : Z :=
  (lower_bound x - 1) mod 2 ^ bits x.

Definition complement_stride (x : StridedInterval) : Z :=
  if complement_lower_bound x =? complement_upper_bound x then 0
  else if stride x =? 0 then 1
  else gcd (stride x)
           (_wrapped_cardinality (complement_lower_bound x) (complement_upper_bound x)
                                 (bits x) - 1).

(** [complement] as the specification words it. *)
Definition complement_as_specified (x : StridedInterval) : Prop :=
  if is_bottom x then complement x = top (bits x) false
  else if is_top x then complement x = empty (bits x)
  else
    exists r, complement x = Ok r
      /\ lower_bound r = complement_lower_bound x
      /\ upper_bound r = complement_upper_bound x
      /\ stride r = complement_stride x.

(** The record that the constructor returns for a non-bottom interval: bounds
    reduced modulo [2^bits], stride 0 for a singleton, the canonical form for
    TOP. *)
Definition normal_form (w : positive) (s l u : Z) (un : bool) : StridedInterval :=
  let l := l mod 2 ^ w in
  let u := u mod 2 ^ w in
  let s := if l =? u then 0 else s in
  if (l =? (u + 1) mod 2 ^ w) && (s =? 1)
  then mkSI w 1 0 (2 ^ w - 1) false un false
  else mkSI w s l u false un false.

(** What the pole splits need of an interval: a stride that is not negative,
    and zero for singletons only.  Every [wf] interval has it, and so has
    every piece of a split. *)
Definition splits (x : StridedInterval) : Prop :=
  0 <= stride x /\ (stride x = 0 -> lower_bound x = upper_bound x).

(** The bounds of the singleton zero. *)
Definition zero_bounds (x : StridedInterval) : Prop :=
  lower_bound x = 0 /\ upper_bound x = 0.

(** [<w>s[l, u]]: the StridedInterval of width [w], stride [s] and bounds
    [l], [u] with the three flags clear. *)
Definition interval (w : positive) (s l u : Z) : StridedInterval :=
  mkSI w s l u false false false.

(** The values [m] takes in the loops: a power of two, or zero at the end. *)
Definition loop_mask (m : Z) : Prop := m = 0 \/ exists k, 0 <= k /\ m = 2 ^ k.

(** Unfolding of record projections and setters, and nothing else. *)
Ltac fields :=
  cbn [bits stride lower_bound upper_bound reversed uninitialized is_bottom
       set_bits set_stride set_lower_bound set_upper_bound set_reversed] in *.

(** Well-formedness of a literal interval, by evaluation of its fields. *)
Ltac wf_by_computation :=
  apply mk_wf; unfold interval; fields; repeat split; try lia; try reflexivity.

(** ** Facts on powers of two and on the helpers *)

Lemma pow2_ge_2 (w : positive) : 2 <= 2 ^ Z.pos w.
Proof.
  change 2 with (2 ^ 1) at 1.
  apply Z.pow_le_mono_r; lia.
Qed.

Lemma max_int_eq (w : positive) : max_int (Z.pos w) = 2 ^ Z.pos w - 1.
Proof.
  unfold max_int, highbit.
  rewrite Z.shiftl_1_l.
  replace (Z.pos w + 1 - 1) with (Z.pos w) by lia.
  reflexivity.
Qed.

Lemma land_mask (v : Z) (w : positive) :
  Z.land v (2 ^ Z.pos w - 1) = v mod 2 ^ Z.pos w.
Proof.
  rewrite <- Z.land_ones by lia.
  rewrite Z.ones_equiv.
  reflexivity.
Qed.

Lemma mod_range (v : Z) (w : positive) : 0 <= v mod 2 ^ Z.pos w < 2 ^ Z.pos w.
Proof.
  apply Z.mod_pos_bound.
  pose proof (pow2_ge_2 w).
  lia.
Qed.

(** ** The constructor in closed form *)

Lemma init_bottom (w : positive) (s l u : Z) (un : bool) :
  __init__ w (Some s) (Some l) (Some u) un true
  = Ok (mkSI w s (l mod 2 ^ w) (u mod 2 ^ w) false un true).
Proof.
  unfold __init__, normalize, is_empty.
  rewrite !land_mask.
  fields. rewrite andb_false_r. fields.
  reflexivity.
Qed.

Lemma init_live (w : positive) (s l u : Z) (un : bool) :
  l mod 2 ^ w = u mod 2 ^ w \/ 0 <= s ->
  __init__ w (Some s) (Some l) (Some u) un false = Ok (normal_form w s l u un).
Proof.
  intros Hs.
  unfold __init__, normalize, normal_form, is_empty, _normalize_top, _modular_add.
  rewrite !land_mask.
  pose proof (mod_range l w) as Hl.
  pose proof (mod_range u w) as Hu.
  set (l' := l mod 2 ^ Z.pos w) in *.
  set (u' := u mod 2 ^ Z.pos w) in *.
  fields. rewrite andb_false_r. fields.
  destruct (l' =? u') eqn:Elu; fields.
  - destruct (l' <? 0) eqn:Eneg; [apply Z.ltb_lt in Eneg; lia|]; fields.
    destruct (l' =? (u' + 1) mod 2 ^ Z.pos w); cbn [andb Z.eqb Z.ltb Z.compare]; fields; reflexivity.
  - destruct (l' <? 0) eqn:Eneg; [apply Z.ltb_lt in Eneg; lia|]; fields.
    apply Z.eqb_neq in Elu.
    destruct Hs as [Hs|Hs]; [contradiction|].
    destruct (l' =? (u' + 1) mod 2 ^ Z.pos w) eqn:Etop; cbn [andb]; fields.
    + destruct (s =? 1) eqn:Es1; fields.
      * apply Z.eqb_eq in Es1. subst s. rewrite max_int_eq. reflexivity.
      * destruct (s <? 0) eqn:Es; [apply Z.ltb_lt in Es; lia|].
        reflexivity.
    + destruct (s <? 0) eqn:Es; [apply Z.ltb_lt in Es; lia|].
      reflexivity.
Qed.

(** ** The factories *)

Lemma empty_eq (w : positive) : empty w = Ok (BOTTOM w).
Proof.
  unfold empty, __init__, normalize, is_empty, BOTTOM.
  rewrite Z.land_0_l, Z.land_diag.
  fields. rewrite andb_false_r. fields.
  reflexivity.
Qed.

Lemma top_eq (w : positive) (un : bool) :
  top w un = Ok (mkSI w 1 0 (2 ^ w - 1) false un false).
Proof.
  unfold top.
  rewrite init_live by (right; lia).
  unfold normal_form.
  rewrite max_int_eq.
  pose proof (pow2_ge_2 w) as Hw.
  rewrite Z.mod_0_l by lia.
  rewrite (Z.mod_small (2 ^ Z.pos w - 1)) by lia.
  replace (2 ^ Z.pos w - 1 + 1) with (2 ^ Z.pos w) by lia.
  rewrite Z.mod_same by lia.
  destruct (0 =? 2 ^ Z.pos w - 1) eqn:E; [apply Z.eqb_eq in E; lia|].
  reflexivity.
Qed.

Lemma is_top_TOP (w : positive) : is_top (TOP w) = true.
Proof.
  unfold is_top, TOP, _modular_add; fields.
  pose proof (pow2_ge_2 w) as Hw.
  replace (2 ^ Z.pos w - 1 + 1) with (2 ^ Z.pos w) by lia.
  rewrite Z.mod_same by lia.
  reflexivity.
Qed.

Lemma is_top_BOTTOM (w : positive) : is_top (BOTTOM w) = true.
Proof.
  exact (is_top_TOP w).
Qed.

(** C10.  For every positive width [w], the bottom StridedInterval that
    [empty(w)] returns carries the constructor's defaults (stride 1, lower
    bound 0, upper bound [2^w - 1]) and satisfies [is_top]: the predicate does
    not exclude the empty interval. *)
Theorem empty_is_top (w : positive) :
  exists e, empty w = Ok e
    /\ is_bottom e = true /\ is_empty e = true
    /\ stride e = 1 /\ lower_bound e = 0 /\ upper_bound e = 2 ^ w - 1
    /\ is_top e = true.
Proof.
  exists (BOTTOM w).
  rewrite empty_eq.
  repeat split.
  apply is_top_BOTTOM.
Qed.

(** ** Joining empty intervals *)

Section EmptyJoin.

Variable w : positive.

Lemma copy_BOTTOM : copy (BOTTOM w) = Ok (BOTTOM w).
Proof.
  unfold copy, BOTTOM; fields.
  rewrite init_bottom.
  pose proof (pow2_ge_2 w) as Hw.
  rewrite Z.mod_0_l by lia.
  rewrite Z.mod_small by lia.
  reflexivity.
Qed.

Lemma copy_TOP : copy (TOP w) = Ok (TOP w).
Proof.
  unfold copy, TOP; fields.
  pose proof (top_eq w false) as Ht.
  unfold top in Ht.
  rewrite max_int_eq in Ht.
  rewrite Ht.
  reflexivity.
Qed.

Lemma wrapped_lte_bottom_l (x y : StridedInterval) :
  is_bottom x = true -> _wrapped_lte x y = true.
Proof.
  intros Hb.
  unfold _wrapped_lte, is_empty.
  rewrite Hb.
  reflexivity.
Qed.

Lemma interval_extend_BOTTOM :
  _interval_extend (BOTTOM w) (BOTTOM w) = Ok (BOTTOM w).
Proof.
  unfold _interval_extend.
  rewrite wrapped_lte_bottom_l by reflexivity.
  apply copy_BOTTOM.
Qed.

Lemma wrapped_member_BOTTOM_max :
  _wrapped_member (BOTTOM w) (2 ^ w - 1) = true.
Proof.
  unfold _wrapped_member, _lex_lte, BOTTOM; fields.
  apply Z.leb_refl.
Qed.

Lemma gap_BOTTOM : _gap (BOTTOM w) (BOTTOM w) = Ok (BOTTOM w).
Proof.
  unfold _gap.
  rewrite Pos.eqb_refl.
  cbn [negb].
  change (upper_bound (BOTTOM w)) with (2 ^ Z.pos w - 1).
  rewrite wrapped_member_BOTTOM_max.
  cbn [negb andb].
  apply empty_eq.
Qed.

Lemma cardinality_BOTTOM : cardinality (BOTTOM w) = Ok 0.
Proof.
  reflexivity.
Qed.

Lemma cardinality_TOP : cardinality (TOP w) = Ok (2 ^ w).
Proof.
  unfold cardinality, is_integer, TOP, py_div, _modular_sub; fields.
  pose proof (pow2_ge_2 w) as Hw.
  destruct (0 =? 2 ^ Z.pos w - 1) eqn:E; [apply Z.eqb_eq in E; lia|].
  cbn [Z.eqb].
  rewrite Z.sub_0_r.
  rewrite Z.mod_small by lia.
  rewrite Z.div_1_r.
  f_equal; lia.
Qed.

Lemma bigger_BOTTOM : _bigger (BOTTOM w) (BOTTOM w) = Ok (BOTTOM w).
Proof.
  unfold _bigger.
  rewrite cardinality_BOTTOM.
  cbn [bind Z.gtb Z.compare].
  apply copy_BOTTOM.
Qed.

Lemma bigger_BOTTOM_TOP : _bigger (BOTTOM w) (TOP w) = Ok (TOP w).
Proof.
  unfold _bigger.
  rewrite cardinality_BOTTOM, cardinality_TOP.
  cbn [bind].
  pose proof (pow2_ge_2 w) as Hw.
  destruct (2 ^ Z.pos w >? 0) eqn:E.
  - apply copy_TOP.
  - rewrite Z.gtb_ltb in E. apply Z.ltb_ge in E. lia.
Qed.

Lemma complement_BOTTOM : complement (BOTTOM w) = Ok (TOP w).
Proof.
  unfold complement, is_empty.
  cbn [is_bottom BOTTOM bits].
  apply top_eq.
Qed.

Lemma complement_TOP : complement (TOP w) = Ok (BOTTOM w).
Proof.
  unfold complement, is_empty.
  rewrite is_top_TOP.
  cbn [is_bottom TOP bits].
  apply empty_eq.
Qed.

Lemma sorted_constant (e : StridedInterval) (l : list StridedInterval) :
  (forall x, In x l -> x = e) -> sorted_by_lower_bound l = l.
Proof.
  induction l as [|y l IH]; intros Hall.
  - reflexivity.
  - cbn [sorted_by_lower_bound fold_right].
    fold (sorted_by_lower_bound l).
    rewrite IH by (intros x Hx; apply Hall; right; exact Hx).
    destruct l as [|z l'].
    + reflexivity.
    + cbn [insert_by_lower_bound].
      rewrite (Hall y) by (left; reflexivity).
      rewrite (Hall z) by (right; left; reflexivity).
      rewrite Z.leb_refl.
      reflexivity.
Qed.

Lemma first_loop_BOTTOM (l : list StridedInterval) :
  (forall x, In x l -> x = BOTTOM w) ->
  for_each l
    (fun f s =>
       if is_top s || _lex_lte (upper_bound s) (lower_bound s) w
       then _interval_extend f s else Ok f) (BOTTOM w)
  = Ok (BOTTOM w).
Proof.
  induction l as [|y l IH]; intros Hall.
  - reflexivity.
  - cbn [for_each].
    rewrite (Hall y) by (left; reflexivity).
    rewrite is_top_BOTTOM.
    cbn [orb].
    rewrite interval_extend_BOTTOM.
    cbn [bind].
    apply IH.
    intros x Hx; apply Hall; right; exact Hx.
Qed.

Lemma second_loop_BOTTOM (l : list StridedInterval) :
  (forall x, In x l -> x = BOTTOM w) ->
  for_each l
    (fun fg s =>
       gp <- _gap (fst fg) s ;;
       g <- _bigger (snd fg) gp ;;
       f <- _interval_extend (fst fg) s ;;
       Ok (f, g)) (BOTTOM w, BOTTOM w)
  = Ok (BOTTOM w, BOTTOM w).
Proof.
  induction l as [|y l IH]; intros Hall.
  - reflexivity.
  - cbn [for_each fst snd].
    rewrite (Hall y) by (left; reflexivity).
    rewrite gap_BOTTOM. cbn [bind].
    rewrite bigger_BOTTOM. cbn [bind].
    rewrite interval_extend_BOTTOM. cbn [bind].
    apply IH.
    intros x Hx; apply Hall; right; exact Hx.
Qed.

Lemma least_upper_bound_BOTTOM (l : list StridedInterval) :
  l <> [] -> (forall x, In x l -> x = BOTTOM w) ->
  _least_upper_bound l = Ok (BOTTOM w).
Proof.
  intros Hne Hall.
  destruct l as [|i0 l]; [contradiction|].
  assert (Hi0 : i0 = BOTTOM w) by (apply Hall; left; reflexivity).
  subst i0.
  destruct l as [|i1 l].
  - cbn [_least_upper_bound]. apply copy_BOTTOM.
  - unfold _least_upper_bound.
    assert (Hbits : forallb (fun x => Pos.eqb (bits x) (bits (BOTTOM w)))
                            (BOTTOM w :: i1 :: l) = true).
    { apply forallb_forall. intros x Hx. rewrite (Hall x Hx). apply Pos.eqb_refl. }
    rewrite Hbits. cbn [negb].
    rewrite (sorted_constant (BOTTOM w)) by exact Hall.
    change (bits (BOTTOM w)) with w.
    rewrite empty_eq. cbn [bind].
    rewrite first_loop_BOTTOM by exact Hall. cbn [bind].
    rewrite second_loop_BOTTOM by exact Hall. cbn [bind fst snd].
    rewrite complement_BOTTOM. cbn [bind].
    rewrite bigger_BOTTOM_TOP. cbn [bind].
    rewrite complement_TOP. cbn [bind].
    assert (Hint : is_integer (BOTTOM w) = false).
    { unfold is_integer, BOTTOM; fields.
      pose proof (pow2_ge_2 w). apply Z.eqb_neq. lia. }
    rewrite Hint.
    rewrite is_top_BOTTOM.
    reflexivity.
Qed.

End EmptyJoin.

(** ** Pole splits return pieces *)

Lemma wf_splits (x : StridedInterval) : wf x -> splits x.
Proof.
  intros [Hs _ _ Hsing _].
  split; [exact Hs|].
  apply Hsing.
Qed.

Lemma normal_form_bits (w : positive) (s l u : Z) (un : bool) :
  bits (normal_form w s l u un) = w.
Proof.
  unfold normal_form.
  destruct ((l mod 2 ^ w =? (u mod 2 ^ w + 1) mod 2 ^ w)
            && ((if l mod 2 ^ w =? u mod 2 ^ w then 0 else s) =? 1));
    reflexivity.
Qed.

Lemma normal_form_splits (w : positive) (s l u : Z) (un : bool) :
  0 <= s -> (s = 0 -> l mod 2 ^ w = u mod 2 ^ w) ->
  splits (normal_form w s l u un).
Proof.
  intros Hs H0.
  unfold normal_form, splits.
  destruct (l mod 2 ^ w =? u mod 2 ^ w) eqn:Elu.
  - apply Z.eqb_eq in Elu.
    rewrite andb_false_r; fields.
    split; [lia|intros _; exact Elu].
  - apply Z.eqb_neq in Elu.
    destruct ((l mod 2 ^ w =? (u mod 2 ^ w + 1) mod 2 ^ w) && (s =? 1)); fields.
    + split; [lia|intros H; discriminate H].
    + split; [exact Hs|intros H; exfalso; apply Elu; apply H0; exact H].
Qed.

Lemma normal_form_zero (w : positive) (s : Z) (un : bool) :
  zero_bounds (normal_form w s 0 0 un).
Proof.
  unfold normal_form, zero_bounds.
  pose proof (pow2_ge_2 w) as Hw.
  rewrite Z.mod_0_l by lia.
  cbn [Z.eqb Z.add].
  rewrite (Z.mod_small 1) by lia.
  cbn [Z.eqb andb]; fields.
  split; reflexivity.
Qed.

Lemma SI_pieces (w : positive) (s l u : Z) :
  0 < s ->
  exists r, SI w s l u = Ok r /\ bits r = w /\ splits r.
Proof.
  intros Hs.
  exists (normal_form w s l u false).
  unfold SI.
  rewrite init_live by (right; lia).
  split; [reflexivity|].
  split; [apply normal_form_bits|].
  apply normal_form_splits; lia.
Qed.

Lemma copy_pieces (x : StridedInterval) :
  splits x ->
  exists c, copy x = Ok c /\ bits c = bits x /\ splits c
            /\ (zero_bounds x -> zero_bounds c).
Proof.
  intros [Hs H0].
  unfold copy.
  destruct (is_bottom x) eqn:Hb.
  - rewrite init_bottom. cbn [bind].
    eexists; split; [reflexivity|].
    unfold splits, zero_bounds; fields.
    split; [reflexivity|].
    split.
    + split; [exact Hs|intros H; rewrite (H0 H); reflexivity].
    + intros [Hl Hu]. rewrite Hl, Hu.
      pose proof (pow2_ge_2 (bits x)).
      rewrite Z.mod_0_l by lia. split; reflexivity.
  - rewrite init_live by (right; exact Hs). cbn [bind].
    eexists; split; [reflexivity|].
    split; [|split].
    + unfold set_reversed; fields. apply normal_form_bits.
    + pose proof (normal_form_splits (bits x) (stride x) (lower_bound x)
                    (upper_bound x) (uninitialized x) Hs) as Hn.
      unfold splits in *; fields.
      apply Hn. intros H; rewrite (H0 H); reflexivity.
    + intros [Hl Hu]. rewrite Hl, Hu.
      pose proof (normal_form_zero (bits x) (stride x) (uninitialized x)) as Hz.
      unfold zero_bounds in *; fields. exact Hz.
Qed.

Lemma ssplit_pieces (x : StridedInterval) :
  splits x ->
  exists ps, _ssplit x = Ok ps /\ ps <> []
             /\ (forall p, In p ps -> bits p = bits x /\ splits p).
Proof.
  intros Hx.
  unfold _ssplit.
  destruct (upper_bound x <? lower_bound x) eqn:Ewrap.
  - apply Z.ltb_lt in Ewrap.
    destruct Hx as [Hs H0].
    assert (Hpos : 0 < stride x) by (destruct (Z.eq_dec (stride x) 0) as [E|E]; [apply H0 in E|]; lia).
    unfold py_mod.
    destruct (stride x =? 0) eqn:E0; [apply Z.eqb_eq in E0; lia|].
    cbn [bind].
    match goal with |- context [SI ?w ?s ?l ?u] =>
      destruct (SI_pieces w s l u Hpos) as (a & Ha & Hba & Hsa) end.
    rewrite Ha. cbn [bind].
    match goal with |- context [SI ?w ?s ?l ?u] =>
      destruct (SI_pieces w s l u Hpos) as (b & Hb & Hbb & Hsb) end.
    rewrite Hb. cbn [bind].
    exists [a; b].
    split; [reflexivity|].
    split; [discriminate|].
    intros p [Hp|[Hp|[]]]; subst p; auto.
  - destruct (copy_pieces x Hx) as (c & Hc & Hbc & Hsc & _).
    rewrite Hc. cbn [bind].
    exists [c].
    split; [reflexivity|].
    split; [discriminate|].
    intros p [Hp|[]]; subst p; auto.
Qed.

Lemma ssplit_zero (x : StridedInterval) :
  splits x -> zero_bounds x ->
  exists c, _ssplit x = Ok [c] /\ bits c = bits x /\ splits c /\ zero_bounds c.
Proof.
  intros Hx Hz.
  unfold _ssplit.
  destruct Hz as [Hl Hu].
  rewrite Hl, Hu.
  cbn [Z.ltb Z.compare].
  destruct (copy_pieces x Hx) as (c & Hc & Hbc & Hsc & Hzc).
  rewrite Hc. cbn [bind].
  exists c.
  split; [reflexivity|].
  split; [exact Hbc|].
  split; [exact Hsc|].
  apply Hzc; split; assumption.
Qed.

Lemma nsplit_pieces (x : StridedInterval) :
  splits x ->
  exists ps, _nsplit x = Ok ps /\ ps <> []
             /\ (forall p, In p ps -> bits p = bits x /\ splits p).
Proof.
  intros Hx.
  unfold _nsplit.
  match goal with |- context [if ?c then _ else _] => destruct c eqn:Estr end.
  - destruct Hx as [Hs H0].
    assert (Hne : lower_bound x <> upper_bound x).
    { intros E. rewrite E in Estr.
      pose proof (max_int_eq (bits x)) as _.
      assert (Hnp : max_int (bits x - 1) < 2 ^ (bits x - 1)).
      { unfold max_int, highbit. rewrite Z.shiftl_1_l.
        replace (bits x - 1 + 1 - 1) with (bits x - 1) by lia. lia. }
      destruct (upper_bound x >=? 2 ^ (bits x - 1)) eqn:E1.
      - rewrite Z.geb_leb in E1. apply Z.leb_le in E1.
        rewrite Z.gtb_ltb, Z.ltb_irrefl in Estr.
        destruct (upper_bound x <=? max_int (bits x - 1)) eqn:E2; [|discriminate].
        apply Z.leb_le in E2. lia.
      - rewrite Z.gtb_ltb, Z.ltb_irrefl in Estr. discriminate. }
    assert (Hpos : 0 < stride x) by (destruct (Z.eq_dec (stride x) 0) as [E|E]; [apply H0 in E|]; lia).
    unfold py_mod.
    destruct (stride x =? 0) eqn:E0; [apply Z.eqb_eq in E0; lia|].
    cbn [bind].
    match goal with |- context [SI ?w ?s ?l ?u] =>
      destruct (SI_pieces w s l u Hpos) as (a & Ha & Hba & Hsa) end.
    rewrite Ha. cbn [bind].
    match goal with |- context [SI ?w ?s ?l ?u] =>
      destruct (SI_pieces w s l u Hpos) as (b & Hb & Hbb & Hsb) end.
    rewrite Hb. cbn [bind].
    exists [a; b].
    split; [reflexivity|].
    split; [discriminate|].
    intros p [Hp|[Hp|[]]]; subst p; auto.
  - destruct (copy_pieces x Hx) as (c & Hc & Hbc & Hsc & _).
    rewrite Hc. cbn [bind].
    exists [c].
    split; [reflexivity|].
    split; [discriminate|].
    intros p [Hp|[]]; subst p; auto.
Qed.

Lemma nsplit_zero (x : StridedInterval) :
  splits x -> zero_bounds x ->
  exists c, _nsplit x = Ok [c] /\ bits c = bits x /\ splits c /\ zero_bounds c.
Proof.
  intros Hx Hz.
  unfold _nsplit.
  destruct Hz as [Hl Hu].
  rewrite Hl, Hu.
  assert (Hnp : 0 < 2 ^ (bits x - 1)) by (apply Z.pow_pos_nonneg; lia).
  destruct (0 >=? 2 ^ (bits x - 1)) eqn:E1.
  { rewrite Z.geb_leb in E1. apply Z.leb_le in E1. lia. }
  cbn [Z.gtb Z.compare andb].
  destruct (copy_pieces x Hx) as (c & Hc & Hbc & Hsc & Hzc).
  rewrite Hc. cbn [bind].
  exists c.
  split; [reflexivity|].
  split; [exact Hbc|].
  split; [exact Hsc|].
  apply Hzc; split; assumption.
Qed.

Lemma psplit_loop_pieces (w : positive) (l acc : list StridedInterval) :
  (forall p, In p l -> bits p = w /\ splits p) ->
  (forall p, In p acc -> bits p = w) ->
  exists ps,
    for_each l (fun psplit_list si => l' <- _ssplit si ;; Ok (psplit_list ++ l')) acc
    = Ok ps
    /\ (acc <> [] \/ l <> [] -> ps <> [])
    /\ (forall p, In p ps -> bits p = w).
Proof.
  revert acc.
  induction l as [|y l IH]; intros acc Hl Hacc.
  - exists acc. cbn [for_each].
    split; [reflexivity|].
    split; [intros [H|H]; [exact H|contradiction]|exact Hacc].
  - cbn [for_each].
    destruct (Hl y (or_introl eq_refl)) as [Hby Hsy].
    destruct (ssplit_pieces y Hsy) as (ps & Hps & Hne & Hall).
    rewrite Hps. cbn [bind].
    destruct (IH (acc ++ ps)) as (qs & Hqs & Hqne & Hqall).
    + intros p Hp. apply Hl. right. exact Hp.
    + intros p Hp. apply in_app_or in Hp. destruct Hp as [Hp|Hp].
      * apply Hacc. exact Hp.
      * rewrite <- Hby. apply Hall. exact Hp.
    + exists qs.
      split; [exact Hqs|].
      split; [|exact Hqall].
      intros _. apply Hqne. left.
      destruct ps; [contradiction|]. destruct acc; discriminate.
Qed.

Lemma psplit_pieces (x : StridedInterval) :
  splits x ->
  exists ps, _psplit x = Ok ps /\ ps <> [] /\ (forall p, In p ps -> bits p = bits x).
Proof.
  intros Hx.
  unfold _psplit.
  destruct (nsplit_pieces x Hx) as (ns & Hns & Hne & Hall).
  rewrite Hns. cbn [bind].
  destruct (psplit_loop_pieces (bits x) ns [] Hall) as (ps & Hps & Hpne & Hpall).
  { intros p []. }
  exists ps.
  split; [exact Hps|].
  split; [apply Hpne; right; exact Hne|exact Hpall].
Qed.

Lemma psplit_zero (x : StridedInterval) :
  splits x -> zero_bounds x ->
  exists c, _psplit x = Ok [c] /\ bits c = bits x /\ zero_bounds c.
Proof.
  intros Hx Hz.
  unfold _psplit.
  destruct (nsplit_zero x Hx Hz) as (c & Hc & Hbc & Hsc & Hzc).
  rewrite Hc. cbn [bind for_each].
  destruct (ssplit_zero c Hsc Hzc) as (d & Hd & Hbd & _ & Hzd).
  rewrite Hd. cbn [bind app].
  exists d.
  split; [reflexivity|].
  split; [congruence|exact Hzd].
Qed.

(** ** Division by the singleton zero *)

Lemma unsigned_div_zero (a b : StridedInterval) :
  bits b = bits a -> zero_bounds b ->
  _wrapped_unsigned_div a b = Ok (BOTTOM (bits a)).
Proof.
  intros Hb [Hl Hu].
  unfold _wrapped_unsigned_div.
  rewrite Hl, Hu, Hb, Pos.max_id.
  cbn [Z.eqb].
  apply empty_eq.
Qed.

Lemma signed_div_zero (a b : StridedInterval) :
  bits b = bits a -> zero_bounds b ->
  _wrapped_signed_div a b = Ok (BOTTOM (bits a)).
Proof.
  intros Hb [Hl Hu].
  unfold _wrapped_signed_div.
  rewrite Hl, Hu, Hb, Pos.max_id.
  cbn [Z.eqb].
  apply empty_eq.
Qed.

Lemma quotients_zero
  (div : StridedInterval -> StridedInterval -> result StridedInterval)
  (w : positive) (ds : list StridedInterval) (c : StridedInterval) :
  (forall d, In d ds -> div d c = Ok (BOTTOM w)) ->
  ds <> [] ->
  exists qs, quotients div ds [c] = Ok qs /\ qs <> []
             /\ (forall q, In q qs -> q = BOTTOM w).
Proof.
  intros Hdiv Hne.
  unfold quotients.
  assert (Hgen : forall acc,
             for_each ds
               (fun acc dividend =>
                  for_each [c]
                    (fun acc divisor => tmp <- div dividend divisor ;; Ok (acc ++ [tmp]))
                    acc) acc
             = Ok (acc ++ repeat (BOTTOM w) (List.length ds))).
  { clear Hne. induction ds as [|d ds IH]; intros acc.
    - cbn [for_each List.length repeat]. rewrite app_nil_r. reflexivity.
    - cbn [for_each].
      rewrite (Hdiv d) by (left; reflexivity). cbn [bind].
      rewrite IH by (intros d' Hd'; apply Hdiv; right; exact Hd').
      cbn [List.length repeat].
      rewrite <- app_assoc. reflexivity. }
  rewrite Hgen.
  exists (repeat (BOTTOM w) (List.length ds)).
  split; [reflexivity|].
  split.
  - destruct ds; [contradiction|discriminate].
  - intros q Hq. apply repeat_spec in Hq. exact Hq.
Qed.

Lemma normalize_BOTTOM (w : positive) : normalize (BOTTOM w) = Ok (BOTTOM w).
Proof.
  unfold normalize, is_empty, BOTTOM; fields.
  rewrite andb_false_r; fields.
  reflexivity.
Qed.

Lemma join_quotients_zero
  (list_of_set : list StridedInterval -> list StridedInterval)
  (w : positive) (qs : list StridedInterval) :
  python_set list_of_set ->
  qs <> [] -> (forall q, In q qs -> q = BOTTOM w) ->
  (r <- _least_upper_bound (list_of_set qs) ;; normalize r) = Ok (BOTTOM w).
Proof.
  intros [Hne Hincl] Hqs Hall.
  rewrite (least_upper_bound_BOTTOM w).
  - cbn [bind]. apply normalize_BOTTOM.
  - apply Hne. exact Hqs.
  - intros x Hx. apply Hall. apply Hincl. exact Hx.
Qed.

(** C9.  For every dividend [a] of the data model and every divisor [b] of
    the same width that is the singleton zero (stride 0, both bounds 0),
    [udiv] and [sdiv] both return the empty StridedInterval of that width,
    whatever the Python set of the partial quotients merges or reorders. *)
Theorem division_by_singleton_zero
  (list_of_set : list StridedInterval -> list StridedInterval)
  (a b : StridedInterval) :
  python_set list_of_set ->
  wf a -> wf b -> bits b = bits a ->
  stride b = 0 -> lower_bound b = 0 -> upper_bound b = 0 ->
  udiv list_of_set a b = empty (bits a)
  /\ sdiv list_of_set a b = empty (bits a).
Proof.
  intros Hset Ha Hb Hbits Hs Hl Hu.
  apply wf_splits in Ha.
  apply wf_splits in Hb.
  assert (Hz : zero_bounds b) by (split; assumption).
  rewrite !empty_eq.
  split.
  - unfold udiv.
    destruct (ssplit_pieces a Ha) as (ps & Hps & Hne & Hall).
    destruct (ssplit_zero b Hb Hz) as (c & Hc & Hbc & _ & Hzc).
    rewrite Hps, Hc, empty_eq. cbn [bind].
    destruct (quotients_zero _wrapped_unsigned_div (bits a) ps c) as (qs & Hqs & Hqne & Hqall).
    + intros d Hd.
      destruct (Hall d Hd) as [Hbd _].
      rewrite <- Hbd.
      apply unsigned_div_zero; [congruence|exact Hzc].
    + exact Hne.
    + rewrite Hqs. cbn [bind].
      apply join_quotients_zero; assumption.
  - unfold sdiv.
    destruct (psplit_pieces a Ha) as (ps & Hps & Hne & Hall).
    destruct (psplit_zero b Hb Hz) as (c & Hc & Hbc & Hzc).
    rewrite Hps, Hc, empty_eq. cbn [bind].
    destruct (quotients_zero _wrapped_signed_div (bits a) ps c) as (qs & Hqs & Hqne & Hqall).
    + intros d Hd.
      rewrite <- (Hall d Hd).
      apply signed_div_zero; [rewrite (Hall d Hd); congruence|exact Hzc].
    + exact Hne.
    + rewrite Hqs. cbn [bind].
      apply join_quotients_zero; assumption.
Qed.

(** ** Exclusive or *)

(** C4.  [bitwise_xor] does not return the join of the Warren bounds of the
    pieces: on every pair of operands of the data model it reaches the
    constructor call of the first pair of pieces, whose [stride] argument is
    the unbound name [mew_stride], and raises [NameError]. *)
Theorem bitwise_xor_raises_NameError (s t : StridedInterval) :
  wf s -> wf t -> bits s = bits t ->
  bitwise_xor s t = Raise (NameError "mew_stride").
Proof.
  intros Hs Ht _.
  apply wf_splits in Hs.
  apply wf_splits in Ht.
  unfold bitwise_xor.
  destruct (ssplit_pieces s Hs) as (us & Hus & Hune & _).
  destruct (ssplit_pieces t Ht) as (vs & Hvs & Hvne & _).
  rewrite Hus. cbn [bind].
  destruct us as [|u us]; [contradiction|].
  cbn [for_each].
  rewrite Hvs. cbn [bind].
  destruct vs as [|v vs]; [contradiction|].
  cbn [for_each].
  reflexivity.
Qed.

(** ** Comparisons *)

Lemma aggregate_true (ret : list BoolResult) :
  aggregate ret = TrueResult <->
  forallb (fun r => BoolResult_identical r TrueResult) ret = true.
Proof.
  unfold aggregate.
  destruct (forallb (fun r => BoolResult_identical r TrueResult) ret).
  - split; reflexivity.
  - destruct (forallb (fun r => BoolResult_identical r FalseResult) ret);
      split; intros H; discriminate H.
Qed.

Lemma forallb_verdicts (p : BoolResult -> bool)
  (verdict : Z -> Z -> Z -> Z -> BoolResult) (bounds_1 bounds_2 : list (Z * Z)) :
  forallb p (verdicts bounds_1 bounds_2 verdict) = true <->
  (forall b1 b2, In b1 bounds_1 -> In b2 bounds_2 ->
                 p (verdict (fst b1) (snd b1) (fst b2) (snd b2)) = true).
Proof.
  unfold verdicts.
  rewrite forallb_forall.
  split.
  - intros H b1 b2 H1 H2.
    apply H.
    apply in_flat_map. exists b1. split; [exact H1|].
    apply in_map_iff. exists b2. split; [reflexivity|exact H2].
  - intros H r Hr.
    apply in_flat_map in Hr. destruct Hr as (b1 & H1 & Hr).
    apply in_map_iff in Hr. destruct Hr as (b2 & Hr & H2).
    subst r. apply H; assumption.
Qed.

Lemma lt_verdict_le_verdict (lb_1 ub_1 lb_2 ub_2 : Z) :
  BoolResult_identical (lt_verdict lb_1 ub_1 lb_2 ub_2) TrueResult = true ->
  BoolResult_identical (le_verdict lb_1 ub_1 lb_2 ub_2) TrueResult = true.
Proof.
  unfold lt_verdict, le_verdict.
  destruct (ub_1 <? lb_2) eqn:E.
  - apply Z.ltb_lt in E.
    destruct (ub_1 <=? lb_2) eqn:E'; [reflexivity|].
    apply Z.leb_gt in E'. lia.
  - destruct (lb_1 >=? ub_2); intros H; discriminate H.
Qed.

(** The first half of the comparison duality: whenever [ULT] returns [True],
    so does [ULE]. *)
Lemma ULT_true_ULE_true (x y : StridedInterval) :
  ULT x y = Ok TrueResult -> ULE x y = Ok TrueResult.
Proof.
  unfold ULT, ULE.
  destruct (_unsigned_bounds x) as [bs1|e]; cbn [bind]; [|intros H; discriminate H].
  destruct (_unsigned_bounds y) as [bs2|e]; cbn [bind]; [|intros H; discriminate H].
  intros H.
  injection H as H.
  f_equal.
  apply aggregate_true.
  apply aggregate_true in H.
  apply forallb_verdicts.
  intros b1 b2 H1 H2.
  apply lt_verdict_le_verdict.
  apply (proj1 (forallb_verdicts _ lt_verdict bs1 bs2) H); assumption.
Qed.

(** ** Where the signed duality holds *)

Lemma ge_verdict_dual (lb_1 ub_1 lb_2 ub_2 : Z) :
  lb_1 <= ub_1 -> lb_2 <= ub_2 ->
  ge_verdict lb_1 ub_1 lb_2 ub_2 = BoolResult_not (lt_verdict lb_1 ub_1 lb_2 ub_2).
Proof.
  intros H1 H2.
  unfold ge_verdict, lt_verdict.
  destruct (lb_1 >=? ub_2) eqn:Ege; destruct (ub_1 <? lb_2) eqn:Elt; try reflexivity.
  rewrite Z.geb_leb in Ege.
  apply Z.leb_le in Ege. apply Z.ltb_lt in Elt. lia.
Qed.

Lemma aggregate_dual (ret : list BoolResult) :
  ret <> [] -> aggregate (map BoolResult_not ret) = BoolResult_not (aggregate ret).
Proof.
  intros Hne.
  unfold aggregate.
  assert (HT : forall l,
             forallb (fun r => BoolResult_identical r TrueResult) (map BoolResult_not l)
             = forallb (fun r => BoolResult_identical r FalseResult) l).
  { induction l as [|r l IH]; [reflexivity|].
    cbn [map forallb]. rewrite IH. destruct r; reflexivity. }
  assert (HF : forall l,
             forallb (fun r => BoolResult_identical r FalseResult) (map BoolResult_not l)
             = forallb (fun r => BoolResult_identical r TrueResult) l).
  { induction l as [|r l IH]; [reflexivity|].
    cbn [map forallb]. rewrite IH. destruct r; reflexivity. }
  rewrite HT, HF.
  destruct ret as [|r ret]; [contradiction|].
  cbn [forallb].
  destruct r; cbn [BoolResult_identical andb];
    destruct (forallb (fun r => BoolResult_identical r TrueResult) ret);
    destruct (forallb (fun r => BoolResult_identical r FalseResult) ret);
    reflexivity.
Qed.

Lemma verdicts_dual (bounds_1 bounds_2 : list (Z * Z)) :
  (forall b, In b bounds_1 -> fst b <= snd b) ->
  (forall b, In b bounds_2 -> fst b <= snd b) ->
  verdicts bounds_1 bounds_2 ge_verdict
  = map BoolResult_not (verdicts bounds_1 bounds_2 lt_verdict).
Proof.
  intros H1 H2.
  unfold verdicts.
  induction bounds_1 as [|b1 bs IH].
  - reflexivity.
  - cbn [flat_map].
    rewrite map_app, IH by (intros b Hb; apply H1; right; exact Hb).
    f_equal.
    rewrite map_map.
    apply map_ext_in.
    intros b2 Hb2.
    apply ge_verdict_dual.
    + apply H1. left. reflexivity.
    + apply H2. exact Hb2.
Qed.

(** The second half of the comparison duality holds wherever the signed
    bound pairs of both operands are ordered, as they are for every interval
    that does not straddle both poles. *)
Lemma SGE_negates_SLT_on_ordered_bounds (x y : StridedInterval)
  (bounds_1 bounds_2 : list (Z * Z)) :
  _signed_bounds x = Ok bounds_1 -> _signed_bounds y = Ok bounds_2 ->
  bounds_1 <> [] -> bounds_2 <> [] ->
  (forall b, In b bounds_1 -> fst b <= snd b) ->
  (forall b, In b bounds_2 -> fst b <= snd b) ->
  exists r, SLT x y = Ok r /\ SGE x y = Ok (BoolResult_not r).
Proof.
  intros Hx Hy Hn1 Hn2 H1 H2.
  unfold SLT, SGE.
  rewrite Hx, Hy. cbn [bind].
  eexists. split; [reflexivity|].
  rewrite verdicts_dual by assumption.
  rewrite aggregate_dual; [reflexivity|].
  unfold verdicts.
  destruct bounds_1 as [|b1 bs1]; [contradiction|].
  destruct bounds_2 as [|b2 bs2]; [contradiction|].
  discriminate.
Qed.

(** ** Modular case analysis *)

Lemma mod_cases (M x : Z) :
  0 < M -> - M <= x < 2 * M ->
  (x < 0 /\ x mod M = x + M)
  \/ (0 <= x < M /\ x mod M = x)
  \/ (M <= x /\ x mod M = x - M).
Proof.
  intros HM Hx.
  destruct (Z_lt_le_dec x 0) as [Hneg|Hnn].
  - left. split; [exact Hneg|].
    rewrite <- (Z_mod_plus_full x 1 M).
    rewrite Z.mul_1_l.
    apply Z.mod_small. lia.
  - destruct (Z_lt_le_dec x M) as [Hlt|Hge].
    + right; left. split; [lia|]. apply Z.mod_small. lia.
    + right; right. split; [exact Hge|].
      rewrite <- (Z_mod_plus_full x (-1) M).
      replace (x + -1 * M) with (x - M) by lia.
      apply Z.mod_small. lia.
Qed.

Lemma wrapped_cardinality_span (l u : Z) (w : positive) :
  0 <= l < 2 ^ w -> 0 <= u < 2 ^ w ->
  _wrapped_cardinality l u w = (u - l) mod 2 ^ w + 1.
Proof.
  intros Hl Hu.
  unfold _wrapped_cardinality.
  rewrite land_mask.
  pose proof (pow2_ge_2 w) as HM.
  set (M := 2 ^ Z.pos w) in *.
  destruct (l =? (u + 1) mod M) eqn:E;
    [apply Z.eqb_eq in E|apply Z.eqb_neq in E];
    destruct (mod_cases M (u + 1)) as [[? E1]|[[? E1]|[? E1]]]; try lia;
    destruct (mod_cases M (u - l)) as [[? E2]|[[? E2]|[? E2]]]; try lia;
    destruct (mod_cases M (u - l + 1)) as [[? E3]|[[? E3]|[? E3]]]; try lia.
Qed.

Lemma normalize_mk (w : positive) (s l u : Z) (un : bool) :
  0 <= l < 2 ^ w -> 0 <= u < 2 ^ w -> l = u \/ 0 <= s ->
  normalize (mkSI w s l u false un false) = Ok (normal_form w s l u un).
Proof.
  intros Hl Hu Hs.
  rewrite <- init_live.
  - unfold __init__.
    rewrite !land_mask, !Z.mod_small by assumption.
    reflexivity.
  - destruct Hs as [Hs|Hs]; [left; rewrite Hs; reflexivity|right; exact Hs].
Qed.

(** ** Complement *)

(** C2, as amended.  For every StridedInterval [x] (stride not negative):
    the complement of bottom is TOP; the complement of TOP is bottom;
    otherwise the complement is the constructor's normal form of lower bound
    [(ub + 1) mod 2^w], upper bound [(lb - 1) mod 2^w] and stride
    [gcd(old stride, wrapped_cardinality(ub + 1, lb - 1, w) - 1)], 0 when
    the result is a singleton and 1 when the old stride was 0: these very
    bounds and stride, except that a result with stride 1 that covers the
    whole circle (its lower bound follows its upper bound) is the canonical
    TOP [[0, 2^w - 1]].  The complement of [<4>1[0xE,0x2]] is
    [<4>1[0x3,0xD]]. *)
Theorem complement_cases (x : StridedInterval) :
  0 <= stride x ->
  complement x =
    Ok (if is_bottom x then TOP (bits x)
        else if is_top x then BOTTOM (bits x)
        else if (complement_lower_bound x
                 =? (complement_upper_bound x + 1) mod 2 ^ bits x)
                && (complement_stride x =? 1)
             then TOP (bits x)
             else mkSI (bits x) (complement_stride x) (complement_lower_bound x)
                       (complement_upper_bound x) false false false)
  /\ complement (mkSI 4 1 14 2 false false false)
     = Ok (mkSI 4 1 3 13 false false false).
Proof.
  intros Hs.
  split; [|reflexivity].
  unfold complement, is_empty.
  destruct (is_bottom x); [apply top_eq|].
  destruct (is_top x); [apply empty_eq|].
  unfold _modular_add, _modular_sub.
  fold (complement_lower_bound x) (complement_upper_bound x).
  unfold complement_stride.
  assert (Hl : 0 <= complement_lower_bound x < 2 ^ bits x) by apply mod_range.
  assert (Hu : 0 <= complement_upper_bound x < 2 ^ bits x) by apply mod_range.
  set (w := bits x) in *.
  set (l := complement_lower_bound x) in *.
  set (u := complement_upper_bound x) in *.
  assert (Hd : (_wrapped_cardinality l u w - 1 <? 0) = false).
  { apply Z.ltb_ge.
    rewrite wrapped_cardinality_span by assumption.
    pose proof (mod_range (u - l) w). lia. }
  rewrite Hd.
  unfold SI.
  rewrite init_live.
  - unfold normal_form.
    rewrite (Z.mod_small l), (Z.mod_small u) by assumption.
    reflexivity.
  - right.
    destruct (stride x =? 0); [lia|].
    apply Z.gcd_nonneg.
Qed.

(** ** Addition *)

Lemma overflow_cardinality_span (x : StridedInterval) :
  wf x ->
  (lower_bound x = 0 /\ upper_bound x = 0 /\ overflow_cardinality x = 0)
  \/ overflow_cardinality x
     = (upper_bound x - lower_bound x) mod 2 ^ bits x + 1.
Proof.
  intros [_ Hl Hu _ _].
  unfold overflow_cardinality, is_integer.
  destruct (lower_bound x =? upper_bound x) eqn:E1; cbn [andb].
  - destruct (lower_bound x =? 0) eqn:E2.
    + apply Z.eqb_eq in E1, E2. left. lia.
    + right. apply wrapped_cardinality_span; assumption.
  - right. apply wrapped_cardinality_span; assumption.
Qed.

Lemma add_normal_form (a b : StridedInterval) (un : bool) :
  wf a -> wf b -> bits b = bits a ->
  overflow_cardinality a + overflow_cardinality b <= 2 ^ bits a - 1 ->
  normal_form (bits a) (gcd (stride a) (stride b))
    (_modular_add (lower_bound a) (lower_bound b) (bits a))
    (_modular_add (upper_bound a) (upper_bound b) (bits a)) un
  = mkSI (bits a) (gcd (stride a) (stride b))
      (_modular_add (lower_bound a) (lower_bound b) (bits a))
      (_modular_add (upper_bound a) (upper_bound b) (bits a)) false un false.
Proof.
  intros Ha Hb Hbits Hov.
  pose proof (overflow_cardinality_span a Ha) as Hca.
  pose proof (overflow_cardinality_span b Hb) as Hcb.
  destruct Ha as [Hsa Hla Hua Hia _].
  destruct Hb as [Hsb Hlb Hub Hib _].
  rewrite Hbits in *.
  unfold normal_form, _modular_add.
  pose proof (pow2_ge_2 (bits a)) as HM.
  set (M := 2 ^ Z.pos (bits a)) in *.
  rewrite !Z.mod_mod by lia.
  set (la := lower_bound a) in *. set (ua := upper_bound a) in *.
  set (lb := lower_bound b) in *. set (ub := upper_bound b) in *.
  assert (Hspan :
    (ua - la) mod M + (ub - lb) mod M <= M - 1
    /\ ((ua - la) mod M + (ub - lb) mod M = M - 1 -> False)).
  { pose proof (Z.mod_pos_bound (ua - la) M ltac:(lia)).
    pose proof (Z.mod_pos_bound (ub - lb) M ltac:(lia)).
    destruct Hca as [(? & ? & Ea)|Ea]; destruct Hcb as [(? & ? & Eb)|Eb];
      rewrite ?Ea, ?Eb in Hov;
      try (replace (ua - la) with 0 in * by lia; rewrite Z.mod_0_l in * by lia);
      try (replace (ub - lb) with 0 in * by lia; rewrite Z.mod_0_l in * by lia);
      lia. }
  destruct Hspan as [Hsp1 Hsp2].
  assert (Hsing : (la + lb) mod M = (ua + ub) mod M -> la = ua /\ lb = ub).
  { destruct (mod_cases M (la + lb)) as [[? E1]|[[? E1]|[? E1]]]; try lia;
    destruct (mod_cases M (ua + ub)) as [[? E2]|[[? E2]|[? E2]]]; try lia;
    destruct (mod_cases M (ua - la)) as [[? E3]|[[? E3]|[? E3]]]; try lia;
    destruct (mod_cases M (ub - lb)) as [[? E4]|[[? E4]|[? E4]]]; try lia. }
  assert (Htop : (la + lb) mod M <> ((ua + ub) mod M + 1) mod M).
  { pose proof (Z.mod_pos_bound (ua + ub) M ltac:(lia)).
    destruct (mod_cases M (la + lb)) as [[? E1]|[[? E1]|[? E1]]]; try lia;
    destruct (mod_cases M (ua + ub)) as [[? E2]|[[? E2]|[? E2]]]; try lia;
    destruct (mod_cases M ((ua + ub) mod M + 1)) as [[? E5]|[[? E5]|[? E5]]]; try lia;
    destruct (mod_cases M (ua - la)) as [[? E3]|[[? E3]|[? E3]]]; try lia;
    destruct (mod_cases M (ub - lb)) as [[? E4]|[[? E4]|[? E4]]]; try lia. }
  apply Z.eqb_neq in Htop. rewrite Htop. cbn [andb].
  destruct ((la + lb) mod M =? (ua + ub) mod M) eqn:E; [|reflexivity].
  apply Z.eqb_eq in E. destruct (Hsing E) as [E1 E2].
  apply Hia in E1. apply Hib in E2.
  rewrite E1, E2. reflexivity.
Qed.

(** C6, as amended.  For every pair of equal-width StridedIntervals [a] and
    [b] of the data model, [add(a, b)] returns TOP of that width when the
    cardinalities of the operands sum to more than [max_int(w)], where an
    operand counts with the wrapped cardinality of its bounds but a singleton
    zero counts 0; otherwise it returns the StridedInterval with lower bound
    [madd(lb1, lb2)], upper bound [madd(ub1, ub2)] and stride
    [gcd(s1, s2)]. *)
Theorem add_cases (a b : StridedInterval) :
  wf a -> wf b -> bits b = bits a ->
  add a b =
    Ok (if overflow_cardinality a + overflow_cardinality b >? max_int (bits a)
        then TOP (bits a)
        else mkSI (bits a) (gcd (stride a) (stride b))
               (_modular_add (lower_bound a) (lower_bound b) (bits a))
               (_modular_add (upper_bound a) (upper_bound b) (bits a))
               false (uninitialized a || uninitialized b) false).
Proof.
  intros Ha Hb Hbits.
  unfold add, _wrappedoverflow_add.
  fold (overflow_cardinality a) (overflow_cardinality b).
  destruct (overflow_cardinality a + overflow_cardinality b >? max_int (bits a)) eqn:Hov.
  - apply top_eq.
  - rewrite Z.gtb_ltb in Hov. apply Z.ltb_ge in Hov.
    rewrite max_int_eq in Hov.
    rewrite Hbits, Pos.max_id.
    rewrite init_live by (right; apply Z.gcd_nonneg).
    cbn [bind].
    rewrite add_normal_form by assumption.
    rewrite normalize_mk.
    + apply f_equal. apply add_normal_form; assumption.
    + apply mod_range.
    + apply mod_range.
    + right. apply Z.gcd_nonneg.
Qed.

(** ** Zero extension *)

Lemma copy_unwrapped_bounds (x : StridedInterval) :
  0 <= stride x -> 0 <= lower_bound x -> lower_bound x <= upper_bound x ->
  upper_bound x < 2 ^ bits x ->
  exists c, copy x = Ok c
            /\ lower_bound c = lower_bound x /\ upper_bound c = upper_bound x.
Proof.
  intros Hs Hl Hlu Hu.
  unfold copy.
  pose proof (pow2_ge_2 (bits x)) as HM.
  destruct (is_bottom x).
  - rewrite init_bottom. cbn [bind].
    eexists; split; [reflexivity|]; fields.
    rewrite !Z.mod_small by lia. split; reflexivity.
  - rewrite init_live by (right; exact Hs). cbn [bind].
    eexists; split; [reflexivity|].
    unfold normal_form.
    rewrite (Z.mod_small (lower_bound x)), (Z.mod_small (upper_bound x)) by lia.
    destruct (mod_cases (2 ^ bits x) (upper_bound x + 1)) as [[? E]|[[? E]|[? E]]];
      try lia; rewrite E.
    + destruct (lower_bound x =? upper_bound x + 1) eqn:E1;
        [apply Z.eqb_eq in E1; lia|].
      cbn [andb]; fields. split; reflexivity.
    + destruct (lower_bound x =? upper_bound x + 1 - 2 ^ bits x) eqn:E1; cbn [andb].
      * apply Z.eqb_eq in E1.
        destruct (_ =? 1); fields; split; lia.
      * fields. split; reflexivity.
Qed.

Lemma eval_unwrapped (x : StridedInterval) (n : Z) :
  0 <= stride x -> 0 <= lower_bound x -> lower_bound x <= upper_bound x ->
  upper_bound x < 2 ^ bits x ->
  eval x n false =
    Ok (if is_empty x then []
        else if (stride x =? 0) && (n >? 0) then [lower_bound x]
        else eval_walk (Z.to_nat n) (lower_bound x) (upper_bound x) (stride x) []).
Proof.
  intros Hs Hl Hlu Hu.
  unfold eval.
  destruct (is_empty x); [reflexivity|].
  destruct ((stride x =? 0) && (n >? 0)); [reflexivity|].
  unfold _unsigned_bounds, _ssplit.
  destruct (upper_bound x <? lower_bound x) eqn:E; [apply Z.ltb_lt in E; lia|].
  destruct (copy_unwrapped_bounds x Hs Hl Hlu Hu) as (c & Hc & Hcl & Hcu).
  rewrite Hc. cbn [bind fold_left fst snd List.length].
  rewrite Hcl, Hcu, Z.sub_0_r.
  reflexivity.
Qed.

Lemma copy_wf_unwrapped (x : StridedInterval) :
  wf x -> lower_bound x <= upper_bound x -> copy x = Ok x.
Proof.
  intros [Hs Hl Hu Hsing Hrev] Hlu.
  destruct x as [w s l u r un b]; fields.
  subst r.
  unfold copy; fields.
  pose proof (pow2_ge_2 w) as HM.
  destruct b.
  - rewrite init_bottom. cbn [bind]; fields.
    rewrite !Z.mod_small by lia. reflexivity.
  - rewrite init_live by (right; exact Hs). cbn [bind].
    unfold normal_form.
    rewrite (Z.mod_small l), (Z.mod_small u) by lia.
    destruct (l =? u) eqn:E1.
    + apply Z.eqb_eq in E1.
      rewrite (proj1 Hsing E1).
      rewrite andb_false_r; fields. reflexivity.
    + destruct (l =? (u + 1) mod 2 ^ w) eqn:E2; cbn [andb].
      * apply Z.eqb_eq in E2.
        destruct (s =? 1) eqn:E3; fields; [|reflexivity].
        apply Z.eqb_eq in E3. subst s.
        destruct (mod_cases (2 ^ w) (u + 1)) as [[? E]|[[? E]|[? E]]]; try lia.
        assert (Hl0 : l = 0) by lia.
        assert (Hu1 : 2 ^ w - 1 = u) by lia.
        rewrite Hu1, Hl0. reflexivity.
      * fields. reflexivity.
Qed.

(** The part of C5 that the code keeps: [zero_extend] is exact on every
    interval that does not wrap ([lb <= ub]). *)
Lemma zero_extend_exact_unwrapped (x : StridedInterval) (new_length : positive) (n : Z) :
  wf x -> lower_bound x <= upper_bound x -> (bits x < new_length)%positive ->
  exists r, zero_extend x new_length = Ok r
            /\ bits r = new_length
            /\ eval r n false = eval x n false.
Proof.
  intros Hwf Hlu Hw.
  unfold zero_extend.
  rewrite copy_wf_unwrapped by assumption.
  cbn [bind].
  eexists; split; [reflexivity|].
  split; [reflexivity|].
  destruct Hwf as [Hs Hl Hu _ _].
  assert (Hpow : 2 ^ bits x <= 2 ^ new_length).
  { apply Z.pow_le_mono_r; lia. }
  rewrite (eval_unwrapped x) by lia.
  rewrite eval_unwrapped; fields; try lia.
  reflexivity.
Qed.

(** ** The scenarios and the places where code and specification part *)

(** C1.  The join is not an upper bound of its operands.  For the
    well-formed 8-bit intervals [x = <8>1[2,3]] and [y = <8>1[3,0]] (which
    wraps), [union(x, y)] returns [y] itself: [_interval_extend] answers
    [[a, d]] although [x] starts before [y], so 2 is lost, and [x] is not
    wrapped-lte the result. *)
Theorem union_loses_operand :
  wf (interval 8 1 2 3) /\ wf (interval 8 1 3 0)
  /\ union (interval 8 1 2 3) (interval 8 1 3 0) = Ok (interval 8 1 3 0)
  /\ _wrapped_lte (interval 8 1 2 3) (interval 8 1 3 0) = false
  /\ _wrapped_member (interval 8 1 2 3) 2 = true
  /\ _wrapped_member (interval 8 1 3 0) 2 = false.
Proof.
  split; [wf_by_computation|].
  split; [wf_by_computation|].
  repeat split; vm_compute; reflexivity.
Qed.

(** [<8>2[2,1]] is an interval that a public operation returns. *)
Lemma rshift_returns_full_circle :
  wf (interval 8 5 4 3)
  /\ rshift (interval 8 5 4 3) (ShiftInt 1) false = Ok (interval 8 2 2 1).
Proof.
  split; [wf_by_computation|vm_compute; reflexivity].
Qed.

(** C2 as stated fails on [<8>2[2,1]]: its complement is the canonical TOP
    [<8>1[0,255]], whose lower bound is not [(1 + 1) mod 256]. *)
Lemma complement_as_specified_counterexample :
  ~ complement_as_specified (interval 8 2 2 1).
Proof.
  unfold complement_as_specified.
  vm_compute.
  intros (r & Hr & Hl & _).
  injection Hr as Hr. subst r.
  discriminate Hl.
Qed.

Lemma complement_cases_witness :
  0 <= stride (interval 4 1 14 2)
  /\ complement (interval 4 1 14 2) = Ok (interval 4 1 3 13).
Proof.
  split; [cbn; lia|].
  refine (eq_trans (proj1 (complement_cases (interval 4 1 14 2) _)) _).
  - cbn; lia.
  - vm_compute; reflexivity.
Defined.

(** C3.  Public operations return intervals that break the stride
    discipline, on operands that keep it.  [union] maps [<8>2[0,4]] and
    [<8>2[7,9]] to [<8>2[0,9]]: [_least_upper_bound] overwrites the stride that
    [_interval_extend] computed with the gcd of the operand strides alone, and
    9 - 0 is not a multiple of 2.  [rshift] maps [<8>5[1,6]], the set
    [{1, 6}], to [<8>2[0,3]], and the value 3 of [6 >> 1] is not among the
    values [eval] lists.  [widen] maps [<8>3[3,9]] and [<8>3[0,12]] to
    [<8>3[130,255]]: its lower bound is rounded from the signed minimum and
    its upper bound from the unsigned maximum. *)
Theorem public_operations_break_stride_discipline :
  (stride_discipline (interval 8 2 0 4) /\ stride_discipline (interval 8 2 7 9)
   /\ union (interval 8 2 0 4) (interval 8 2 7 9) = Ok (interval 8 2 0 9)
   /\ ~ stride_discipline (interval 8 2 0 9))
  /\ (stride_discipline (interval 8 5 1 6)
      /\ rshift (interval 8 5 1 6) (ShiftInt 1) false = Ok (interval 8 2 0 3)
      /\ ~ stride_discipline (interval 8 2 0 3)
      /\ concretize (interval 8 2 0 3) = Ok [0; 2])
  /\ (stride_discipline (interval 8 3 3 9) /\ stride_discipline (interval 8 3 0 12)
      /\ widen (interval 8 3 3 9) (interval 8 3 0 12) = Ok (interval 8 3 130 255)
      /\ ~ stride_discipline (interval 8 3 130 255)).
Proof.
  repeat split;
    try (intros _ _; vm_compute; reflexivity);
    try (vm_compute; reflexivity);
    intros H; specialize (H eq_refl eq_refl); vm_compute in H; discriminate H.
Qed.

Lemma bitwise_xor_raises_NameError_witness :
  wf (interval 8 0 3 3) /\ wf (interval 8 0 5 5)
  /\ bitwise_xor (interval 8 0 3 3) (interval 8 0 5 5) = Raise (NameError "mew_stride").
Proof.
  assert (H3 : wf (interval 8 0 3 3)) by (wf_by_computation).
  assert (H5 : wf (interval 8 0 5 5)) by (wf_by_computation).
  split; [exact H3|].
  split; [exact H5|].
  exact (bitwise_xor_raises_NameError (interval 8 0 3 3) (interval 8 0 5 5) H3 H5 eq_refl).
Defined.

(** C5.  [zero_extend] is not exact on a wrapped interval.  [<4>1[0xE,0x2]]
    is the set [{14, 15, 0, 1, 2}]; [zero_extend] to 8 bits copies the bounds
    under the wider width and returns [<8>1[0xE,0x2]], which runs from 14 up to
    255 before it reaches 0: 16 is among its values.  [<4>7[0xE,0x5]] is the
    set [{14, 5}]; its extension [<8>7[0xE,0x5]] no longer holds 5. *)
Theorem zero_extend_wrapped_not_exact :
  wf (interval 4 1 14 2)
  /\ zero_extend (interval 4 1 14 2) 8 = Ok (interval 8 1 14 2)
  /\ concretize (interval 4 1 14 2) = Ok [14; 15; 0; 1; 2]
  /\ eval (interval 8 1 14 2) 6 false = Ok [14; 15; 16; 17; 18; 19]
  /\ concretize (interval 8 1 14 2) <> concretize (interval 4 1 14 2)
  /\ wf (interval 4 7 14 5) /\ stride_discipline (interval 4 7 14 5)
  /\ zero_extend (interval 4 7 14 5) 8 = Ok (interval 8 7 14 5)
  /\ concretize (interval 4 7 14 5) = Ok [14; 5]
  /\ (exists values, concretize (interval 8 7 14 5) = Ok values /\ ~ In 5 values).
Proof.
  split; [wf_by_computation|].
  split; [vm_compute; reflexivity|].
  split; [vm_compute; reflexivity|].
  split; [vm_compute; reflexivity|].
  split; [vm_compute; intros H; discriminate H|].
  split; [wf_by_computation|].
  split; [intros _ _; vm_compute; reflexivity|].
  split; [vm_compute; reflexivity|].
  split; [vm_compute; reflexivity|].
  eexists. split; [vm_compute; reflexivity|].
  intros H.
  repeat (destruct H as [H|H]; [discriminate H|]).
  exact H.
Qed.

(** C6 as stated fails on [a = <8>0[0,0]] and [b = <8>1[0,254]]: the wrapped
    cardinalities are 1 and 255 and sum to more than [max_int(8) = 255], yet
    [add] returns [<8>1[0,254]], not TOP, because it counts the singleton
    zero as 0. *)
Lemma add_as_specified_counterexample :
  ~ add_as_specified (interval 8 0 0 0) (interval 8 1 0 254).
Proof.
  unfold add_as_specified.
  vm_compute.
  intros H. discriminate H.
Qed.

Lemma add_cases_witness :
  wf (interval 8 0 0 0) /\ wf (interval 8 1 0 254)
  /\ add (interval 8 0 0 0) (interval 8 1 0 254) = Ok (interval 8 1 0 254).
Proof.
  assert (Ha : wf (interval 8 0 0 0)) by (wf_by_computation).
  assert (Hb : wf (interval 8 1 0 254)) by (wf_by_computation).
  split; [exact Ha|].
  split; [exact Hb|].
  refine (eq_trans (add_cases (interval 8 0 0 0) (interval 8 1 0 254) Ha Hb eq_refl) _).
  vm_compute; reflexivity.
Defined.

(** C7 as stated fails: the stride of [x.add(x)] for [x = <8>2[0x02,0x0a]] is
    not 4. *)
Lemma add_S1_counterexample :
  add (interval 8 2 2 10) (interval 8 2 2 10) <> Ok (interval 8 4 4 20).
Proof.
  vm_compute. intros H. discriminate H.
Qed.

(** C7, as amended.  For the 8-bit StridedInterval [x] with stride 2 and
    bounds [[0x02, 0x0a]], [x.add(x)] returns the 8-bit StridedInterval with
    bounds [[0x04, 0x14]] and stride 2, the gcd of the operand strides. *)
Theorem add_S1 :
  add (interval 8 2 2 10) (interval 8 2 2 10) = Ok (interval 8 2 4 20).
Proof.
  vm_compute; reflexivity.
Qed.

(** C8.  [SLT] is not the negation of [SGE].  For [x = <8>0[0x7f,0x7f]] and
    [y = <8>1[0xfa,0xc8]], which straddles both poles, [_signed_bounds(y)]
    holds the pair [(250, 127)], a piece that is not in the left hemisphere
    and whose bounds are not ordered; [SGE(x, y)] is [True] and [SLT(x, y)]
    is [Maybe].  On the same operands [ULT] and [ULE] agree. *)
Theorem SLT_is_not_the_negation_of_SGE :
  wf (interval 8 0 127 127) /\ wf (interval 8 1 250 200)
  /\ _signed_bounds (interval 8 1 250 200) = Ok [(250, 127); (-128, -56)]
  /\ SGE (interval 8 0 127 127) (interval 8 1 250 200) = Ok TrueResult
  /\ SLT (interval 8 0 127 127) (interval 8 1 250 200) = Ok MaybeResult
  /\ BoolResult_not TrueResult <> MaybeResult.
Proof.
  split; [wf_by_computation|].
  split; [wf_by_computation|].
  split; [vm_compute; reflexivity|].
  split; [vm_compute; reflexivity|].
  split; [vm_compute; reflexivity|].
  intros H; discriminate H.
Qed.

(** The data model is needed in C9: on a wrapped interval with stride 0, such
    as [<8>0[13,4]], [_ssplit] divides by the stride. *)
Remark division_needs_the_data_model :
  udiv (fun l => l) (interval 8 0 13 4) (interval 8 0 0 0) = Raise ZeroDivisionError
  /\ sdiv (fun l => l) (interval 8 0 13 4) (interval 8 0 0 0) = Raise ZeroDivisionError.
Proof.
  split; vm_compute; reflexivity.
Qed.

Lemma python_set_identity : python_set (fun l => l).
Proof.
  split.
  - intros l H. exact H.
  - intros l x H. exact H.
Defined.

Lemma division_by_singleton_zero_witness :
  python_set (fun l => l)
  /\ wf (interval 32 4 16 32) /\ wf (interval 32 0 0 0)
  /\ udiv (fun l => l) (interval 32 4 16 32) (interval 32 0 0 0) = empty 32
  /\ sdiv (fun l => l) (interval 32 4 16 32) (interval 32 0 0 0) = empty 32.
Proof.
  assert (Ha : wf (interval 32 4 16 32)) by (wf_by_computation).
  assert (Hb : wf (interval 32 0 0 0)) by (wf_by_computation).
  split; [exact python_set_identity|].
  split; [exact Ha|].
  split; [exact Hb|].
  exact (division_by_singleton_zero (fun l => l) (interval 32 4 16 32)
           (interval 32 0 0 0) python_set_identity Ha Hb eq_refl eq_refl eq_refl eq_refl).
Defined.

(** ** Further properties of the code *)

(** *** The constructor *)

Lemma init_defaults (w : positive) (s l u : option Z) (un b : bool) :
  __init__ w s l u un b
  = __init__ w (Some (match s with Some s => s | None => 1 end))
               (Some (match l with Some l => l | None => 0 end))
               (Some (match u with Some u => u | None => 2 ^ w - 1 end)) un b.
Proof.
  reflexivity.
Qed.

Lemma init_raise (w : positive) (s l u : Z) (un : bool) :
  l mod 2 ^ w <> u mod 2 ^ w -> s < 0 ->
  __init__ w (Some s) (Some l) (Some u) un false
  = Raise (Exception "Why does this happen?").
Proof.
  intros Hlu Hs.
  unfold __init__, normalize, is_empty, _normalize_top, _modular_add.
  rewrite !land_mask.
  pose proof (mod_range l w) as Hl.
  set (l' := l mod 2 ^ Z.pos w) in *.
  set (u' := u mod 2 ^ Z.pos w) in *.
  fields. rewrite andb_false_r. fields.
  destruct (l' =? u') eqn:Elu; [apply Z.eqb_eq in Elu; contradiction|].
  fields.
  destruct (l' <? 0) eqn:Eneg; [apply Z.ltb_lt in Eneg; lia|]; fields.
  destruct (s =? 1) eqn:Es1; [apply Z.eqb_eq in Es1; lia|].
  rewrite andb_false_r. fields.
  destruct (s <? 0) eqn:Es; [reflexivity|].
  apply Z.ltb_ge in Es. lia.
Qed.

Lemma normal_form_invariants (w : positive) (s l u : Z) (un : bool) :
  l mod 2 ^ w = u mod 2 ^ w \/ 0 <= s ->
  let x := normal_form w s l u un in
  bits x = w /\ reversed x = false /\ is_bottom x = false
  /\ 0 <= stride x
  /\ 0 <= lower_bound x < 2 ^ w /\ 0 <= upper_bound x < 2 ^ w
  /\ (lower_bound x = upper_bound x -> stride x = 0)
  /\ (is_top x = true -> lower_bound x = 0 /\ upper_bound x = 2 ^ w - 1).
Proof.
  intros Hs x. subst x.
  unfold normal_form.
  pose proof (mod_range l w) as Hl.
  pose proof (mod_range u w) as Hu.
  pose proof (pow2_ge_2 w) as HM.
  set (l' := l mod 2 ^ Z.pos w) in *.
  set (u' := u mod 2 ^ Z.pos w) in *.
  destruct ((l' =? (u' + 1) mod 2 ^ w) && ((if l' =? u' then 0 else s) =? 1)) eqn:Etop.
  - fields. repeat split; lia.
  - fields.
    split; [reflexivity|]. split; [reflexivity|]. split; [reflexivity|].
    split.
    { destruct (l' =? u') eqn:E; [lia|].
      apply Z.eqb_neq in E. destruct Hs as [Hs|Hs]; [contradiction|exact Hs]. }
    split; [exact Hl|]. split; [exact Hu|].
    split.
    { intros E. apply Z.eqb_eq in E. rewrite E. reflexivity. }
    intros Ht. unfold is_top, _modular_add in Ht; fields.
    rewrite andb_comm in Ht. rewrite Ht in Etop. discriminate Etop.
Qed.

(** X1.  Whatever integers the constructor is given, a non-bottom
    StridedInterval it returns satisfies the class invariants: the width is
    the one asked for, the [reversed] flag is clear, the stride is not
    negative, both bounds lie in [[0, 2^bits)], a singleton has stride 0, and
    an interval for which [is_top] holds is the canonical TOP
    [[0, 2^bits - 1]]. *)
Theorem constructor_invariants (w : positive) (s l u : option Z) (un : bool)
  (x : StridedInterval) :
  __init__ w s l u un false = Ok x ->
  bits x = w /\ reversed x = false /\ is_bottom x = false
  /\ 0 <= stride x
  /\ 0 <= lower_bound x < 2 ^ w /\ 0 <= upper_bound x < 2 ^ w
  /\ (lower_bound x = upper_bound x -> stride x = 0)
  /\ (is_top x = true -> lower_bound x = 0 /\ upper_bound x = 2 ^ w - 1).
Proof.
  rewrite init_defaults.
  set (s0 := match s with Some s => s | None => 1 end).
  set (l0 := match l with Some l => l | None => 0 end).
  set (u0 := match u with Some u => u | None => 2 ^ w - 1 end).
  intros H.
  destruct (Z.eq_dec (l0 mod 2 ^ w) (u0 mod 2 ^ w)) as [E|E].
  - rewrite init_live in H by (left; exact E).
    injection H as H. subst x.
    apply normal_form_invariants. left; exact E.
  - destruct (Z_lt_le_dec s0 0) as [Hneg|Hpos].
    + rewrite init_raise in H by assumption. discriminate H.
    + rewrite init_live in H by (right; exact Hpos).
      injection H as H. subst x.
      apply normal_form_invariants. right; exact Hpos.
Qed.

Lemma constructor_invariants_witness :
  __init__ 8 (Some 3) (Some (-1)) (Some 300) false false = Ok (interval 8 3 255 44)
  /\ 0 <= stride (interval 8 3 255 44)
  /\ 0 <= lower_bound (interval 8 3 255 44) < 2 ^ 8.
Proof.
  assert (H : __init__ 8 (Some 3) (Some (-1)) (Some 300) false false
              = Ok (interval 8 3 255 44)) by (vm_compute; reflexivity).
  split; [exact H|].
  pose proof (constructor_invariants 8 (Some 3) (Some (-1)) (Some 300) false _ H)
    as (_ & _ & _ & Hs & Hl & _).
  split; [exact Hs|exact Hl].
Defined.

(** X2.  The constructor raises in one case only, with the message
    ["Why does this happen?"]: the interval is not bottom, the stride given is
    negative and the two bounds differ modulo [2^bits].  A negative stride is
    accepted for a bottom interval and for a singleton. *)
Theorem constructor_raises_iff (w : positive) (s l u : Z) (un bottom : bool) :
  (exists e, __init__ w (Some s) (Some l) (Some u) un bottom = Raise e)
  <-> (bottom = false /\ s < 0 /\ l mod 2 ^ w <> u mod 2 ^ w).
Proof.
  split.
  - intros [e H].
    destruct bottom; [rewrite init_bottom in H; discriminate H|].
    split; [reflexivity|].
    destruct (Z.eq_dec (l mod 2 ^ w) (u mod 2 ^ w)) as [E|E].
    + rewrite init_live in H by (left; exact E). discriminate H.
    + destruct (Z_lt_le_dec s 0) as [Hneg|Hpos].
      * split; assumption.
      * rewrite init_live in H by (right; exact Hpos). discriminate H.
  - intros (Hb & Hs & Hlu). subst bottom.
    eexists. apply init_raise; assumption.
Qed.

Lemma normal_form_fixed (w : positive) (s l u : Z) (un : bool) :
  l mod 2 ^ w = u mod 2 ^ w \/ 0 <= s ->
  normalize (normal_form w s l u un) = Ok (normal_form w s l u un).
Proof.
  intros Hs.
  pose proof (normal_form_invariants w s l u un Hs) as H.
  cbv zeta in H.
  destruct H as (Hb & Hr & Hbot & Hst & Hl & Hu & Hsing & Htop).
  destruct (normal_form w s l u un) as [w' s' l' u' r' un' b'] eqn:E; fields.
  subst w' r' b'.
  rewrite normalize_mk by (auto; right; exact Hst).
  f_equal.
  unfold normal_form.
  rewrite (Z.mod_small l'), (Z.mod_small u') by assumption.
  destruct (l' =? u') eqn:Elu.
  - apply Z.eqb_eq in Elu. rewrite (Hsing Elu).
    rewrite andb_false_r. reflexivity.
  - destruct ((l' =? (u' + 1) mod 2 ^ w) && (s' =? 1)) eqn:Et; [|reflexivity].
    unfold is_top, _modular_add in Htop; fields.
    rewrite andb_comm in Et.
    destruct (Htop Et) as [H0 H1].
    apply andb_prop in Et. destruct Et as [Es _].
    apply Z.eqb_eq in Es.
    subst. reflexivity.
Qed.

(** X3.  [normalize] changes nothing on an interval that the constructor
    returned: the [.normalize()] that [add], [sub], [mul] and the bitwise
    operations chain after the constructor is the identity. *)
Theorem normalize_after_constructor (w : positive) (s l u : option Z) (un b : bool)
  (x : StridedInterval) :
  __init__ w s l u un b = Ok x -> normalize x = Ok x.
Proof.
  rewrite init_defaults.
  set (s0 := match s with Some s => s | None => 1 end).
  set (l0 := match l with Some l => l | None => 0 end).
  set (u0 := match u with Some u => u | None => 2 ^ w - 1 end).
  intros H.
  destruct b.
  - rewrite init_bottom in H. injection H as H. subst x.
    unfold normalize, is_empty; fields.
    rewrite andb_false_r; fields. reflexivity.
  - destruct (Z.eq_dec (l0 mod 2 ^ w) (u0 mod 2 ^ w)) as [E|E].
    + rewrite init_live in H by (left; exact E).
      injection H as H. subst x.
      apply normal_form_fixed. left; exact E.
    + destruct (Z_lt_le_dec s0 0) as [Hneg|Hpos].
      * rewrite init_raise in H by assumption. discriminate H.
      * rewrite init_live in H by (right; exact Hpos).
        injection H as H. subst x.
        apply normal_form_fixed. right; exact Hpos.
Qed.

Lemma normalize_after_constructor_witness :
  __init__ 8 (Some 1) (Some 6) (Some 5) false false = Ok (interval 8 1 0 255)
  /\ normalize (interval 8 1 0 255) = Ok (interval 8 1 0 255).
Proof.
  assert (H : __init__ 8 (Some 1) (Some 6) (Some 5) false false
              = Ok (interval 8 1 0 255)) by (vm_compute; reflexivity).
  split; [exact H|].
  exact (normalize_after_constructor 8 (Some 1) (Some 6) (Some 5) false false _ H).
Defined.

(** *** Membership and the poset order *)

Lemma lex_lte_mod (x y : Z) (w : positive) :
  _lex_lte x y w = (x mod 2 ^ w <=? y mod 2 ^ w).
Proof.
  unfold _lex_lte. rewrite !land_mask. reflexivity.
Qed.

(** X4.  Membership looks at the bounds only, not at the stride nor at the
    bottom flag: for bounds stored in [[0, 2^bits)], [v] is a member when
    [v mod 2^bits] lies between the bounds, if the interval does not wrap, and
    when it lies above the lower bound or below the upper bound, if it
    wraps. *)
Theorem wrapped_member_spec (x : StridedInterval) (v : Z) :
  0 <= lower_bound x < 2 ^ bits x -> 0 <= upper_bound x < 2 ^ bits x ->
  _wrapped_member x v =
    if lower_bound x <=? upper_bound x
    then (lower_bound x <=? v mod 2 ^ bits x) && (v mod 2 ^ bits x <=? upper_bound x)
    else (lower_bound x <=? v mod 2 ^ bits x) || (v mod 2 ^ bits x <=? upper_bound x).
Proof.
  intros Hl Hu.
  unfold _wrapped_member.
  rewrite lex_lte_mod.
  pose proof (pow2_ge_2 (bits x)) as HM.
  pose proof (mod_range v (bits x)) as Hv.
  rewrite <- (Zminus_mod_idemp_l v).
  set (M := 2 ^ Z.pos (bits x)) in *.
  set (v' := v mod M) in *.
  destruct (mod_cases M (v' - lower_bound x)) as [[? E1]|[[? E1]|[? E1]]]; try lia;
    destruct (mod_cases M (upper_bound x - lower_bound x)) as [[? E2]|[[? E2]|[? E2]]];
    try lia; rewrite E1, E2;
    destruct (lower_bound x <=? upper_bound x) eqn:C1;
    destruct (lower_bound x <=? v') eqn:C2;
    destruct (v' <=? upper_bound x) eqn:C3;
    cbn [andb orb];
    try (apply Z.leb_le in C1); try (apply Z.leb_gt in C1);
    try (apply Z.leb_le in C2); try (apply Z.leb_gt in C2);
    try (apply Z.leb_le in C3); try (apply Z.leb_gt in C3);
    try lia;
    try (apply Z.leb_le; lia); try (apply Z.leb_gt; lia).
Qed.

Lemma wrapped_member_spec_witness :
  0 <= lower_bound (interval 8 1 250 3) < 2 ^ 8
  /\ 0 <= upper_bound (interval 8 1 250 3) < 2 ^ 8
  /\ _wrapped_member (interval 8 1 250 3) 256 = true.
Proof.
  assert (Hl : 0 <= lower_bound (interval 8 1 250 3) < 2 ^ bits (interval 8 1 250 3))
    by (split; [discriminate|reflexivity]).
  assert (Hu : 0 <= upper_bound (interval 8 1 250 3) < 2 ^ bits (interval 8 1 250 3))
    by (split; [discriminate|reflexivity]).
  split; [exact Hl|]. split; [exact Hu|].
  exact (eq_trans (wrapped_member_spec (interval 8 1 250 3) 256 Hl Hu) eq_refl).
Defined.

Lemma wrapped_member_lower (x : StridedInterval) :
  _wrapped_member x (lower_bound x) = true.
Proof.
  unfold _wrapped_member.
  rewrite lex_lte_mod, Z.sub_diag.
  pose proof (pow2_ge_2 (bits x)).
  rewrite Z.mod_0_l by lia.
  apply Z.leb_le. apply mod_range.
Qed.

Lemma wrapped_member_upper (x : StridedInterval) :
  _wrapped_member x (upper_bound x) = true.
Proof.
  unfold _wrapped_member, _lex_lte.
  apply Z.leb_refl.
Qed.

(** X5.  The poset order is reflexive on every StridedInterval, bottom and
    TOP included. *)
Theorem wrapped_lte_reflexive (x : StridedInterval) : _wrapped_lte x x = true.
Proof.
  unfold _wrapped_lte.
  destruct (is_empty x); [reflexivity|].
  destruct (is_top x); [reflexivity|].
  cbn [andb].
  rewrite wrapped_member_lower, wrapped_member_upper.
  rewrite !Z.eqb_refl.
  reflexivity.
Qed.

(** X6.  The extremes of the poset order.  A bottom interval is below every
    interval and every interval is below TOP; a non-bottom TOP is below the
    intervals for which [is_top] holds and no other.  Because [is_top] holds
    of the interval that [empty(w)] returns, every interval is also below
    the empty one. *)
Theorem wrapped_lte_extremes (w : positive) (x y : StridedInterval) :
  (is_bottom x = true -> _wrapped_lte x y = true)
  /\ _wrapped_lte x (TOP w) = true
  /\ _wrapped_lte (TOP w) y = is_top y
  /\ (exists e, empty w = Ok e /\ _wrapped_lte x e = true).
Proof.
  split; [apply wrapped_lte_bottom_l|].
  assert (Hany : forall t, is_top t = true -> _wrapped_lte x t = true).
  { intros t Ht. unfold _wrapped_lte. rewrite Ht.
    destruct (is_empty x); [reflexivity|].
    destruct (is_top x); reflexivity. }
  split; [apply Hany; apply is_top_TOP|].
  split.
  - unfold _wrapped_lte.
    rewrite is_top_TOP.
    change (is_empty (TOP w)) with false.
    destruct (is_top y); reflexivity.
  - exists (BOTTOM w).
    split; [apply empty_eq|].
    apply Hany. apply is_top_BOTTOM.
Qed.

Lemma is_top_member (b : StridedInterval) (v : Z) :
  is_top b = true -> _wrapped_member b v = true.
Proof.
  unfold is_top, _modular_add, _wrapped_member.
  intros H. apply andb_prop in H. destruct H as [_ H].
  apply Z.eqb_eq in H.
  rewrite lex_lte_mod.
  pose proof (pow2_ge_2 (bits b)) as HM.
  assert (E : (upper_bound b - lower_bound b) mod 2 ^ bits b = 2 ^ bits b - 1).
  { rewrite H, Zminus_mod_idemp_r.
    replace (upper_bound b - (upper_bound b + 1)) with (-1) by lia.
    destruct (mod_cases (2 ^ bits b) (-1)) as [[? E]|[[? E]|[? E]]]; lia. }
  rewrite E.
  apply Z.leb_le.
  pose proof (mod_range (v - lower_bound b) (bits b)).
  lia.
Qed.

Lemma wrapped_lte_member_incl (a b : StridedInterval) (v : Z) :
  bits a = bits b -> is_bottom a = false ->
  _wrapped_lte a b = true -> _wrapped_member a v = true ->
  _wrapped_member b v = true.
Proof.
  intros Hbits Hbot Hlte Hv.
  unfold _wrapped_lte, is_empty in Hlte.
  rewrite Hbot in Hlte.
  destruct (is_top b) eqn:Htb; [apply is_top_member; exact Htb|].
  destruct (is_top a) eqn:Hta; cbn [andb] in Hlte; [discriminate Hlte|].
  destruct (_wrapped_member b (lower_bound a) && _wrapped_member b (upper_bound a))
    eqn:Hends; [|discriminate Hlte].
  apply andb_prop in Hends. destruct Hends as [Hp Hq].
  assert (Hcase :
    (lower_bound b = lower_bound a /\ upper_bound b = upper_bound a)
    \/ _wrapped_member a (lower_bound b) = false
    \/ _wrapped_member a (upper_bound b) = false).
  { destruct ((lower_bound b =? lower_bound a) && (upper_bound b =? upper_bound a)) eqn:E.
    - left. apply andb_prop in E. destruct E as [E1 E2].
      apply Z.eqb_eq in E1, E2. split; assumption.
    - cbn [orb] in Hlte.
      destruct (_wrapped_member a (lower_bound b)); [|right; left; reflexivity].
      destruct (_wrapped_member a (upper_bound b)); [discriminate Hlte|].
      right; right; reflexivity. }
  clear Hlte Hta Htb Hbot.
  unfold _wrapped_member in *.
  rewrite !lex_lte_mod in *.
  rewrite <- Hbits in *.
  pose proof (pow2_ge_2 (bits a)) as HM.
  set (M := 2 ^ Z.pos (bits a)) in *.
  set (la := lower_bound a) in *. set (ua := upper_bound a) in *.
  set (lb := lower_bound b) in *. set (ub := upper_bound b) in *.
  pose proof (Z.mod_pos_bound (la - lb) M ltac:(lia)) as Rp.
  pose proof (Z.mod_pos_bound (ua - lb) M ltac:(lia)) as Rq.
  pose proof (Z.mod_pos_bound (ub - lb) M ltac:(lia)) as RL.
  pose proof (Z.mod_pos_bound (v - la) M ltac:(lia)) as Rx.
  assert (EA : (ua - la) mod M = ((ua - lb) mod M - (la - lb) mod M) mod M).
  { rewrite <- Zminus_mod. f_equal. lia. }
  assert (Ey : (v - lb) mod M = ((v - la) mod M + (la - lb) mod M) mod M).
  { rewrite <- Zplus_mod. f_equal. lia. }
  assert (Er : (lb - la) mod M = (0 - (la - lb) mod M) mod M).
  { rewrite Zminus_mod_idemp_r. f_equal. lia. }
  assert (Et : (ub - la) mod M = ((ub - lb) mod M - (la - lb) mod M) mod M).
  { rewrite <- Zminus_mod. f_equal. lia. }
  rewrite EA in *. rewrite Ey. rewrite Er, Et in Hcase.
  set (p := (la - lb) mod M) in *.
  set (q := (ua - lb) mod M) in *.
  set (L := (ub - lb) mod M) in *.
  set (x := (v - la) mod M) in *.
  apply Z.leb_le in Hp, Hq, Hv.
  apply Z.leb_le.
  destruct (mod_cases M (q - p)) as [[? E1]|[[? E1]|[? E1]]]; try lia;
    destruct (mod_cases M (x + p)) as [[? E2]|[[? E2]|[? E2]]]; try lia;
    rewrite E1 in *; rewrite E2;
    destruct Hcase as [[Hc1 Hc2]|[Hc|Hc]];
    try (apply Z.leb_gt in Hc);
    try (destruct (mod_cases M (0 - p)) as [[? E3]|[[? E3]|[? E3]]]; try lia;
         destruct (mod_cases M (L - p)) as [[? E4]|[[? E4]|[? E4]]]; try lia;
         rewrite ?E3, ?E4 in *; lia).
  all: assert (Hp0 : p = 0)
         by (unfold p; rewrite <- Hc1, Z.sub_diag; apply Z.mod_0_l; lia);
       assert (HqL : q = L) by (unfold q, L; rewrite <- Hc2; reflexivity);
       lia.
Qed.

(** X7.  The poset order is sound for membership: when a non-bottom [a] is
    below [b] of the same width, every member of [a] is a member of [b]. *)
Theorem wrapped_lte_sound (a b : StridedInterval) (v : Z) :
  bits a = bits b -> is_bottom a = false ->
  _wrapped_lte a b = true -> _wrapped_member a v = true ->
  _wrapped_member b v = true.
Proof.
  exact (wrapped_lte_member_incl a b v).
Qed.

Lemma wrapped_lte_sound_witness :
  bits (interval 8 1 250 3) = bits (interval 8 2 240 10)
  /\ _wrapped_lte (interval 8 1 250 3) (interval 8 2 240 10) = true
  /\ _wrapped_member (interval 8 1 250 3) 0 = true
  /\ _wrapped_member (interval 8 2 240 10) 0 = true.
Proof.
  split; [reflexivity|]. split; [reflexivity|]. split; [reflexivity|].
  exact (wrapped_lte_sound (interval 8 1 250 3) (interval 8 2 240 10) 0
           eq_refl eq_refl eq_refl eq_refl).
Defined.

Lemma wrapped_lte_inv (a b : StridedInterval) :
  is_bottom a = false -> is_top a = false -> is_top b = false ->
  _wrapped_lte a b = true ->
  _wrapped_member b (lower_bound a) = true
  /\ _wrapped_member b (upper_bound a) = true
  /\ ((lower_bound b = lower_bound a /\ upper_bound b = upper_bound a)
      \/ _wrapped_member a (lower_bound b) = false
      \/ _wrapped_member a (upper_bound b) = false).
Proof.
  intros Hbot Hta Htb Hlte.
  unfold _wrapped_lte, is_empty in Hlte.
  rewrite Hbot, Hta, Htb in Hlte. cbn [andb] in Hlte.
  destruct (_wrapped_member b (lower_bound a)); [|discriminate Hlte].
  destruct (_wrapped_member b (upper_bound a)); [|discriminate Hlte].
  cbn [andb] in Hlte.
  split; [reflexivity|]. split; [reflexivity|].
  destruct ((lower_bound b =? lower_bound a) && (upper_bound b =? upper_bound a)) eqn:E.
  - left. apply andb_prop in E. destruct E as [E1 E2].
    apply Z.eqb_eq in E1, E2. split; assumption.
  - cbn [orb] in Hlte.
    destruct (_wrapped_member a (lower_bound b)); [|right; left; reflexivity].
    destruct (_wrapped_member a (upper_bound b)); [discriminate Hlte|].
    right; right; reflexivity.
Qed.

(** X8.  On non-bottom intervals of one width the poset order is a partial
    order on the bounds: two intervals that are not TOP and lie below each
    other have the same bounds, and the order is transitive. *)
Theorem wrapped_lte_partial_order (a b c : StridedInterval) :
  bits a = bits b -> bits b = bits c ->
  is_bottom a = false -> is_bottom b = false ->
  (is_top a = false -> is_top b = false ->
   _wrapped_lte a b = true -> _wrapped_lte b a = true ->
   lower_bound a = lower_bound b /\ upper_bound a = upper_bound b)
  /\ (_wrapped_lte a b = true -> _wrapped_lte b c = true -> _wrapped_lte a c = true).
Proof.
  intros Hab Hbc Ha Hb.
  split.
  - intros Hta Htb H1 H2.
    destruct (wrapped_lte_inv a b Ha Hta Htb H1) as (_ & _ & Hcase).
    destruct (wrapped_lte_inv b a Hb Htb Hta H2) as (Hl & Hu & _).
    destruct Hcase as [[E1 E2]|[E|E]].
    + split; congruence.
    + rewrite Hl in E. discriminate E.
    + rewrite Hu in E. discriminate E.
  - intros H1 H2.
    destruct (is_top c) eqn:Htc.
    { unfold _wrapped_lte. rewrite Htc.
      destruct (is_empty a); [reflexivity|].
      destruct (is_top a); reflexivity. }
    destruct (is_top b) eqn:Htb.
    { unfold _wrapped_lte, is_empty in H2. rewrite Hb, Htb, Htc in H2.
      discriminate H2. }
    destruct (is_top a) eqn:Hta.
    { unfold _wrapped_lte, is_empty in H1. rewrite Ha, Hta, Htb in H1.
      discriminate H1. }
    destruct (wrapped_lte_inv a b Ha Hta Htb H1) as (Hl1 & Hu1 & Hcase1).
    destruct (wrapped_lte_inv b c Hb Htb Htc H2) as (Hl2 & Hu2 & Hcase2).
    assert (Hlc : _wrapped_member c (lower_bound a) = true).
    { apply (wrapped_lte_member_incl b c); assumption. }
    assert (Huc : _wrapped_member c (upper_bound a) = true).
    { apply (wrapped_lte_member_incl b c); assumption. }
    unfold _wrapped_lte, is_empty.
    rewrite Ha, Hta, Htc, Hlc, Huc. cbn [andb].
    destruct (_wrapped_member a (lower_bound c)) eqn:Mcl;
      [|rewrite orb_true_r; reflexivity].
    destruct (_wrapped_member a (upper_bound c)) eqn:Mcu;
      [|rewrite orb_true_r; reflexivity].
    cbn [negb]. rewrite !orb_false_r.
    assert (Hbl : _wrapped_member b (lower_bound c) = true).
    { apply (wrapped_lte_member_incl a b); assumption. }
    assert (Hbu : _wrapped_member b (upper_bound c) = true).
    { apply (wrapped_lte_member_incl a b); assumption. }
    destruct Hcase2 as [[E1 E2]|[E|E]];
      [|rewrite Hbl in E; discriminate E|rewrite Hbu in E; discriminate E].
    rewrite E1, E2 in *.
    destruct Hcase1 as [[F1 F2]|[F|F]];
      [|rewrite Mcl in F; discriminate F|rewrite Mcu in F; discriminate F].
    rewrite F1, F2, !Z.eqb_refl. reflexivity.
Qed.

Lemma wrapped_lte_partial_order_witness :
  bits (interval 8 1 2 3) = bits (interval 8 1 1 5)
  /\ _wrapped_lte (interval 8 1 2 3) (interval 8 1 1 5) = true
  /\ _wrapped_lte (interval 8 1 1 5) (interval 8 1 0 9) = true
  /\ _wrapped_lte (interval 8 1 2 3) (interval 8 1 0 9) = true.
Proof.
  split; [reflexivity|]. split; [reflexivity|]. split; [reflexivity|].
  exact (proj2 (wrapped_lte_partial_order (interval 8 1 2 3) (interval 8 1 1 5)
                  (interval 8 1 0 9) eq_refl eq_refl eq_refl eq_refl) eq_refl eq_refl).
Defined.

(** *** Addition and subtraction *)

Lemma normal_form_plain (w : positive) (g L U : Z) (un : bool) :
  0 <= L < 2 ^ w -> 0 <= U < 2 ^ w ->
  (L = U -> g = 0) -> L <> (U + 1) mod 2 ^ w ->
  normal_form w g L U un = mkSI w g L U false un false.
Proof.
  intros HL HU Hsing Htop.
  unfold normal_form.
  rewrite (Z.mod_small L), (Z.mod_small U) by assumption.
  apply Z.eqb_neq in Htop. rewrite Htop. cbn [andb].
  destruct (L =? U) eqn:E; [|reflexivity].
  apply Z.eqb_eq in E. rewrite (Hsing E). reflexivity.
Qed.

Lemma span_sum_bound (a b : StridedInterval) :
  wf a -> wf b -> bits b = bits a ->
  overflow_cardinality a + overflow_cardinality b <= 2 ^ bits a - 1 ->
  (upper_bound a - lower_bound a) mod 2 ^ bits a
  + (upper_bound b - lower_bound b) mod 2 ^ bits a <= 2 ^ bits a - 2
  \/ (lower_bound a = upper_bound a /\ lower_bound b = upper_bound b).
Proof.
  intros Ha Hb Hbits Hov.
  pose proof (overflow_cardinality_span a Ha) as Hca.
  pose proof (overflow_cardinality_span b Hb) as Hcb.
  rewrite Hbits in Hcb.
  pose proof (pow2_ge_2 (bits a)) as HM.
  pose proof (Z.mod_pos_bound (upper_bound a - lower_bound a) (2 ^ bits a) ltac:(lia)).
  pose proof (Z.mod_pos_bound (upper_bound b - lower_bound b) (2 ^ bits a) ltac:(lia)).
  destruct Hca as [(? & ? & Ea)|Ea]; destruct Hcb as [(? & ? & Eb)|Eb];
    rewrite ?Ea, ?Eb in Hov.
  - right. lia.
  - destruct (Z.eq_dec (lower_bound b) (upper_bound b)) as [E|E]; [right; lia|].
    left. replace (upper_bound a - lower_bound a) with 0 in * by lia.
    rewrite Z.mod_0_l in * by lia. lia.
  - destruct (Z.eq_dec (lower_bound a) (upper_bound a)) as [E|E]; [right; lia|].
    left. replace (upper_bound b - lower_bound b) with 0 in * by lia.
    rewrite Z.mod_0_l in * by lia. lia.
  - left. lia.
Qed.

Lemma add_closed_form (a b : StridedInterval) :
  wf a -> wf b -> bits b = bits a ->
  add a b =
    Ok (if overflow_cardinality a + overflow_cardinality b >? max_int (bits a)
        then TOP (bits a)
        else mkSI (bits a) (gcd (stride a) (stride b))
               (_modular_add (lower_bound a) (lower_bound b) (bits a))
               (_modular_add (upper_bound a) (upper_bound b) (bits a))
               false (uninitialized a || uninitialized b) false).
Proof.
  intros Ha Hb Hbits.
  unfold add, _wrappedoverflow_add.
  fold (overflow_cardinality a) (overflow_cardinality b).
  destruct (overflow_cardinality a + overflow_cardinality b >? max_int (bits a)) eqn:Hov.
  - apply top_eq.
  - rewrite Z.gtb_ltb in Hov. apply Z.ltb_ge in Hov.
    rewrite max_int_eq in Hov.
    rewrite Hbits, Pos.max_id.
    rewrite init_live by (right; apply Z.gcd_nonneg).
    cbn [bind].
    rewrite normal_form_fixed by (right; apply Z.gcd_nonneg).
    apply f_equal. apply add_normal_form; assumption.
Qed.

Lemma sub_normal_form (a b : StridedInterval) (un : bool) :
  wf a -> wf b -> bits b = bits a ->
  overflow_cardinality a + overflow_cardinality b <= 2 ^ bits a - 1 ->
  normal_form (bits a) (gcd (stride a) (stride b))
    (_modular_sub (lower_bound a) (upper_bound b) (bits a))
    (_modular_sub (upper_bound a) (lower_bound b) (bits a)) un
  = mkSI (bits a) (gcd (stride a) (stride b))
      (_modular_sub (lower_bound a) (upper_bound b) (bits a))
      (_modular_sub (upper_bound a) (lower_bound b) (bits a)) false un false.
Proof.
  intros Ha Hb Hbits Hov.
  pose proof (span_sum_bound a b Ha Hb Hbits Hov) as Hspan.
  destruct Ha as [Hsa Hla Hua Hia _].
  destruct Hb as [Hsb Hlb Hub Hib _].
  rewrite Hbits in *.
  unfold _modular_sub.
  pose proof (pow2_ge_2 (bits a)) as HM.
  apply normal_form_plain; try apply mod_range.
  - set (M := 2 ^ Z.pos (bits a)) in *.
    set (la := lower_bound a) in *. set (ua := upper_bound a) in *.
    set (lb := lower_bound b) in *. set (ub := upper_bound b) in *.
    intros E.
    assert (la = ua /\ lb = ub) as [E1 E2].
    { destruct (mod_cases M (la - ub)) as [[? E1]|[[? E1]|[? E1]]]; try lia;
      destruct (mod_cases M (ua - lb)) as [[? E2]|[[? E2]|[? E2]]]; try lia;
      destruct (mod_cases M (ua - la)) as [[? E3]|[[? E3]|[? E3]]]; try lia;
      destruct (mod_cases M (ub - lb)) as [[? E4]|[[? E4]|[? E4]]]; try lia. }
    apply Hia in E1. apply Hib in E2. rewrite E1, E2. reflexivity.
  - set (M := 2 ^ Z.pos (bits a)) in *.
    set (la := lower_bound a) in *. set (ua := upper_bound a) in *.
    set (lb := lower_bound b) in *. set (ub := upper_bound b) in *.
    pose proof (Z.mod_pos_bound (ua - lb) M ltac:(lia)).
    destruct (mod_cases M (la - ub)) as [[? E1]|[[? E1]|[? E1]]]; try lia;
    destruct (mod_cases M (ua - lb)) as [[? E2]|[[? E2]|[? E2]]]; try lia;
    destruct (mod_cases M ((ua - lb) mod M + 1)) as [[? E5]|[[? E5]|[? E5]]]; try lia;
    destruct (mod_cases M (ua - la)) as [[? E3]|[[? E3]|[? E3]]]; try lia;
    destruct (mod_cases M (ub - lb)) as [[? E4]|[[? E4]|[? E4]]]; try lia.
Qed.

Lemma sub_closed_form (a b : StridedInterval) :
  wf a -> wf b -> bits b = bits a ->
  sub a b =
    Ok (if overflow_cardinality a + overflow_cardinality b >? max_int (bits a)
        then TOP (bits a)
        else mkSI (bits a) (gcd (stride a) (stride b))
               (_modular_sub (lower_bound a) (upper_bound b) (bits a))
               (_modular_sub (upper_bound a) (lower_bound b) (bits a))
               false (uninitialized a || uninitialized b) false).
Proof.
  intros Ha Hb Hbits.
  unfold sub, _wrappedoverflow_sub, _wrappedoverflow_add.
  fold (overflow_cardinality a) (overflow_cardinality b).
  destruct (overflow_cardinality a + overflow_cardinality b >? max_int (bits a)) eqn:Hov.
  - apply top_eq.
  - rewrite Z.gtb_ltb in Hov. apply Z.ltb_ge in Hov.
    rewrite max_int_eq in Hov.
    rewrite Hbits, Pos.max_id.
    rewrite init_live by (right; apply Z.gcd_nonneg).
    cbn [bind].
    rewrite normal_form_fixed by (right; apply Z.gcd_nonneg).
    apply f_equal. apply sub_normal_form; assumption.
Qed.

(** X9.  For every pair of equal-width StridedIntervals [a] and [b] of the
    data model, [sub(a, b)] overflows under the very test of [add] (the sum
    of the two cardinalities, a singleton zero counting 0, exceeds
    [max_int(w)]) and then returns TOP; otherwise it returns the interval
    with lower bound [msub(lb1, ub2)], upper bound [msub(ub1, lb2)] and
    stride [gcd(s1, s2)]. *)
Theorem sub_cases (a b : StridedInterval) :
  wf a -> wf b -> bits b = bits a ->
  sub a b =
    Ok (if overflow_cardinality a + overflow_cardinality b >? max_int (bits a)
        then TOP (bits a)
        else mkSI (bits a) (gcd (stride a) (stride b))
               (_modular_sub (lower_bound a) (upper_bound b) (bits a))
               (_modular_sub (upper_bound a) (lower_bound b) (bits a))
               false (uninitialized a || uninitialized b) false).
Proof.
  exact (sub_closed_form a b).
Qed.

Lemma sub_cases_witness :
  wf (interval 8 2 2 10) /\ wf (interval 8 4 4 12)
  /\ sub (interval 8 2 2 10) (interval 8 4 4 12) = Ok (interval 8 2 246 6).
Proof.
  assert (Ha : wf (interval 8 2 2 10)) by wf_by_computation.
  assert (Hb : wf (interval 8 4 4 12)) by wf_by_computation.
  split; [exact Ha|]. split; [exact Hb|].
  refine (eq_trans (sub_cases (interval 8 2 2 10) (interval 8 4 4 12) Ha Hb eq_refl) _).
  vm_compute; reflexivity.
Defined.

(** *** Soundness and invariants of addition and subtraction *)

Lemma span_sum_small (a b : StridedInterval) :
  wf a -> wf b -> bits b = bits a ->
  overflow_cardinality a + overflow_cardinality b <= 2 ^ bits a - 1 ->
  (upper_bound a - lower_bound a) mod 2 ^ bits a
  + (upper_bound b - lower_bound b) mod 2 ^ bits a <= 2 ^ bits a - 2.
Proof.
  intros Ha Hb Hbits Hov.
  pose proof (pow2_ge_2 (bits a)).
  destruct (span_sum_bound a b Ha Hb Hbits Hov) as [H1|[E1 E2]]; [exact H1|].
  rewrite E1, E2, !Z.sub_diag, Z.mod_0_l by lia. lia.
Qed.

Lemma no_overflow_bound (a b : StridedInterval) :
  (overflow_cardinality a + overflow_cardinality b >? max_int (bits a)) = false ->
  overflow_cardinality a + overflow_cardinality b <= 2 ^ bits a - 1.
Proof.
  intros Hov.
  rewrite Z.gtb_ltb in Hov. apply Z.ltb_ge in Hov.
  rewrite max_int_eq in Hov. exact Hov.
Qed.

Lemma span_zero (w : positive) (l u : Z) :
  0 <= l < 2 ^ w -> 0 <= u < 2 ^ w ->
  ((u - l) mod 2 ^ w = 0 <-> l = u).
Proof.
  intros Hl Hu.
  pose proof (pow2_ge_2 w).
  destruct (mod_cases (2 ^ w) (u - l)) as [[? E]|[[? E]|[? E]]]; lia.
Qed.

Lemma add_offset (M v1 v2 l1 l2 : Z) :
  (v1 + v2 - (l1 + l2) mod M) mod M = ((v1 - l1) mod M + (v2 - l2) mod M) mod M.
Proof.
  rewrite Zminus_mod_idemp_r, <- Zplus_mod.
  f_equal. lia.
Qed.

Lemma add_span (M l1 u1 l2 u2 : Z) :
  ((u1 + u2) mod M - (l1 + l2) mod M) mod M
  = ((u1 - l1) mod M + (u2 - l2) mod M) mod M.
Proof.
  rewrite Zminus_mod_idemp_l. apply add_offset.
Qed.

Lemma sub_offset (M v1 v2 l1 u2 : Z) :
  (v1 - v2 - (l1 - u2) mod M) mod M = ((v1 - l1) mod M + (u2 - v2) mod M) mod M.
Proof.
  rewrite Zminus_mod_idemp_r, <- Zplus_mod.
  f_equal. lia.
Qed.

Lemma sub_span (M l1 u1 l2 u2 : Z) :
  ((u1 - l2) mod M - (l1 - u2) mod M) mod M
  = ((u1 - l1) mod M + (u2 - l2) mod M) mod M.
Proof.
  rewrite Zminus_mod_idemp_l. apply sub_offset.
Qed.

Lemma offset_to_upper (M v l u : Z) :
  0 < M -> (v - l) mod M <= (u - l) mod M ->
  (u - v) mod M = (u - l) mod M - (v - l) mod M.
Proof.
  intros HM Hle.
  pose proof (Z.mod_pos_bound (v - l) M HM).
  pose proof (Z.mod_pos_bound (u - l) M HM).
  replace (u - v) with ((u - l) - (v - l)) by lia.
  rewrite Zminus_mod.
  apply Z.mod_small. lia.
Qed.

Lemma add_member (a b : StridedInterval) (v1 v2 : Z) :
  wf a -> wf b -> bits b = bits a ->
  _wrapped_member a v1 = true ->
  (stride a | (v1 - lower_bound a) mod 2 ^ bits a) ->
  _wrapped_member b v2 = true ->
  (stride b | (v2 - lower_bound b) mod 2 ^ bits b) ->
  exists r, add a b = Ok r
    /\ _wrapped_member r (v1 + v2) = true
    /\ (stride r | (v1 + v2 - lower_bound r) mod 2 ^ bits r).
Proof.
  intros Ha Hb Hbits Hm1 Hd1 Hm2 Hd2.
  rewrite add_closed_form by assumption.
  destruct (overflow_cardinality a + overflow_cardinality b >? max_int (bits a)) eqn:Hov.
  - exists (TOP (bits a)). split; [reflexivity|]. split.
    + apply is_top_member, is_top_TOP.
    + unfold TOP; fields. apply Z.divide_1_l.
  - eexists; split; [reflexivity|].
    apply no_overflow_bound in Hov.
    pose proof (span_sum_small a b Ha Hb Hbits Hov) as Hspan.
    unfold _wrapped_member in *. rewrite !lex_lte_mod in *. fields.
    apply Z.leb_le in Hm1, Hm2.
    rewrite Hbits in *.
    unfold _modular_add.
    pose proof (pow2_ge_2 (bits a)) as HM.
    set (M := 2 ^ Z.pos (bits a)) in *.
    pose proof (Z.mod_pos_bound (v1 - lower_bound a) M ltac:(lia)).
    pose proof (Z.mod_pos_bound (v2 - lower_bound b) M ltac:(lia)).
    rewrite add_offset, add_span.
    rewrite !(Z.mod_small (_ + _) M) by lia.
    split; [apply Z.leb_le; lia|].
    apply Z.divide_add_r.
    + eapply Z.divide_trans; [apply Z.gcd_divide_l|exact Hd1].
    + eapply Z.divide_trans; [apply Z.gcd_divide_r|exact Hd2].
Qed.

Lemma stride_divides_span (x : StridedInterval) :
  wf x -> is_bottom x = false -> stride_discipline x ->
  (stride x | (upper_bound x - lower_bound x) mod 2 ^ bits x).
Proof.
  intros [Hs Hl Hu Hsing _] Hbot Hd.
  destruct (Z.eq_dec (stride x) 0) as [E|E].
  - apply Hsing in E. rewrite E, Z.sub_diag.
    pose proof (pow2_ge_2 (bits x)).
    rewrite Z.mod_0_l by lia. apply Z.divide_0_r.
  - apply Z.mod_divide; [exact E|].
    apply Hd; [exact Hbot|lia].
Qed.

Lemma sub_member (a b : StridedInterval) (v1 v2 : Z) :
  wf a -> wf b -> bits b = bits a ->
  is_bottom b = false -> stride_discipline b ->
  _wrapped_member a v1 = true ->
  (stride a | (v1 - lower_bound a) mod 2 ^ bits a) ->
  _wrapped_member b v2 = true ->
  (stride b | (v2 - lower_bound b) mod 2 ^ bits b) ->
  exists r, sub a b = Ok r
    /\ _wrapped_member r (v1 - v2) = true
    /\ (stride r | (v1 - v2 - lower_bound r) mod 2 ^ bits r).
Proof.
  intros Ha Hb Hbits Hbot Hdisc Hm1 Hd1 Hm2 Hd2.
  rewrite sub_closed_form by assumption.
  destruct (overflow_cardinality a + overflow_cardinality b >? max_int (bits a)) eqn:Hov.
  - exists (TOP (bits a)). split; [reflexivity|]. split.
    + apply is_top_member, is_top_TOP.
    + unfold TOP; fields. apply Z.divide_1_l.
  - eexists; split; [reflexivity|].
    apply no_overflow_bound in Hov.
    pose proof (span_sum_small a b Ha Hb Hbits Hov) as Hspan.
    pose proof (stride_divides_span b Hb Hbot Hdisc) as Hdb.
    unfold _wrapped_member in *. rewrite !lex_lte_mod in *. fields.
    apply Z.leb_le in Hm1, Hm2.
    rewrite Hbits in *.
    unfold _modular_sub.
    pose proof (pow2_ge_2 (bits a)) as HM.
    set (M := 2 ^ Z.pos (bits a)) in *.
    pose proof (Z.mod_pos_bound (v1 - lower_bound a) M ltac:(lia)).
    pose proof (Z.mod_pos_bound (v2 - lower_bound b) M ltac:(lia)).
    rewrite sub_offset, sub_span.
    rewrite (offset_to_upper M v2 (lower_bound b) (upper_bound b)) by lia.
    rewrite !(Z.mod_small (_ + _) M) by lia.
    split; [apply Z.leb_le; lia|].
    apply Z.divide_add_r.
    + eapply Z.divide_trans; [apply Z.gcd_divide_l|exact Hd1].
    + eapply Z.divide_trans; [apply Z.gcd_divide_r|].
      apply Z.divide_sub_r; assumption.
Qed.

Lemma wf_TOP (w : positive) : wf (TOP w).
Proof.
  pose proof (pow2_ge_2 w).
  apply mk_wf; unfold TOP; fields; try lia; try reflexivity.
Qed.

Lemma wf_BOTTOM (w : positive) : wf (BOTTOM w).
Proof.
  pose proof (pow2_ge_2 w).
  apply mk_wf; unfold BOTTOM; fields; try lia; try reflexivity.
Qed.

Lemma wf_zero (w : positive) : wf (interval w 0 0 0).
Proof.
  pose proof (pow2_ge_2 w).
  apply mk_wf; unfold interval; fields; try lia; try reflexivity.
Qed.

Lemma gcd_zero_iff (a b : StridedInterval) (L U : Z) :
  wf a -> wf b -> bits b = bits a ->
  0 <= L < 2 ^ bits a -> 0 <= U < 2 ^ bits a ->
  (U - L) mod 2 ^ bits a
  = (upper_bound a - lower_bound a) mod 2 ^ bits a
    + (upper_bound b - lower_bound b) mod 2 ^ bits a ->
  (L = U <-> gcd (stride a) (stride b) = 0).
Proof.
  intros [Hsa Hla Hua Hia _] [Hsb Hlb Hub Hib _] Hbits HL HU E.
  rewrite Hbits in *.
  pose proof (pow2_ge_2 (bits a)) as HM.
  pose proof (Z.mod_pos_bound (upper_bound a - lower_bound a) (2 ^ bits a) ltac:(lia)).
  pose proof (Z.mod_pos_bound (upper_bound b - lower_bound b) (2 ^ bits a) ltac:(lia)).
  pose proof (span_zero (bits a) L U HL HU) as HLU.
  pose proof (span_zero (bits a) _ _ Hla Hua) as Hza.
  pose proof (span_zero (bits a) _ _ Hlb Hub) as Hzb.
  unfold gcd. rewrite Z.gcd_eq_0.
  rewrite <- Hia, <- Hib, <- Hza, <- Hzb, <- HLU, E.
  lia.
Qed.

Lemma add_sub_wf (a b : StridedInterval) :
  wf a -> wf b -> bits b = bits a ->
  exists ra rs, add a b = Ok ra /\ sub a b = Ok rs
    /\ wf ra /\ wf rs
    /\ bits ra = bits a /\ bits rs = bits a
    /\ is_bottom ra = false /\ is_bottom rs = false.
Proof.
  intros Ha Hb Hbits.
  rewrite add_closed_form, sub_closed_form by assumption.
  destruct (overflow_cardinality a + overflow_cardinality b >? max_int (bits a)) eqn:Hov.
  - exists (TOP (bits a)), (TOP (bits a)).
    repeat (split; [first [reflexivity | apply wf_TOP]|]). reflexivity.
  - do 2 eexists.
    split; [reflexivity|]. split; [reflexivity|].
    apply no_overflow_bound in Hov.
    pose proof (span_sum_small a b Ha Hb Hbits Hov) as Hspan.
    pose proof (pow2_ge_2 (bits a)) as HM.
    pose proof (Z.mod_pos_bound (upper_bound a - lower_bound a) (2 ^ bits a) ltac:(lia)).
    pose proof (Z.mod_pos_bound (upper_bound b - lower_bound b) (2 ^ bits a) ltac:(lia)).
    split; [|split]; [| |repeat split].
    + apply mk_wf; fields; try reflexivity; unfold _modular_add; try apply mod_range.
      * apply Z.gcd_nonneg.
      * apply (gcd_zero_iff a b); try assumption; try apply mod_range.
        rewrite add_span. apply Z.mod_small. lia.
    + apply mk_wf; fields; try reflexivity; unfold _modular_sub; try apply mod_range.
      * apply Z.gcd_nonneg.
      * apply (gcd_zero_iff a b); try assumption; try apply mod_range.
        rewrite sub_span. apply Z.mod_small. lia.
Qed.

Lemma add_sub_discipline (a b : StridedInterval) :
  wf a -> wf b -> bits b = bits a ->
  is_bottom a = false -> is_bottom b = false ->
  stride_discipline a -> stride_discipline b ->
  exists ra rs, add a b = Ok ra /\ sub a b = Ok rs
    /\ stride_discipline ra /\ stride_discipline rs.
Proof.
  intros Ha Hb Hbits Hba Hbb Hda Hdb.
  rewrite add_closed_form, sub_closed_form by assumption.
  destruct (overflow_cardinality a + overflow_cardinality b >? max_int (bits a)) eqn:Hov.
  - exists (TOP (bits a)), (TOP (bits a)).
    split; [reflexivity|]. split; [reflexivity|].
    split; intros _ _; unfold TOP; fields; apply Z.mod_1_r.
  - do 2 eexists.
    split; [reflexivity|]. split; [reflexivity|].
    apply no_overflow_bound in Hov.
    pose proof (span_sum_small a b Ha Hb Hbits Hov) as Hspan.
    pose proof (stride_divides_span a Ha Hba Hda) as Hsa.
    pose proof (stride_divides_span b Hb Hbb Hdb) as Hsb.
    rewrite Hbits in Hsb.
    pose proof (pow2_ge_2 (bits a)) as HM.
    pose proof (Z.mod_pos_bound (upper_bound a - lower_bound a) (2 ^ bits a) ltac:(lia)).
    pose proof (Z.mod_pos_bound (upper_bound b - lower_bound b) (2 ^ bits a) ltac:(lia)).
    assert (Hg : (gcd (stride a) (stride b)
                  | (upper_bound a - lower_bound a) mod 2 ^ bits a
                    + (upper_bound b - lower_bound b) mod 2 ^ bits a)).
    { apply Z.divide_add_r.
      - eapply Z.divide_trans; [apply Z.gcd_divide_l|exact Hsa].
      - eapply Z.divide_trans; [apply Z.gcd_divide_r|exact Hsb]. }
    split; intros _ Hpos; fields; unfold _modular_add, _modular_sub.
    + rewrite add_span, (Z.mod_small (_ mod _ + _ mod _)) by lia.
      apply Z.mod_divide; [lia|exact Hg].
    + rewrite sub_span, (Z.mod_small (_ mod _ + _ mod _)) by lia.
      apply Z.mod_divide; [lia|exact Hg].
Qed.

(** X10.  [add] is sound on the data model: when [v1] is a value of [a] and
    [v2] a value of [b] (within the bounds as [_wrapped_member] tests them,
    and a multiple of the stride away from the lower bound), [add(a, b)]
    returns an interval of which [v1 + v2] is a value in the same sense. *)
Theorem add_sound (a b : StridedInterval) (v1 v2 : Z) :
  wf a -> wf b -> bits b = bits a ->
  _wrapped_member a v1 = true ->
  (stride a | (v1 - lower_bound a) mod 2 ^ bits a) ->
  _wrapped_member b v2 = true ->
  (stride b | (v2 - lower_bound b) mod 2 ^ bits b) ->
  exists r, add a b = Ok r
    /\ _wrapped_member r (v1 + v2) = true
    /\ (stride r | (v1 + v2 - lower_bound r) mod 2 ^ bits r).
Proof.
  exact (add_member a b v1 v2).
Qed.

Lemma add_sound_witness :
  exists r, add (interval 8 2 250 4) (interval 8 3 1 7) = Ok r
    /\ _wrapped_member r (2 + 4) = true
    /\ (stride r | (2 + 4 - lower_bound r) mod 2 ^ bits r).
Proof.
  refine (add_sound (interval 8 2 250 4) (interval 8 3 1 7) 2 4 _ _ eq_refl eq_refl
            (ex_intro _ 4 eq_refl) eq_refl (ex_intro _ 1 eq_refl));
    wf_by_computation.
Defined.

(** X11.  [sub] is sound on the data model when the subtrahend [b] is not
    bottom and keeps the stride discipline: for a value [v1] of [a] and a
    value [v2] of [b], [v1 - v2] is a value of [sub(a, b)].  (The new lower
    bound is computed from the upper bound of [b], which is a value of [b]
    only under the discipline.) *)
Theorem sub_sound (a b : StridedInterval) (v1 v2 : Z) :
  wf a -> wf b -> bits b = bits a ->
  is_bottom b = false -> stride_discipline b ->
  _wrapped_member a v1 = true ->
  (stride a | (v1 - lower_bound a) mod 2 ^ bits a) ->
  _wrapped_member b v2 = true ->
  (stride b | (v2 - lower_bound b) mod 2 ^ bits b) ->
  exists r, sub a b = Ok r
    /\ _wrapped_member r (v1 - v2) = true
    /\ (stride r | (v1 - v2 - lower_bound r) mod 2 ^ bits r).
Proof.
  exact (sub_member a b v1 v2).
Qed.

Lemma sub_sound_witness :
  exists r, sub (interval 8 2 250 4) (interval 8 3 1 7) = Ok r
    /\ _wrapped_member r (2 - 4) = true
    /\ (stride r | (2 - 4 - lower_bound r) mod 2 ^ bits r).
Proof.
  refine (sub_sound (interval 8 2 250 4) (interval 8 3 1 7) 2 4 _ _ eq_refl eq_refl _
            eq_refl (ex_intro _ 4 eq_refl) eq_refl (ex_intro _ 1 eq_refl)).
  - wf_by_computation.
  - wf_by_computation.
  - intros _ _. reflexivity.
Defined.

(** X12.  [add] and [sub] stay inside the data model: on equal-width
    operands of the data model both return, never raise, and the result is an
    interval of the data model of the same width that is not bottom. *)
Theorem add_sub_keep_data_model (a b : StridedInterval) :
  wf a -> wf b -> bits b = bits a ->
  exists ra rs, add a b = Ok ra /\ sub a b = Ok rs
    /\ wf ra /\ wf rs
    /\ bits ra = bits a /\ bits rs = bits a
    /\ is_bottom ra = false /\ is_bottom rs = false.
Proof.
  exact (add_sub_wf a b).
Qed.

Lemma add_sub_keep_data_model_witness :
  exists ra rs,
    add (interval 8 2 250 4) (interval 8 3 1 7) = Ok ra
    /\ sub (interval 8 2 250 4) (interval 8 3 1 7) = Ok rs
    /\ wf ra /\ wf rs
    /\ bits ra = 8%positive /\ bits rs = 8%positive
    /\ is_bottom ra = false /\ is_bottom rs = false.
Proof.
  refine (add_sub_keep_data_model (interval 8 2 250 4) (interval 8 3 1 7) _ _ eq_refl);
    wf_by_computation.
Defined.

(** X13.  [add] and [sub] keep the stride discipline: when both operands are
    non-bottom intervals of the data model whose span is a multiple of their
    stride, so is the result. *)
Theorem add_sub_keep_stride_discipline (a b : StridedInterval) :
  wf a -> wf b -> bits b = bits a ->
  is_bottom a = false -> is_bottom b = false ->
  stride_discipline a -> stride_discipline b ->
  exists ra rs, add a b = Ok ra /\ sub a b = Ok rs
    /\ stride_discipline ra /\ stride_discipline rs.
Proof.
  exact (add_sub_discipline a b).
Qed.

Lemma add_sub_keep_stride_discipline_witness :
  exists ra rs,
    add (interval 8 2 250 4) (interval 8 3 1 7) = Ok ra
    /\ sub (interval 8 2 250 4) (interval 8 3 1 7) = Ok rs
    /\ stride_discipline ra /\ stride_discipline rs.
Proof.
  refine (add_sub_keep_stride_discipline (interval 8 2 250 4) (interval 8 3 1 7)
            _ _ eq_refl eq_refl eq_refl _ _).
  - wf_by_computation.
  - wf_by_computation.
  - intros _ _. reflexivity.
  - intros _ _. reflexivity.
Defined.

(** *** Zero, the empty interval and negation *)

Lemma overflow_cardinality_zero (w : positive) :
  overflow_cardinality (interval w 0 0 0) = 0.
Proof.
  reflexivity.
Qed.

Lemma overflow_cardinality_BOTTOM (w : positive) :
  overflow_cardinality (BOTTOM w) = 2 ^ w.
Proof.
  pose proof (pow2_ge_2 w) as HM.
  unfold overflow_cardinality, BOTTOM, is_integer, _wrapped_cardinality; fields.
  destruct (0 =? 2 ^ Z.pos w - 1) eqn:E; [apply Z.eqb_eq in E; lia|].
  cbn [andb].
  replace (2 ^ Z.pos w - 1 + 1) with (2 ^ Z.pos w) by lia.
  rewrite Z.mod_same by lia.
  reflexivity.
Qed.

Lemma overflow_cardinality_nonneg (x : StridedInterval) :
  wf x -> 0 <= overflow_cardinality x.
Proof.
  intros Hx.
  pose proof (pow2_ge_2 (bits x)).
  pose proof (Z.mod_pos_bound (upper_bound x - lower_bound x) (2 ^ bits x) ltac:(lia)).
  destruct (overflow_cardinality_span x Hx) as [(_ & _ & E)|E]; rewrite E; lia.
Qed.

Lemma overflow_cardinality_partial (x : StridedInterval) :
  wf x -> lower_bound x <> (upper_bound x + 1) mod 2 ^ bits x ->
  overflow_cardinality x <= 2 ^ bits x - 1.
Proof.
  intros Hx Hfull.
  pose proof (pow2_ge_2 (bits x)) as HM.
  destruct (overflow_cardinality_span x Hx) as [(_ & _ & E)|E]; rewrite E; [lia|].
  destruct Hx as [_ Hl Hu _ _].
  destruct (mod_cases (2 ^ bits x) (upper_bound x - lower_bound x)) as [[? E1]|[[? E1]|[? E1]]];
    try lia;
    destruct (mod_cases (2 ^ bits x) (upper_bound x + 1)) as [[? E2]|[[? E2]|[? E2]]];
    try lia.
Qed.

Lemma no_overflow_test (c : Z) (w : positive) :
  c <= 2 ^ w - 1 -> (c >? max_int w) = false.
Proof.
  intros H. rewrite max_int_eq, Z.gtb_ltb. apply Z.ltb_ge. exact H.
Qed.

Lemma overflow_test (c : Z) (w : positive) :
  2 ^ w <= c -> (c >? max_int w) = true.
Proof.
  intros H. rewrite max_int_eq, Z.gtb_ltb. apply Z.ltb_lt. lia.
Qed.

Lemma add_sub_zero (x : StridedInterval) :
  wf x -> is_bottom x = false ->
  lower_bound x <> (upper_bound x + 1) mod 2 ^ bits x ->
  add x (interval (bits x) 0 0 0) = Ok x
  /\ add (interval (bits x) 0 0 0) x = Ok x
  /\ sub x (interval (bits x) 0 0 0) = Ok x.
Proof.
  intros Hx Hbot Hfull.
  pose proof (overflow_cardinality_partial x Hx Hfull) as Hc.
  pose proof (wf_zero (bits x)) as Hz.
  pose proof Hx as [Hs Hl Hu _ Hrev].
  split; [|split].
  - rewrite (add_closed_form x _ Hx Hz eq_refl).
    rewrite overflow_cardinality_zero, Z.add_0_r, (no_overflow_test _ _ Hc).
    destruct x as [w s l u r un b]; unfold interval; fields. subst r b.
    unfold gcd, _modular_add.
    rewrite Z.gcd_0_r, Z.abs_eq, !Z.add_0_r, orb_false_r by exact Hs.
    rewrite (Z.mod_small l), (Z.mod_small u) by assumption.
    reflexivity.
  - rewrite (add_closed_form _ x Hz Hx eq_refl).
    rewrite overflow_cardinality_zero, Z.add_0_l.
    unfold interval; fields.
    rewrite (no_overflow_test _ _ Hc).
    destruct x as [w s l u r un b]; fields. subst r b.
    unfold gcd, _modular_add.
    rewrite Z.gcd_0_l, Z.abs_eq, !Z.add_0_l by exact Hs.
    rewrite (Z.mod_small l), (Z.mod_small u) by assumption.
    reflexivity.
  - rewrite (sub_closed_form x _ Hx Hz eq_refl).
    rewrite overflow_cardinality_zero, Z.add_0_r, (no_overflow_test _ _ Hc).
    destruct x as [w s l u r un b]; unfold interval; fields. subst r b.
    unfold gcd, _modular_sub.
    rewrite Z.gcd_0_r, Z.abs_eq, !Z.sub_0_r, orb_false_r by exact Hs.
    rewrite (Z.mod_small l), (Z.mod_small u) by assumption.
    reflexivity.
Qed.

Lemma add_sub_BOTTOM (b : StridedInterval) :
  wf b ->
  add (BOTTOM (bits b)) b = Ok (TOP (bits b))
  /\ add b (BOTTOM (bits b)) = Ok (TOP (bits b))
  /\ sub (BOTTOM (bits b)) b = Ok (TOP (bits b))
  /\ sub b (BOTTOM (bits b)) = Ok (TOP (bits b)).
Proof.
  intros Hb.
  pose proof (overflow_cardinality_nonneg b Hb) as Hc.
  pose proof (wf_BOTTOM (bits b)) as Hz.
  split; [|split; [|split]].
  - rewrite (add_closed_form _ b Hz Hb eq_refl), overflow_cardinality_BOTTOM.
    unfold BOTTOM; fields. rewrite overflow_test by lia. reflexivity.
  - rewrite (add_closed_form b _ Hb Hz eq_refl), overflow_cardinality_BOTTOM.
    rewrite overflow_test by lia. reflexivity.
  - rewrite (sub_closed_form _ b Hz Hb eq_refl), overflow_cardinality_BOTTOM.
    unfold BOTTOM; fields. rewrite overflow_test by lia. reflexivity.
  - rewrite (sub_closed_form b _ Hb Hz eq_refl), overflow_cardinality_BOTTOM.
    rewrite overflow_test by lia. reflexivity.
Qed.

Lemma SI_zero (w : positive) : SI w 0 0 0 = Ok (interval w 0 0 0).
Proof.
  pose proof (pow2_ge_2 w) as HM.
  unfold SI.
  rewrite init_live by (right; lia).
  rewrite normal_form_plain; try lia; [reflexivity|].
  rewrite Z.mod_small; lia.
Qed.

Lemma neg_closed_form (x : StridedInterval) :
  wf x -> lower_bound x <> (upper_bound x + 1) mod 2 ^ bits x ->
  neg x = Ok (mkSI (bits x) (stride x)
                (_modular_sub 0 (upper_bound x) (bits x))
                (_modular_sub 0 (lower_bound x) (bits x))
                false (uninitialized x) false).
Proof.
  intros Hx Hfull.
  pose proof (overflow_cardinality_partial x Hx Hfull) as Hc.
  unfold neg.
  rewrite SI_zero. cbn [bind].
  rewrite (sub_closed_form _ x (wf_zero (bits x)) Hx eq_refl).
  rewrite overflow_cardinality_zero, Z.add_0_l.
  unfold interval; fields.
  rewrite (no_overflow_test _ _ Hc).
  destruct Hx as [Hs _ _ _ _].
  unfold gcd. rewrite Z.gcd_0_l, Z.abs_eq by exact Hs.
  reflexivity.
Qed.

Lemma neg_neg (x : StridedInterval) :
  wf x -> is_bottom x = false ->
  lower_bound x <> (upper_bound x + 1) mod 2 ^ bits x ->
  exists n, neg x = Ok n /\ bits n = bits x /\ wf n /\ neg n = Ok x.
Proof.
  intros Hx Hbot Hfull.
  rewrite (neg_closed_form x Hx Hfull).
  eexists. split; [reflexivity|]. split; [reflexivity|].
  pose proof (pow2_ge_2 (bits x)) as HM.
  pose proof Hx as [Hs Hl Hu Hsing Hrev].
  assert (Hn : wf (mkSI (bits x) (stride x)
                (_modular_sub 0 (upper_bound x) (bits x))
                (_modular_sub 0 (lower_bound x) (bits x))
                false (uninitialized x) false)).
  { apply mk_wf; fields; unfold _modular_sub; try apply mod_range;
      [exact Hs| |reflexivity].
    rewrite <- Hsing.
    destruct (mod_cases (2 ^ bits x) (0 - upper_bound x)) as [[? E1]|[[? E1]|[? E1]]];
      try lia;
      destruct (mod_cases (2 ^ bits x) (0 - lower_bound x)) as [[? E2]|[[? E2]|[? E2]]];
      try lia. }
  split; [exact Hn|].
  rewrite neg_closed_form; [|exact Hn|].
  - fields.
    destruct x as [w s l u r un b]; fields. subst r b.
    unfold _modular_sub.
    rewrite !Zminus_mod_idemp_r.
    replace (0 - (0 - l)) with l by lia.
    replace (0 - (0 - u)) with u by lia.
    rewrite (Z.mod_small l), (Z.mod_small u) by assumption.
    reflexivity.
  - fields. unfold _modular_sub.
    pose proof (Z.mod_pos_bound (0 - lower_bound x) (2 ^ bits x) ltac:(lia)).
    destruct (mod_cases (2 ^ bits x) (0 - upper_bound x)) as [[? E1]|[[? E1]|[? E1]]];
      try lia;
      destruct (mod_cases (2 ^ bits x) (0 - lower_bound x)) as [[? E2]|[[? E2]|[? E2]]];
      try lia;
      destruct (mod_cases (2 ^ bits x) ((0 - lower_bound x) mod 2 ^ bits x + 1))
        as [[? E3]|[[? E3]|[? E3]]];
      try lia;
      destruct (mod_cases (2 ^ bits x) (upper_bound x + 1)) as [[? E4]|[[? E4]|[? E4]]];
      try lia.
Qed.

(** X14.  The singleton zero is the identity of [add] (on both sides) and
    the right identity of [sub]: for every non-bottom interval [x] of the data
    model that does not go all the way round the circle, the operation
    returns [x] itself, stride and flags included. *)
Theorem zero_is_identity (x : StridedInterval) :
  wf x -> is_bottom x = false ->
  lower_bound x <> (upper_bound x + 1) mod 2 ^ bits x ->
  add x (interval (bits x) 0 0 0) = Ok x
  /\ add (interval (bits x) 0 0 0) x = Ok x
  /\ sub x (interval (bits x) 0 0 0) = Ok x.
Proof.
  exact (add_sub_zero x).
Qed.

Lemma zero_is_identity_witness :
  add (interval 8 3 250 3) (interval 8 0 0 0) = Ok (interval 8 3 250 3)
  /\ add (interval 8 0 0 0) (interval 8 3 250 3) = Ok (interval 8 3 250 3)
  /\ sub (interval 8 3 250 3) (interval 8 0 0 0) = Ok (interval 8 3 250 3).
Proof.
  refine (zero_is_identity (interval 8 3 250 3) _ eq_refl _).
  - wf_by_computation.
  - vm_compute. discriminate.
Defined.

(** X15.  The empty interval is absorbed the wrong way round: [add] and
    [sub] ignore the bottom flag, so with the empty interval [empty(w)] as
    either operand they return TOP, not the empty interval. *)
Theorem add_sub_of_empty (b : StridedInterval) :
  wf b ->
  add (BOTTOM (bits b)) b = Ok (TOP (bits b))
  /\ add b (BOTTOM (bits b)) = Ok (TOP (bits b))
  /\ sub (BOTTOM (bits b)) b = Ok (TOP (bits b))
  /\ sub b (BOTTOM (bits b)) = Ok (TOP (bits b)).
Proof.
  exact (add_sub_BOTTOM b).
Qed.

Lemma add_sub_of_empty_witness :
  add (BOTTOM 8) (interval 8 0 5 5) = Ok (TOP 8)
  /\ add (interval 8 0 5 5) (BOTTOM 8) = Ok (TOP 8)
  /\ sub (BOTTOM 8) (interval 8 0 5 5) = Ok (TOP 8)
  /\ sub (interval 8 0 5 5) (BOTTOM 8) = Ok (TOP 8).
Proof.
  refine (add_sub_of_empty (interval 8 0 5 5) _).
  wf_by_computation.
Defined.

(** X16.  [neg] is an involution: for every non-bottom interval [x] of the
    data model that does not go all the way round the circle, [neg(x)] is
    the interval [-ub, -lb] (modulo [2^bits]) with the stride of [x], it is
    again in the data model, and [neg(neg(x))] returns [x] itself. *)
Theorem neg_involutive (x : StridedInterval) :
  wf x -> is_bottom x = false ->
  lower_bound x <> (upper_bound x + 1) mod 2 ^ bits x ->
  exists n, neg x = Ok n
    /\ lower_bound n = _modular_sub 0 (upper_bound x) (bits x)
    /\ upper_bound n = _modular_sub 0 (lower_bound x) (bits x)
    /\ stride n = stride x
    /\ wf n /\ neg n = Ok x.
Proof.
  intros Hx Hbot Hfull.
  destruct (neg_neg x Hx Hbot Hfull) as (n & Hn & Hbits & Hwf & Hnn).
  exists n. rewrite (neg_closed_form x Hx Hfull) in Hn.
  injection Hn as <-. fields.
  split; [apply neg_closed_form; assumption|].
  split; [reflexivity|]. split; [reflexivity|]. split; [reflexivity|].
  split; assumption.
Qed.

Lemma neg_involutive_witness :
  exists n, neg (interval 8 3 250 3) = Ok n
    /\ lower_bound n = 253 /\ upper_bound n = 6 /\ stride n = 3
    /\ wf n /\ neg n = Ok (interval 8 3 250 3).
Proof.
  refine (neg_involutive (interval 8 3 250 3) _ eq_refl _).
  - wf_by_computation.
  - vm_compute. discriminate.
Defined.

(** *** Complement *)

Lemma complement_closed_form (x : StridedInterval) :
  0 <= stride x -> is_bottom x = false -> is_top x = false ->
  complement x =
    Ok (normal_form (bits x) (complement_stride x) (complement_lower_bound x)
          (complement_upper_bound x) false).
Proof.
  intros Hs Hbot Htop.
  unfold complement, is_empty.
  rewrite Hbot, Htop.
  unfold _modular_add, _modular_sub.
  fold (complement_lower_bound x) (complement_upper_bound x).
  assert (Hl : 0 <= complement_lower_bound x < 2 ^ bits x) by apply mod_range.
  assert (Hu : 0 <= complement_upper_bound x < 2 ^ bits x) by apply mod_range.
  assert (Hd : (_wrapped_cardinality (complement_lower_bound x)
                  (complement_upper_bound x) (bits x) - 1 <? 0) = false).
  { apply Z.ltb_ge.
    rewrite wrapped_cardinality_span by assumption.
    pose proof (mod_range (complement_upper_bound x - complement_lower_bound x) (bits x)).
    lia. }
  rewrite Hd.
  unfold SI.
  rewrite init_live.
  - unfold normal_form, complement_stride.
    rewrite (Z.mod_small (complement_lower_bound x)),
            (Z.mod_small (complement_upper_bound x)) by assumption.
    destruct (complement_lower_bound x =? complement_upper_bound x); reflexivity.
  - right.
    destruct (stride x =? 0); [lia|].
    apply Z.gcd_nonneg.
Qed.

Lemma complement_stride_nonneg (x : StridedInterval) :
  0 <= complement_stride x.
Proof.
  unfold complement_stride.
  destruct (_ =? _); [lia|].
  destruct (_ =? _); [lia|].
  apply Z.gcd_nonneg.
Qed.

Lemma complement_stride_divides (x : StridedInterval) :
  (complement_stride x
   | (complement_upper_bound x - complement_lower_bound x) mod 2 ^ bits x).
Proof.
  unfold complement_stride.
  assert (Hl : 0 <= complement_lower_bound x < 2 ^ bits x) by apply mod_range.
  assert (Hu : 0 <= complement_upper_bound x < 2 ^ bits x) by apply mod_range.
  destruct (complement_lower_bound x =? complement_upper_bound x) eqn:E.
  - apply Z.eqb_eq in E. rewrite E, Z.sub_diag.
    pose proof (pow2_ge_2 (bits x)).
    rewrite Z.mod_0_l by lia. apply Z.divide_0_r.
  - destruct (stride x =? 0); [apply Z.divide_1_l|].
    rewrite wrapped_cardinality_span by assumption.
    replace (_ + 1 - 1) with
      ((complement_upper_bound x - complement_lower_bound x) mod 2 ^ bits x) by lia.
    apply Z.gcd_divide_r.
Qed.

Lemma is_top_false_partial (x : StridedInterval) :
  lower_bound x <> (upper_bound x + 1) mod 2 ^ bits x -> is_top x = false.
Proof.
  intros H. unfold is_top, _modular_add.
  apply Z.eqb_neq in H. rewrite H. apply andb_false_r.
Qed.

Lemma complement_partial (x : StridedInterval) :
  wf x -> is_bottom x = false ->
  lower_bound x <> (upper_bound x + 1) mod 2 ^ bits x ->
  complement x =
    Ok (mkSI (bits x) (complement_stride x) (complement_lower_bound x)
          (complement_upper_bound x) false false false).
Proof.
  intros Hx Hbot Hfull.
  pose proof Hx as [Hs Hl Hu Hsing _].
  rewrite complement_closed_form by (try assumption; apply is_top_false_partial; assumption).
  apply f_equal.
  pose proof (pow2_ge_2 (bits x)) as HM.
  apply normal_form_plain; try apply mod_range.
  - intros E. unfold complement_stride.
    apply Z.eqb_eq in E. rewrite E. reflexivity.
  - unfold complement_lower_bound, complement_upper_bound.
    rewrite Zplus_mod_idemp_l.
    replace (lower_bound x - 1 + 1) with (lower_bound x) by lia.
    rewrite (Z.mod_small (lower_bound x)) by assumption.
    intros E. apply Hfull. symmetry. exact E.
Qed.

Lemma complement_offset (M v l u : Z) :
  (v - (u + 1) mod M) mod M = ((v - l) mod M - ((u - l) mod M + 1)) mod M.
Proof.
  rewrite Zminus_mod_idemp_r, Zminus_mod_idemp_l.
  replace (v - l - ((u - l) mod M + 1)) with (v - l - 1 - (u - l) mod M) by lia.
  rewrite Zminus_mod_idemp_r.
  f_equal. lia.
Qed.

Lemma complement_span (M l u : Z) :
  ((l - 1) mod M - (u + 1) mod M) mod M = (0 - ((u - l) mod M + 2)) mod M.
Proof.
  rewrite Zminus_mod_idemp_l, Zminus_mod_idemp_r.
  replace (0 - ((u - l) mod M + 2)) with (0 - 2 - (u - l) mod M) by lia.
  rewrite Zminus_mod_idemp_r.
  f_equal. lia.
Qed.

Lemma partial_span (x : StridedInterval) :
  wf x -> lower_bound x <> (upper_bound x + 1) mod 2 ^ bits x ->
  (upper_bound x - lower_bound x) mod 2 ^ bits x <= 2 ^ bits x - 2.
Proof.
  intros [_ Hl Hu _ _] Hfull.
  pose proof (pow2_ge_2 (bits x)) as HM.
  destruct (mod_cases (2 ^ bits x) (upper_bound x - lower_bound x)) as [[? E1]|[[? E1]|[? E1]]];
    try lia;
    destruct (mod_cases (2 ^ bits x) (upper_bound x + 1)) as [[? E2]|[[? E2]|[? E2]]];
    try lia.
Qed.

Lemma complement_member (x : StridedInterval) (v : Z) :
  wf x -> is_bottom x = false ->
  lower_bound x <> (upper_bound x + 1) mod 2 ^ bits x ->
  exists r, complement x = Ok r
    /\ _wrapped_member r v = negb (_wrapped_member x v).
Proof.
  intros Hx Hbot Hfull.
  rewrite (complement_partial x Hx Hbot Hfull).
  eexists. split; [reflexivity|].
  pose proof (partial_span x Hx Hfull) as Hspan.
  unfold _wrapped_member. rewrite !lex_lte_mod. fields.
  unfold complement_lower_bound, complement_upper_bound.
  pose proof (pow2_ge_2 (bits x)) as HM.
  set (M := 2 ^ Z.pos (bits x)) in *.
  rewrite (complement_offset M v (lower_bound x) (upper_bound x)).
  rewrite complement_span.
  pose proof (Z.mod_pos_bound (v - lower_bound x) M ltac:(lia)).
  pose proof (Z.mod_pos_bound (upper_bound x - lower_bound x) M ltac:(lia)).
  set (k := (v - lower_bound x) mod M) in *.
  set (d := (upper_bound x - lower_bound x) mod M) in *.
  destruct (k <=? d) eqn:E3; cbn [negb];
    [apply Z.leb_le in E3|apply Z.leb_gt in E3];
    destruct (mod_cases M (k - (d + 1))) as [[? E1]|[[? E1]|[? E1]]]; try lia;
    destruct (mod_cases M (0 - (d + 2))) as [[? E2]|[[? E2]|[? E2]]]; try lia;
    rewrite E1, E2;
    first [apply Z.leb_le; lia | apply Z.leb_gt; lia].
Qed.

Lemma complement_partial_wf (x : StridedInterval) :
  wf x -> is_bottom x = false ->
  lower_bound x <> (upper_bound x + 1) mod 2 ^ bits x ->
  let r := mkSI (bits x) (complement_stride x) (complement_lower_bound x)
             (complement_upper_bound x) false false false in
  wf r /\ lower_bound r <> (upper_bound r + 1) mod 2 ^ bits r.
Proof.
  intros Hx Hbot Hfull r.
  pose proof Hx as [Hs Hl Hu Hsing _].
  pose proof (pow2_ge_2 (bits x)) as HM.
  split.
  - apply mk_wf; unfold r; fields; try apply mod_range; try reflexivity.
    + apply complement_stride_nonneg.
    + unfold complement_stride.
      destruct (complement_lower_bound x =? complement_upper_bound x) eqn:E.
      * apply Z.eqb_eq in E. split; intros; [reflexivity|exact E].
      * apply Z.eqb_neq in E.
        split; [intros E'; contradiction|].
        destruct (stride x =? 0) eqn:E0; [lia|].
        apply Z.eqb_neq in E0.
        intros Eg. unfold gcd in Eg. apply Z.gcd_eq_0 in Eg. lia.
  - unfold r; fields.
    unfold complement_lower_bound, complement_upper_bound.
    rewrite Zplus_mod_idemp_l.
    replace (lower_bound x - 1 + 1) with (lower_bound x) by lia.
    rewrite (Z.mod_small (lower_bound x)) by assumption.
    intros E. apply Hfull. symmetry. exact E.
Qed.

Lemma complement_twice (x : StridedInterval) :
  wf x -> is_bottom x = false ->
  lower_bound x <> (upper_bound x + 1) mod 2 ^ bits x ->
  exists r r', complement x = Ok r /\ complement r = Ok r'
    /\ bits r' = bits x
    /\ lower_bound r' = lower_bound x /\ upper_bound r' = upper_bound x
    /\ (stride r' | stride x).
Proof.
  intros Hx Hbot Hfull.
  destruct (complement_partial_wf x Hx Hbot Hfull) as [Hr Hrfull].
  rewrite (complement_partial x Hx Hbot Hfull).
  set (r := mkSI (bits x) (complement_stride x) (complement_lower_bound x)
              (complement_upper_bound x) false false false) in *.
  exists r. eexists. split; [reflexivity|].
  split; [apply (complement_partial r Hr eq_refl Hrfull)|].
  fields.
  pose proof Hx as [Hs Hl Hu Hsing _].
  pose proof (pow2_ge_2 (bits x)) as HM.
  assert (EL : complement_lower_bound r = lower_bound x).
  { unfold complement_lower_bound, r, complement_upper_bound; fields.
    rewrite Zplus_mod_idemp_l.
    replace (lower_bound x - 1 + 1) with (lower_bound x) by lia.
    apply Z.mod_small; assumption. }
  assert (EU : complement_upper_bound r = upper_bound x).
  { unfold complement_upper_bound, r, complement_lower_bound; fields.
    rewrite Zminus_mod_idemp_l.
    replace (upper_bound x + 1 - 1) with (upper_bound x) by lia.
    apply Z.mod_small; assumption. }
  split; [reflexivity|]. split; [exact EL|]. split; [exact EU|].
  unfold complement_stride at 1. rewrite EL, EU.
  destruct (lower_bound x =? upper_bound x) eqn:E.
  - apply Z.eqb_eq in E. apply Hsing in E. rewrite E. apply Z.divide_0_r.
  - destruct (stride r =? 0) eqn:E0; [apply Z.divide_1_l|].
    apply Z.eqb_neq in E0.
    eapply Z.divide_trans; [apply Z.gcd_divide_l|].
    unfold r in *; fields.
    unfold complement_stride in *.
    destruct (complement_lower_bound x =? complement_upper_bound x); [contradiction|].
    destruct (stride x =? 0) eqn:E1.
    + apply Z.eqb_eq in E1. rewrite E1. apply Z.divide_0_r.
    + apply Z.gcd_divide_l.
Qed.

Lemma complement_discipline (x r : StridedInterval) :
  0 <= stride x -> complement x = Ok r -> stride_discipline r.
Proof.
  intros Hs Hr.
  unfold stride_discipline, _modular_sub.
  destruct (is_bottom x) eqn:Hbot.
  - unfold complement, is_empty in Hr. rewrite Hbot, top_eq in Hr.
    injection Hr as <-. fields. intros _ _. apply Z.mod_1_r.
  - destruct (is_top x) eqn:Htop.
    + unfold complement, is_empty in Hr. rewrite Hbot, Htop, empty_eq in Hr.
      injection Hr as <-. unfold BOTTOM; fields. intros H; discriminate H.
    + rewrite (complement_closed_form x Hs Hbot Htop) in Hr.
      injection Hr as <-.
      pose proof (complement_stride_divides x) as Hdiv.
      assert (Hl : 0 <= complement_lower_bound x < 2 ^ bits x) by apply mod_range.
      assert (Hu : 0 <= complement_upper_bound x < 2 ^ bits x) by apply mod_range.
      unfold normal_form.
      rewrite (Z.mod_small (complement_lower_bound x)),
              (Z.mod_small (complement_upper_bound x)) by assumption.
      destruct (_ && _); fields; intros _ Hpos; [apply Z.mod_1_r|].
      destruct (complement_lower_bound x =? complement_upper_bound x); [lia|].
      apply Z.mod_divide; [lia|exact Hdiv].
Qed.

(** X17.  [complement] complements the membership test: for a non-bottom
    interval [x] of the data model that does not go all the way round the
    circle, [complement(x)] returns an interval [r] with
    [_wrapped_member(r, v)] exactly when not [_wrapped_member(x, v)], for
    every integer [v]. *)
Theorem complement_complements_membership (x : StridedInterval) (v : Z) :
  wf x -> is_bottom x = false ->
  lower_bound x <> (upper_bound x + 1) mod 2 ^ bits x ->
  exists r, complement x = Ok r
    /\ _wrapped_member r v = negb (_wrapped_member x v).
Proof.
  exact (complement_member x v).
Qed.

Lemma complement_complements_membership_witness :
  exists r, complement (interval 8 3 250 3) = Ok r
    /\ _wrapped_member r 4 = negb (_wrapped_member (interval 8 3 250 3) 4).
Proof.
  refine (complement_complements_membership (interval 8 3 250 3) 4 _ eq_refl _).
  - wf_by_computation.
  - vm_compute. discriminate.
Defined.

(** X18.  Complementing twice restores the bounds: for a non-bottom
    interval [x] of the data model that does not go all the way round the
    circle, [complement(complement(x))] has the width and the two bounds of
    [x]; its stride is a divisor of the stride of [x], not always the stride
    itself. *)
Theorem complement_twice_restores_bounds (x : StridedInterval) :
  wf x -> is_bottom x = false ->
  lower_bound x <> (upper_bound x + 1) mod 2 ^ bits x ->
  exists r r', complement x = Ok r /\ complement r = Ok r'
    /\ bits r' = bits x
    /\ lower_bound r' = lower_bound x /\ upper_bound r' = upper_bound x
    /\ (stride r' | stride x).
Proof.
  exact (complement_twice x).
Qed.

Lemma complement_twice_restores_bounds_witness :
  exists r r', complement (interval 8 4 0 8) = Ok r /\ complement r = Ok r'
    /\ bits r' = 8%positive
    /\ lower_bound r' = 0 /\ upper_bound r' = 8
    /\ (stride r' | 4).
Proof.
  refine (complement_twice_restores_bounds (interval 8 4 0 8) _ eq_refl _).
  - wf_by_computation.
  - vm_compute. discriminate.
Defined.

(** X19.  Whatever interval it is given (stride not negative), the interval
    that [complement] returns keeps the stride discipline: its span is a
    multiple of its stride, also when the operand's was not. *)
Theorem complement_returns_stride_discipline (x r : StridedInterval) :
  0 <= stride x -> complement x = Ok r -> stride_discipline r.
Proof.
  exact (complement_discipline x r).
Qed.

Lemma complement_returns_stride_discipline_witness :
  stride_discipline (interval 8 1 6 255).
Proof.
  refine (complement_returns_stride_discipline (interval 8 4 0 5) _ _ eq_refl).
  cbn. lia.
Defined.

(** *** Comparisons *)

Lemma ssplit_shape (x : StridedInterval) (ps : list StridedInterval) :
  _ssplit x = Ok ps -> (exists a, ps = [a]) \/ (exists a b, ps = [a; b]).
Proof.
  unfold _ssplit.
  destruct (upper_bound x <? lower_bound x).
  - destruct (py_mod _ _) as [r|e]; cbn [bind]; [|intros H; discriminate H].
    destruct (SI _ _ _ _) as [a|e]; cbn [bind]; [|intros H; discriminate H].
    destruct (SI _ _ _ _) as [b|e]; cbn [bind]; [|intros H; discriminate H].
    intros H. injection H as <-. right. exists a, b. reflexivity.
  - destruct (copy x) as [c|e]; cbn [bind]; [|intros H; discriminate H].
    intros H. injection H as <-. left. exists c. reflexivity.
Qed.

Lemma nsplit_shape (x : StridedInterval) (ps : list StridedInterval) :
  _nsplit x = Ok ps -> (exists a, ps = [a]) \/ (exists a b, ps = [a; b]).
Proof.
  unfold _nsplit.
  match goal with |- context [if ?c then _ else _] => destruct c end.
  - destruct (py_mod _ _) as [r|e]; cbn [bind]; [|intros H; discriminate H].
    destruct (SI _ _ _ _) as [a|e]; cbn [bind]; [|intros H; discriminate H].
    destruct (SI _ _ _ _) as [b|e]; cbn [bind]; [|intros H; discriminate H].
    intros H. injection H as <-. right. exists a, b. reflexivity.
  - destruct (copy x) as [c|e]; cbn [bind]; [|intros H; discriminate H].
    intros H. injection H as <-. left. exists c. reflexivity.
Qed.

Lemma unsigned_bounds_total (x : StridedInterval) :
  wf x -> exists bs, _unsigned_bounds x = Ok bs.
Proof.
  intros Hx.
  destruct (ssplit_pieces x (wf_splits x Hx)) as (ps & Hps & _).
  unfold _unsigned_bounds. rewrite Hps. cbn [bind].
  destruct (ssplit_shape x ps Hps) as [(a & ->)|(a & b & ->)];
    eexists; reflexivity.
Qed.

Lemma signed_bounds_total (x : StridedInterval) :
  wf x -> exists bs, _signed_bounds x = Ok bs.
Proof.
  intros Hx.
  destruct (nsplit_pieces x (wf_splits x Hx)) as (ps & Hps & _).
  unfold _signed_bounds. rewrite Hps. cbn [bind].
  destruct (nsplit_shape x ps Hps) as [(a & ->)|(a & b & ->)];
    eexists; reflexivity.
Qed.

Lemma gt_verdict_swap (lb_1 ub_1 lb_2 ub_2 : Z) :
  gt_verdict lb_1 ub_1 lb_2 ub_2 = lt_verdict lb_2 ub_2 lb_1 ub_1.
Proof.
  unfold gt_verdict, lt_verdict.
  rewrite Z.gtb_ltb, Z.geb_leb. reflexivity.
Qed.

Lemma ge_verdict_swap (lb_1 ub_1 lb_2 ub_2 : Z) :
  ge_verdict lb_1 ub_1 lb_2 ub_2 = le_verdict lb_2 ub_2 lb_1 ub_1.
Proof.
  unfold ge_verdict, le_verdict.
  rewrite Z.gtb_ltb, Z.geb_leb. reflexivity.
Qed.

Lemma forallb_verdicts_swap (p : BoolResult -> bool)
  (v v' : Z -> Z -> Z -> Z -> BoolResult) (bounds_1 bounds_2 : list (Z * Z)) :
  (forall a b c d, v a b c d = v' c d a b) ->
  forallb p (verdicts bounds_1 bounds_2 v) = forallb p (verdicts bounds_2 bounds_1 v').
Proof.
  intros Hv.
  apply eq_true_iff_eq.
  rewrite !forallb_verdicts.
  split; intros H b1 b2 H1 H2.
  - rewrite <- Hv. apply H; assumption.
  - rewrite Hv. apply H; assumption.
Qed.

Lemma aggregate_swap (v v' : Z -> Z -> Z -> Z -> BoolResult)
  (bounds_1 bounds_2 : list (Z * Z)) :
  (forall a b c d, v a b c d = v' c d a b) ->
  aggregate (verdicts bounds_1 bounds_2 v) = aggregate (verdicts bounds_2 bounds_1 v').
Proof.
  intros Hv. unfold aggregate.
  rewrite !(forallb_verdicts_swap _ v v' bounds_1 bounds_2 Hv).
  reflexivity.
Qed.

Lemma comparisons_swap (x y : StridedInterval) :
  wf x -> wf y ->
  UGT x y = ULT y x /\ UGE x y = ULE y x
  /\ SGT x y = SLT y x /\ SGE x y = SLE y x.
Proof.
  intros Hx Hy.
  destruct (unsigned_bounds_total x Hx) as (ux & Hux).
  destruct (unsigned_bounds_total y Hy) as (uy & Huy).
  destruct (signed_bounds_total x Hx) as (sx & Hsx).
  destruct (signed_bounds_total y Hy) as (sy & Hsy).
  unfold UGT, ULT, UGE, ULE, SGT, SLT, SGE, SLE.
  rewrite Hux, Huy, Hsx, Hsy. cbn [bind].
  rewrite (aggregate_swap gt_verdict lt_verdict ux uy gt_verdict_swap).
  rewrite (aggregate_swap ge_verdict le_verdict ux uy ge_verdict_swap).
  rewrite (aggregate_swap gt_verdict lt_verdict sx sy gt_verdict_swap).
  rewrite (aggregate_swap ge_verdict le_verdict sx sy ge_verdict_swap).
  repeat split.
Qed.

Lemma ssplit_unwrapped (x : StridedInterval) :
  wf x -> lower_bound x <= upper_bound x -> _ssplit x = Ok [x].
Proof.
  intros Hx Hlu.
  unfold _ssplit.
  destruct (upper_bound x <? lower_bound x) eqn:E; [apply Z.ltb_lt in E; lia|].
  rewrite (copy_wf_unwrapped x Hx Hlu). reflexivity.
Qed.

Lemma unsigned_bounds_unwrapped (x : StridedInterval) :
  wf x -> lower_bound x <= upper_bound x ->
  _unsigned_bounds x = Ok [(lower_bound x, upper_bound x)].
Proof.
  intros Hx Hlu.
  unfold _unsigned_bounds.
  rewrite (ssplit_unwrapped x Hx Hlu). reflexivity.
Qed.

Lemma aggregate_one (r : BoolResult) : aggregate [r] = r.
Proof.
  destruct r; reflexivity.
Qed.

Lemma unsigned_comparisons_unwrapped (x y : StridedInterval) :
  wf x -> wf y ->
  lower_bound x <= upper_bound x -> lower_bound y <= upper_bound y ->
  ULT x y = Ok (lt_verdict (lower_bound x) (upper_bound x) (lower_bound y) (upper_bound y))
  /\ ULE x y = Ok (le_verdict (lower_bound x) (upper_bound x) (lower_bound y) (upper_bound y))
  /\ UGT x y = Ok (gt_verdict (lower_bound x) (upper_bound x) (lower_bound y) (upper_bound y))
  /\ UGE x y = Ok (ge_verdict (lower_bound x) (upper_bound x) (lower_bound y) (upper_bound y)).
Proof.
  intros Hx Hy Hxw Hyw.
  unfold ULT, ULE, UGT, UGE.
  rewrite (unsigned_bounds_unwrapped x Hx Hxw), (unsigned_bounds_unwrapped y Hy Hyw).
  cbn [bind verdicts flat_map map app fst snd].
  rewrite !aggregate_one.
  repeat split.
Qed.

Lemma unsigned_comparisons_decide (x y : StridedInterval) (v1 v2 : Z) :
  wf x -> wf y ->
  lower_bound x <= v1 <= upper_bound x -> lower_bound y <= v2 <= upper_bound y ->
  exists r_lt r_le r_gt r_ge,
    ULT x y = Ok r_lt /\ ULE x y = Ok r_le /\ UGT x y = Ok r_gt /\ UGE x y = Ok r_ge
    /\ (r_lt = TrueResult -> v1 < v2) /\ (r_lt = FalseResult -> v2 <= v1)
    /\ (r_le = TrueResult -> v1 <= v2) /\ (r_le = FalseResult -> v2 < v1)
    /\ (r_gt = TrueResult -> v2 < v1) /\ (r_gt = FalseResult -> v1 <= v2)
    /\ (r_ge = TrueResult -> v2 <= v1) /\ (r_ge = FalseResult -> v1 < v2).
Proof.
  intros Hx Hy H1 H2.
  destruct (unsigned_comparisons_unwrapped x y Hx Hy ltac:(lia) ltac:(lia))
    as (Elt & Ele & Egt & Ege).
  do 4 eexists.
  split; [exact Elt|]. split; [exact Ele|]. split; [exact Egt|]. split; [exact Ege|].
  unfold lt_verdict, le_verdict, gt_verdict, ge_verdict.
  rewrite !Z.gtb_ltb, !Z.geb_leb.
  repeat split;
    repeat match goal with
           | |- context [?a <? ?b] =>
               let E := fresh in
               destruct (a <? b) eqn:E; [apply Z.ltb_lt in E|apply Z.ltb_ge in E]
           | |- context [?a <=? ?b] =>
               let E := fresh in
               destruct (a <=? b) eqn:E; [apply Z.leb_le in E|apply Z.leb_gt in E]
           end;
    intros Hr; first [discriminate Hr | lia].
Qed.

(** X20.  The greater-than comparisons are the less-than comparisons with
    the operands exchanged: on intervals of the data model [UGT(x, y)] is
    [ULT(y, x)], [UGE(x, y)] is [ULE(y, x)], and likewise for the signed
    four. *)
Theorem comparisons_exchange_operands (x y : StridedInterval) :
  wf x -> wf y ->
  UGT x y = ULT y x /\ UGE x y = ULE y x
  /\ SGT x y = SLT y x /\ SGE x y = SLE y x.
Proof.
  exact (comparisons_swap x y).
Qed.

Lemma comparisons_exchange_operands_witness :
  UGT (interval 8 3 250 3) (interval 8 2 100 130)
  = ULT (interval 8 2 100 130) (interval 8 3 250 3)
  /\ UGE (interval 8 3 250 3) (interval 8 2 100 130)
     = ULE (interval 8 2 100 130) (interval 8 3 250 3)
  /\ SGT (interval 8 3 250 3) (interval 8 2 100 130)
     = SLT (interval 8 2 100 130) (interval 8 3 250 3)
  /\ SGE (interval 8 3 250 3) (interval 8 2 100 130)
     = SLE (interval 8 2 100 130) (interval 8 3 250 3).
Proof.
  refine (comparisons_exchange_operands (interval 8 3 250 3) (interval 8 2 100 130) _ _);
    wf_by_computation.
Defined.

(** X21.  The unsigned comparisons are sound on intervals that do not wrap:
    for intervals [x], [y] of the data model, [v1] between the bounds of [x]
    and [v2] between the bounds of [y], each of [ULT], [ULE], [UGT], [UGE]
    returns, and an answer [True] or [False] is the truth of the comparison
    of [v1] with [v2]. *)
Theorem unsigned_comparisons_sound (x y : StridedInterval) (v1 v2 : Z) :
  wf x -> wf y ->
  lower_bound x <= v1 <= upper_bound x -> lower_bound y <= v2 <= upper_bound y ->
  exists r_lt r_le r_gt r_ge,
    ULT x y = Ok r_lt /\ ULE x y = Ok r_le /\ UGT x y = Ok r_gt /\ UGE x y = Ok r_ge
    /\ (r_lt = TrueResult -> v1 < v2) /\ (r_lt = FalseResult -> v2 <= v1)
    /\ (r_le = TrueResult -> v1 <= v2) /\ (r_le = FalseResult -> v2 < v1)
    /\ (r_gt = TrueResult -> v2 < v1) /\ (r_gt = FalseResult -> v1 <= v2)
    /\ (r_ge = TrueResult -> v2 <= v1) /\ (r_ge = FalseResult -> v1 < v2).
Proof.
  exact (unsigned_comparisons_decide x y v1 v2).
Qed.

Lemma unsigned_comparisons_sound_witness :
  exists r_lt r_le r_gt r_ge,
    ULT (interval 8 2 2 10) (interval 8 5 10 30) = Ok r_lt
    /\ ULE (interval 8 2 2 10) (interval 8 5 10 30) = Ok r_le
    /\ UGT (interval 8 2 2 10) (interval 8 5 10 30) = Ok r_gt
    /\ UGE (interval 8 2 2 10) (interval 8 5 10 30) = Ok r_ge
    /\ (r_lt = TrueResult -> 4 < 20) /\ (r_lt = FalseResult -> 20 <= 4)
    /\ (r_le = TrueResult -> 4 <= 20) /\ (r_le = FalseResult -> 20 < 4)
    /\ (r_gt = TrueResult -> 20 < 4) /\ (r_gt = FalseResult -> 4 <= 20)
    /\ (r_ge = TrueResult -> 20 <= 4) /\ (r_ge = FalseResult -> 4 < 20).
Proof.
  refine (unsigned_comparisons_sound (interval 8 2 2 10) (interval 8 5 10 30) 4 20 _ _ _ _).
  - wf_by_computation.
  - wf_by_computation.
  - cbn. lia.
  - cbn. lia.
Defined.

(** *** The values [eval] lists *)

Lemma eval_walk_In (room : nat) (s ub : Z) :
  0 < s ->
  forall (lb : Z) (acc : list Z) (v : Z),
    ub - lb < Z.of_nat room * s ->
    (In v (eval_walk room lb ub s acc)
     <-> In v acc \/ (lb <= v <= ub /\ (s | v - lb))).
Proof.
  intros Hs.
  induction room as [|room IH]; intros lb acc v Hroom.
  - cbn [eval_walk]. split; [intros H; left; exact H|].
    intros [H|[H _]]; [exact H|lia].
  - cbn [eval_walk].
    destruct (lb <=? ub) eqn:E.
    + apply Z.leb_le in E.
      rewrite IH by lia.
      rewrite in_app_iff. cbn [In].
      split.
      * intros [[H|[H|[]]]|[H [k Hk]]].
        -- left; exact H.
        -- right. subst v. split; [lia|]. exists 0. lia.
        -- right. split; [lia|]. exists (k + 1). lia.
      * intros [H|[H [k Hk]]]; [left; left; exact H|].
        destruct (Z.eq_dec v lb) as [->|Hne]; [left; right; left; reflexivity|].
        right.
        assert (1 <= k) by nia.
        split; [nia|]. exists (k - 1). lia.
    + apply Z.leb_gt in E.
      split; [intros H; left; exact H|].
      intros [H|[H _]]; [exact H|lia].
Qed.

Lemma eval_walk_length (room : nat) (s ub : Z) :
  0 < s ->
  forall (lb : Z) (acc : list Z),
    ub - lb < Z.of_nat room * s -> lb <= ub + s ->
    Z.of_nat (List.length (eval_walk room lb ub s acc))
    = Z.of_nat (List.length acc) + (ub - lb + s) / s.
Proof.
  intros Hs.
  induction room as [|room IH]; intros lb acc Hroom Hlb.
  - cbn [eval_walk].
    rewrite Z.div_small by lia. lia.
  - cbn [eval_walk].
    destruct (lb <=? ub) eqn:E.
    + apply Z.leb_le in E.
      rewrite IH by lia.
      rewrite length_app. cbn [List.length].
      replace (ub - lb + s) with (ub - (lb + s) + s + 1 * s) by lia.
      rewrite Z.div_add by lia. lia.
    + apply Z.leb_gt in E.
      rewrite Z.div_small by lia. lia.
Qed.

Lemma span_lt_room (w : positive) (s l u : Z) :
  0 < s -> 0 <= l -> u < 2 ^ w ->
  u - l < Z.of_nat (Z.to_nat (2 ^ w)) * s.
Proof.
  intros Hs Hl Hu.
  pose proof (pow2_ge_2 w).
  rewrite Z2Nat.id by lia. nia.
Qed.

Lemma concretize_unwrapped (x : StridedInterval) :
  wf x -> is_bottom x = false -> lower_bound x <= upper_bound x ->
  exists vs, concretize x = Ok vs
    /\ cardinality x = Ok (Z.of_nat (List.length vs))
    /\ (forall v, In v vs <->
                  lower_bound x <= v <= upper_bound x
                  /\ (stride x | v - lower_bound x)).
Proof.
  intros Hx Hbot Hlu.
  pose proof Hx as [Hs Hl Hu Hsing _].
  pose proof (pow2_ge_2 (bits x)) as HM.
  unfold concretize.
  rewrite eval_unwrapped by lia.
  unfold is_empty. rewrite Hbot.
  eexists. split; [reflexivity|].
  unfold cardinality, is_integer. rewrite Hbot.
  destruct (stride x =? 0) eqn:E0.
  - apply Z.eqb_eq in E0.
    assert (E : lower_bound x = upper_bound x) by (apply Hsing; exact E0).
    destruct (2 ^ bits x >? 0) eqn:Egt;
      [|rewrite Z.gtb_ltb in Egt; apply Z.ltb_ge in Egt; lia].
    cbn [andb List.length].
    apply Z.eqb_eq in E. rewrite E. apply Z.eqb_eq in E.
    split; [reflexivity|].
    intros v. cbn [In]. rewrite E0. split.
    + intros [<-|[]]. split; [lia|]. exists 0. lia.
    + intros [H [k Hk]]. left. lia.
  - apply Z.eqb_neq in E0. cbn [andb].
    assert (Hpos : 0 < stride x) by lia.
    assert (Hne : lower_bound x <> upper_bound x) by (intros E; apply Hsing in E; lia).
    destruct (lower_bound x =? upper_bound x) eqn:E; [apply Z.eqb_eq in E; contradiction|].
    pose proof (span_lt_room (bits x) (stride x) (lower_bound x) (upper_bound x)
                  Hpos ltac:(lia) ltac:(lia)) as Hroom.
    split.
    + rewrite eval_walk_length by lia.
      cbn [List.length].
      unfold py_div, _modular_sub.
      apply Z.eqb_neq in E0. rewrite E0.
      rewrite Z.mod_small by lia.
      reflexivity.
    + intros v. rewrite eval_walk_In by assumption.
      cbn [In]. split; [intros [[]|H]; exact H|intros H; right; exact H].
Qed.

(** X22.  What [eval] lists for an interval that does not wrap: for a
    non-bottom interval [x] of the data model with [lb <= ub], the unsigned
    [eval] with room for [2^bits] values lists exactly the integers between
    the bounds that are a multiple of the stride away from the lower bound,
    and as many of them as [cardinality] says. *)
Theorem eval_lists_the_values (x : StridedInterval) :
  wf x -> is_bottom x = false -> lower_bound x <= upper_bound x ->
  exists vs, concretize x = Ok vs
    /\ cardinality x = Ok (Z.of_nat (List.length vs))
    /\ (forall v, In v vs <->
                  lower_bound x <= v <= upper_bound x
                  /\ (stride x | v - lower_bound x)).
Proof.
  exact (concretize_unwrapped x).
Qed.

Lemma eval_lists_the_values_witness :
  exists vs, concretize (interval 8 3 2 12) = Ok vs
    /\ cardinality (interval 8 3 2 12) = Ok (Z.of_nat (List.length vs))
    /\ (forall v, In v vs <-> 2 <= v <= 12 /\ (3 | v - 2)).
Proof.
  refine (eval_lists_the_values (interval 8 3 2 12) _ eq_refl _).
  - wf_by_computation.
  - cbn. lia.
Defined.

(** *** Bitwise negation *)

Lemma normal_form_unwrapped (w : positive) (s l u : Z) (un : bool) :
  0 <= l -> l <= u -> u < 2 ^ w -> (l = u <-> s = 0) ->
  normal_form w s l u un = mkSI w s l u false un false.
Proof.
  intros Hl Hlu Hu Hsing.
  pose proof (pow2_ge_2 w) as HM.
  unfold normal_form.
  rewrite (Z.mod_small l), (Z.mod_small u) by lia.
  destruct (l =? u) eqn:E.
  - apply Z.eqb_eq in E.
    assert (s = 0) as -> by (apply Hsing; exact E).
    cbn [Z.eqb]. rewrite andb_false_r. reflexivity.
  - destruct ((l =? (u + 1) mod 2 ^ w) && (s =? 1)) eqn:Etop; [|reflexivity].
    apply andb_prop in Etop. destruct Etop as [E1 E2].
    apply Z.eqb_eq in E1, E2. subst s.
    destruct (mod_cases (2 ^ w) (u + 1)) as [[? E3]|[[? E3]|[? E3]]]; try lia.
    replace l with 0 by lia. replace u with (2 ^ w - 1) by lia.
    reflexivity.
Qed.

Lemma normal_form_mod (w : positive) (s l u : Z) (un : bool) :
  normal_form w s l u un = normal_form w s (l mod 2 ^ w) (u mod 2 ^ w) un.
Proof.
  pose proof (pow2_ge_2 w) as HM.
  unfold normal_form.
  rewrite !Z.mod_mod by lia. reflexivity.
Qed.

Lemma lnot_mod (w : positive) (v : Z) :
  0 <= v < 2 ^ w -> Z.lnot v mod 2 ^ w = 2 ^ w - 1 - v.
Proof.
  intros Hv. unfold Z.lnot.
  destruct (mod_cases (2 ^ w) (Z.pred (- v))) as [[? E]|[[? E]|[? E]]]; lia.
Qed.

Lemma bitwise_not_closed_form (x : StridedInterval) :
  wf x -> lower_bound x <= upper_bound x ->
  bitwise_not x =
    Ok (mkSI (bits x) (stride x)
          (2 ^ bits x - 1 - upper_bound x) (2 ^ bits x - 1 - lower_bound x)
          false false false).
Proof.
  intros Hx Hlu.
  pose proof Hx as [Hs Hl Hu Hsing _].
  pose proof (pow2_ge_2 (bits x)) as HM.
  unfold bitwise_not.
  rewrite (ssplit_unwrapped x Hx Hlu).
  cbn [bind List.length Nat.eqb for_each].
  unfold SI.
  rewrite init_live by (right; exact Hs).
  cbn [bind app].
  set (r := mkSI (bits x) (stride x)
              (2 ^ bits x - 1 - upper_bound x) (2 ^ bits x - 1 - lower_bound x)
              false false false).
  assert (Hnf : normal_form (bits x) (stride x) (Z.lnot (upper_bound x))
                  (Z.lnot (lower_bound x)) false = r).
  { rewrite normal_form_mod, !lnot_mod by assumption.
    apply normal_form_unwrapped; lia. }
  rewrite Hnf.
  assert (Hr : wf r).
  { apply mk_wf; unfold r; fields; try lia; try reflexivity. }
  unfold _least_upper_bound.
  rewrite (copy_wf_unwrapped r Hr) by (unfold r; fields; lia).
  cbn [bind].
  unfold r at 1.
  rewrite normalize_mk by (try lia; right; exact Hs).
  apply f_equal.
  apply normal_form_unwrapped; lia.
Qed.

Lemma bitwise_not_member (x : StridedInterval) (v : Z) :
  wf x -> lower_bound x <= upper_bound x ->
  is_bottom x = false -> stride_discipline x ->
  _wrapped_member x v = true ->
  (stride x | (v - lower_bound x) mod 2 ^ bits x) ->
  exists r, bitwise_not x = Ok r
    /\ _wrapped_member r (Z.lnot v) = true
    /\ (stride r | (Z.lnot v - lower_bound r) mod 2 ^ bits r).
Proof.
  intros Hx Hlu Hbot Hdisc Hm Hd.
  rewrite (bitwise_not_closed_form x Hx Hlu).
  eexists. split; [reflexivity|].
  pose proof (stride_divides_span x Hx Hbot Hdisc) as Hspan.
  pose proof Hx as [Hs Hl Hu Hsing _].
  pose proof (pow2_ge_2 (bits x)) as HM.
  unfold _wrapped_member in *. rewrite !lex_lte_mod in *. fields.
  apply Z.leb_le in Hm.
  set (M := 2 ^ Z.pos (bits x)) in *.
  assert (E1 : (Z.lnot v - (M - 1 - upper_bound x)) mod M
               = (upper_bound x - v) mod M).
  { unfold Z.lnot.
    replace (Z.pred (- v) - (M - 1 - upper_bound x))
      with (upper_bound x - v + -1 * M) by lia.
    apply Z_mod_plus_full. }
  assert (E2 : (M - 1 - lower_bound x - (M - 1 - upper_bound x)) mod M
               = (upper_bound x - lower_bound x) mod M).
  { f_equal. lia. }
  rewrite E1, E2.
  rewrite (offset_to_upper M v (lower_bound x) (upper_bound x)) by lia.
  pose proof (Z.mod_pos_bound (v - lower_bound x) M ltac:(lia)).
  split; [apply Z.leb_le; lia|].
  apply Z.divide_sub_r; assumption.
Qed.

Lemma bitwise_not_twice (x : StridedInterval) :
  wf x -> lower_bound x <= upper_bound x ->
  is_bottom x = false -> uninitialized x = false ->
  exists r, bitwise_not x = Ok r
    /\ lower_bound r = 2 ^ bits x - 1 - upper_bound x
    /\ upper_bound r = 2 ^ bits x - 1 - lower_bound x
    /\ stride r = stride x
    /\ bitwise_not r = Ok x.
Proof.
  intros Hx Hlu Hbot Hun.
  rewrite (bitwise_not_closed_form x Hx Hlu).
  eexists. split; [reflexivity|]. fields.
  split; [reflexivity|]. split; [reflexivity|]. split; [reflexivity|].
  pose proof Hx as [Hs Hl Hu Hsing Hrev].
  rewrite bitwise_not_closed_form.
  - fields.
    destruct x as [w s l u r un b]; fields. subst r un b.
    f_equal. f_equal; lia.
  - apply mk_wf; fields; try lia; reflexivity.
  - fields. lia.
Qed.

Lemma bitwise_not_BOTTOM (w : positive) : bitwise_not (BOTTOM w) = Ok (TOP w).
Proof.
  pose proof (pow2_ge_2 w) as HM.
  rewrite bitwise_not_closed_form.
  - unfold BOTTOM, TOP; fields. f_equal. f_equal; lia.
  - apply wf_BOTTOM.
  - unfold BOTTOM; fields. lia.
Qed.

(** X23.  [bitwise_not] is sound on an interval that does not wrap and
    keeps the stride discipline: for a non-bottom interval [x] of the data
    model with [lb <= ub] and a value [v] of [x], [~v] is a value of
    [bitwise_not(x)]. *)
Theorem bitwise_not_sound (x : StridedInterval) (v : Z) :
  wf x -> lower_bound x <= upper_bound x ->
  is_bottom x = false -> stride_discipline x ->
  _wrapped_member x v = true ->
  (stride x | (v - lower_bound x) mod 2 ^ bits x) ->
  exists r, bitwise_not x = Ok r
    /\ _wrapped_member r (Z.lnot v) = true
    /\ (stride r | (Z.lnot v - lower_bound r) mod 2 ^ bits r).
Proof.
  exact (bitwise_not_member x v).
Qed.

Lemma bitwise_not_sound_witness :
  exists r, bitwise_not (interval 8 3 2 11) = Ok r
    /\ _wrapped_member r (Z.lnot 5) = true
    /\ (stride r | (Z.lnot 5 - lower_bound r) mod 2 ^ bits r).
Proof.
  refine (bitwise_not_sound (interval 8 3 2 11) 5 _ _ eq_refl _ eq_refl
            (ex_intro _ 1 eq_refl)).
  - wf_by_computation.
  - cbn. lia.
  - intros _ _. reflexivity.
Defined.

(** X24.  [bitwise_not] is an involution on intervals that do not wrap: for
    a non-bottom, initialised interval [x] of the data model with
    [lb <= ub], [bitwise_not(x)] is
    [[2^bits - 1 - ub, 2^bits - 1 - lb]] with the stride of [x], and
    [bitwise_not] of that is [x] itself. *)
Theorem bitwise_not_involutive (x : StridedInterval) :
  wf x -> lower_bound x <= upper_bound x ->
  is_bottom x = false -> uninitialized x = false ->
  exists r, bitwise_not x = Ok r
    /\ lower_bound r = 2 ^ bits x - 1 - upper_bound x
    /\ upper_bound r = 2 ^ bits x - 1 - lower_bound x
    /\ stride r = stride x
    /\ bitwise_not r = Ok x.
Proof.
  exact (bitwise_not_twice x).
Qed.

Lemma bitwise_not_involutive_witness :
  exists r, bitwise_not (interval 8 3 2 11) = Ok r
    /\ lower_bound r = 244 /\ upper_bound r = 253 /\ stride r = 3
    /\ bitwise_not r = Ok (interval 8 3 2 11).
Proof.
  refine (bitwise_not_involutive (interval 8 3 2 11) _ _ eq_refl eq_refl).
  - wf_by_computation.
  - cbn. lia.
Defined.

(** X25.  [bitwise_not] does not keep the empty interval empty: for every
    width, [bitwise_not(empty(w))] is TOP. *)
Theorem bitwise_not_of_empty (w : positive) :
  exists e, empty w = Ok e /\ bitwise_not e = Ok (TOP w).
Proof.
  exists (BOTTOM w). split; [apply empty_eq|apply bitwise_not_BOTTOM].
Qed.

(** *** Shifts by a constant *)

Lemma xrange_one (k : Z) : xrange k (k + 1) = [k].
Proof.
  unfold xrange.
  replace (k + 1 - k) with 1 by lia.
  change (Z.to_nat 1) with 1%nat.
  cbn [seq map].
  change (Z.of_nat 0) with 0.
  rewrite Z.add_0_r. reflexivity.
Qed.

Lemma lshift_closed_form (x : StridedInterval) (k : Z) :
  wf x -> lower_bound x <= upper_bound x ->
  0 <= k -> upper_bound x * 2 ^ k < 2 ^ bits x ->
  lshift x (ShiftInt k) =
    Ok (mkSI (bits x) (stride x * 2 ^ k)
          (lower_bound x * 2 ^ k) (upper_bound x * 2 ^ k) false false false).
Proof.
  intros Hx Hlu Hk Hfit.
  pose proof Hx as [Hs Hl Hu Hsing _].
  pose proof (pow2_ge_2 (bits x)) as HM.
  assert (Hp : 0 < 2 ^ k) by (apply Z.pow_pos_nonneg; lia).
  unfold lshift, _pre_shift.
  rewrite xrange_one.
  cbn [for_each].
  unfold py_lshift.
  destruct (k <? 0) eqn:E; [apply Z.ltb_lt in E; lia|].
  cbn [bind].
  rewrite !Z.shiftl_mul_pow2 by exact Hk.
  rewrite init_live by (right; lia).
  cbn [bind].
  rewrite normal_form_fixed by (right; lia).
  apply f_equal.
  destruct (Z.eq_dec (stride x) 0) as [E0|E0].
  - assert (Elu : lower_bound x = upper_bound x) by (apply Hsing; exact E0).
    rewrite E0, Elu, Z.mul_0_l.
    unfold normal_form.
    rewrite Z.eqb_refl. cbn [Z.eqb]. rewrite andb_false_r.
    rewrite Z.mod_small by nia. reflexivity.
  - rewrite Z.max_l by nia.
    apply normal_form_unwrapped; nia.
Qed.

Lemma rshift_closed_form (x : StridedInterval) (k : Z) :
  wf x -> lower_bound x <= upper_bound x -> 0 <= k ->
  rshift x (ShiftInt k) false =
    Ok (normal_form (bits x) (Z.max (Z.shiftr (stride x) k) 1)
          (Z.shiftr (lower_bound x) k) (Z.shiftr (upper_bound x) k) false).
Proof.
  intros Hx Hlu Hk.
  pose proof Hx as [Hs Hl Hu Hsing _].
  unfold rshift, _pre_shift.
  rewrite xrange_one.
  cbn [for_each].
  unfold py_rshift.
  destruct (k <? 0) eqn:E; [apply Z.ltb_lt in E; lia|].
  cbn [bind fst snd].
  rewrite init_live by (right; lia).
  cbn [bind].
  apply normal_form_fixed. right. lia.
Qed.

Lemma shift_round_trip (x : StridedInterval) (k : Z) :
  wf x -> lower_bound x <= upper_bound x ->
  is_bottom x = false -> uninitialized x = false ->
  0 <= k -> upper_bound x * 2 ^ k < 2 ^ bits x ->
  exists r, lshift x (ShiftInt k) = Ok r
    /\ stride r = stride x * 2 ^ k
    /\ lower_bound r = lower_bound x * 2 ^ k
    /\ upper_bound r = upper_bound x * 2 ^ k
    /\ rshift r (ShiftInt k) false = Ok x.
Proof.
  intros Hx Hlu Hbot Hun Hk Hfit.
  pose proof Hx as [Hs Hl Hu Hsing Hrev].
  pose proof (pow2_ge_2 (bits x)) as HM.
  assert (Hp : 0 < 2 ^ k) by (apply Z.pow_pos_nonneg; lia).
  rewrite (lshift_closed_form x k Hx Hlu Hk Hfit).
  eexists. split; [reflexivity|]. fields.
  split; [reflexivity|]. split; [reflexivity|]. split; [reflexivity|].
  rewrite rshift_closed_form; fields; try nia.
  - rewrite !Z.shiftr_div_pow2, !Z.div_mul by lia.
    apply f_equal.
    destruct x as [w s l u r un b]; fields. subst r un b.
    destruct (Z.eq_dec s 0) as [E0|E0].
    + assert (Elu : l = u) by (apply Hsing; exact E0).
      subst s u.
      unfold normal_form.
      rewrite Z.eqb_refl. cbn [Z.eqb]. rewrite andb_false_r.
      rewrite Z.mod_small by lia. reflexivity.
    + rewrite Z.max_l by lia.
      apply normal_form_unwrapped; lia.
  - apply mk_wf; fields; first [nia | reflexivity].
Qed.

(** X26.  A left shift by a constant is a multiplication as long as nothing
    is shifted out, and the right shift undoes it: for a non-bottom,
    initialised interval [x] of the data model with [lb <= ub], and
    [k >= 0] with [ub * 2^k < 2^bits], [lshift(x, k)] is the interval
    [(s * 2^k)[lb * 2^k, ub * 2^k]] and [rshift] of it by [k] returns [x]
    itself. *)
Theorem lshift_then_rshift (x : StridedInterval) (k : Z) :
  wf x -> lower_bound x <= upper_bound x ->
  is_bottom x = false -> uninitialized x = false ->
  0 <= k -> upper_bound x * 2 ^ k < 2 ^ bits x ->
  exists r, lshift x (ShiftInt k) = Ok r
    /\ stride r = stride x * 2 ^ k
    /\ lower_bound r = lower_bound x * 2 ^ k
    /\ upper_bound r = upper_bound x * 2 ^ k
    /\ rshift r (ShiftInt k) false = Ok x.
Proof.
  exact (shift_round_trip x k).
Qed.

Lemma lshift_then_rshift_witness :
  exists r, lshift (interval 8 3 2 11) (ShiftInt 4) = Ok r
    /\ stride r = 48 /\ lower_bound r = 32 /\ upper_bound r = 176
    /\ rshift r (ShiftInt 4) false = Ok (interval 8 3 2 11).
Proof.
  refine (lshift_then_rshift (interval 8 3 2 11) 4 _ _ eq_refl eq_refl _ _).
  - wf_by_computation.
  - cbn. lia.
  - lia.
  - reflexivity.
Defined.

(** *** Widening *)

Lemma normalize_TOP (w : positive) : normalize (TOP w) = Ok (TOP w).
Proof.
  pose proof (pow2_ge_2 w) as HM.
  unfold TOP.
  rewrite normalize_mk by (try lia; right; lia).
  apply f_equal. apply normal_form_unwrapped; lia.
Qed.

Lemma normalize_partial (x : StridedInterval) :
  wf x -> is_bottom x = false ->
  lower_bound x <> (upper_bound x + 1) mod 2 ^ bits x ->
  normalize x = Ok x.
Proof.
  intros [Hs Hl Hu Hsing Hrev] Hbot Hfull.
  destruct x as [w s l u r un b]; fields. subst r b.
  rewrite normalize_mk by (try assumption; right; exact Hs).
  apply f_equal.
  apply normal_form_plain; try assumption.
  apply Hsing.
Qed.

Lemma widen_edges (x : StridedInterval) :
  wf x -> is_bottom x = false -> uninitialized x = false ->
  lower_bound x <> (upper_bound x + 1) mod 2 ^ bits x ->
  widen (BOTTOM (bits x)) x = Ok (TOP (bits x))
  /\ widen x (BOTTOM (bits x)) = Ok x
  /\ widen x x = Ok x.
Proof.
  intros Hx Hbot Hun Hfull.
  pose proof (normalize_partial x Hx Hbot Hfull) as Hnorm.
  pose proof Hx as [Hs Hl Hu Hsing Hrev].
  split; [|split].
  - unfold widen, is_empty. rewrite Hbot.
    unfold BOTTOM at 1 2; fields. cbn [andb negb].
    rewrite top_eq. cbn [bind]. apply normalize_TOP.
  - unfold widen, is_empty. rewrite Hbot.
    unfold BOTTOM at 1 2; fields. cbn [andb negb bind].
    exact Hnorm.
  - unfold widen, is_empty. rewrite Hbot. cbn [andb].
    rewrite Z.ltb_irrefl.
    destruct (upper_bound x >? upper_bound x) eqn:E;
      [rewrite Z.gtb_ltb, Z.ltb_irrefl in E; discriminate E|].
    unfold gcd. rewrite Z.gcd_diag, Z.abs_eq by exact Hs.
    assert (Hsi : SI (bits x) (if stride x =? 0 then 1 else stride x)
                    (lower_bound x) (upper_bound x) = Ok x).
    { unfold SI.
      rewrite init_live by (right; destruct (stride x =? 0); lia).
      apply f_equal.
      destruct x as [w s l u r un b]; fields. subst r un b.
      destruct (s =? 0) eqn:E0.
      - apply Z.eqb_eq in E0. subst s.
        assert (l = u) as -> by (apply Hsing; reflexivity).
        unfold normal_form.
        rewrite Z.eqb_refl. cbn [Z.eqb]. rewrite andb_false_r.
        rewrite Z.mod_small by assumption. reflexivity.
      - apply normal_form_plain; try assumption. apply Hsing. }
    destruct (stride x =? 0) eqn:E0.
    + apply Z.eqb_eq in E0.
      assert (Elu : lower_bound x = upper_bound x) by (apply Hsing; exact E0).
      unfold is_integer. apply Z.eqb_eq in Elu. rewrite Elu. cbn [andb].
      rewrite Hsi. cbn [bind]. exact Hnorm.
    + rewrite Hsi. cbn [bind]. exact Hnorm.
Qed.

(** X27.  [widen] at its edges: for a non-bottom, initialised interval [x]
    of the data model that does not go all the way round the circle,
    widening the empty interval with [x] gives TOP (not [x]), widening [x]
    with the empty interval gives [x], and widening [x] with itself gives
    [x]. *)
Theorem widen_edge_cases (x : StridedInterval) :
  wf x -> is_bottom x = false -> uninitialized x = false ->
  lower_bound x <> (upper_bound x + 1) mod 2 ^ bits x ->
  widen (BOTTOM (bits x)) x = Ok (TOP (bits x))
  /\ widen x (BOTTOM (bits x)) = Ok x
  /\ widen x x = Ok x.
Proof.
  exact (widen_edges x).
Qed.

Lemma widen_edge_cases_witness :
  widen (BOTTOM 8) (interval 8 3 250 3) = Ok (TOP 8)
  /\ widen (interval 8 3 250 3) (BOTTOM 8) = Ok (interval 8 3 250 3)
  /\ widen (interval 8 3 250 3) (interval 8 3 250 3) = Ok (interval 8 3 250 3).
Proof.
  refine (widen_edge_cases (interval 8 3 250 3) _ eq_refl eq_refl _).
  - wf_by_computation.
  - vm_compute. discriminate.
Defined.

(** *** Remainder *)

Lemma singleton_member (x : StridedInterval) (v : Z) :
  0 <= lower_bound x < 2 ^ bits x -> lower_bound x = upper_bound x ->
  0 <= v < 2 ^ bits x -> _wrapped_member x v = true -> v = lower_bound x.
Proof.
  intros Hl Elu Hv Hm.
  unfold _wrapped_member in Hm. rewrite lex_lte_mod in Hm.
  apply Z.leb_le in Hm.
  rewrite <- Elu, Z.sub_diag in Hm.
  pose proof (pow2_ge_2 (bits x)) as HM.
  rewrite (Z.mod_0_l (2 ^ bits x)) in Hm by lia.
  destruct (mod_cases (2 ^ bits x) (v - lower_bound x)) as [[? E]|[[? E]|[? E]]]; lia.
Qed.

Lemma mod_member (x o : StridedInterval) (v d : Z) :
  wf x -> wf o -> bits o = bits x ->
  0 <= v < 2 ^ bits x -> _wrapped_member x v = true ->
  0 < d -> lower_bound o <= d <= upper_bound o ->
  exists r, __mod__ x o = Ok r /\ _wrapped_member r (v mod d) = true.
Proof.
  intros Hx Ho Hbits Hv Hm Hd Hdo.
  pose proof Hx as [Hsx Hlx Hux Hsingx _].
  pose proof Ho as [Hso Hlo Huo Hsingo _].
  rewrite Hbits in *.
  pose proof (pow2_ge_2 (bits x)) as HM.
  pose proof (Z.mod_pos_bound v d Hd) as Hvd.
  unfold __mod__, is_integer.
  destruct (lower_bound x =? upper_bound x) eqn:Ex;
    [destruct (lower_bound o =? upper_bound o) eqn:Eo|]; cbn [andb].
  - apply Z.eqb_eq in Ex, Eo.
    assert (v = lower_bound x) by (apply singleton_member; assumption).
    assert (d = lower_bound o) by lia.
    subst v d.
    unfold py_mod.
    destruct (lower_bound o =? 0) eqn:E0; [apply Z.eqb_eq in E0; lia|].
    cbn [bind]. unfold SI.
    rewrite init_live by (left; reflexivity).
    eexists. split; [reflexivity|].
    unfold normal_form.
    rewrite Z.eqb_refl. cbn [Z.eqb]. rewrite andb_false_r.
    rewrite (Z.mod_small (lower_bound x mod lower_bound o)) by lia.
    apply wrapped_member_upper.
  - unfold SI. rewrite init_live by (right; lia).
    eexists. split; [reflexivity|].
    destruct (Z.eq_dec (upper_bound o) 1) as [E1|E1].
    + rewrite E1. replace (1 - 1) with 0 by lia.
      unfold normal_form.
      rewrite Z.eqb_refl. cbn [Z.eqb]. rewrite andb_false_r.
      rewrite Z.mod_0_l by lia.
      replace (v mod d) with 0 by lia.
      apply wrapped_member_upper.
    + rewrite normal_form_plain by (rewrite ?Z.mod_small; lia).
      unfold _wrapped_member. rewrite lex_lte_mod. fields.
      rewrite !Z.sub_0_r.
      rewrite (Z.mod_small (v mod d)), (Z.mod_small (upper_bound o - 1)) by lia.
      apply Z.leb_le. lia.
  - unfold SI. rewrite init_live by (right; lia).
    eexists. split; [reflexivity|].
    destruct (Z.eq_dec (upper_bound o) 1) as [E1|E1].
    + rewrite E1. replace (1 - 1) with 0 by lia.
      unfold normal_form.
      rewrite Z.eqb_refl. cbn [Z.eqb]. rewrite andb_false_r.
      rewrite Z.mod_0_l by lia.
      replace (v mod d) with 0 by lia.
      apply wrapped_member_upper.
    + rewrite normal_form_plain by (rewrite ?Z.mod_small; lia).
      unfold _wrapped_member. rewrite lex_lte_mod. fields.
      rewrite !Z.sub_0_r.
      rewrite (Z.mod_small (v mod d)), (Z.mod_small (upper_bound o - 1)) by lia.
      apply Z.leb_le. lia.
Qed.

(** X28.  The remainder is sound for a divisor interval that does not wrap:
    for [x], [o] of the data model of one width, a value [v] within the
    bounds of [x] and a positive [d] between the bounds of [o], [x % o]
    returns an interval that has [v mod d] within its bounds: the singleton
    of the remainder when both operands are singletons, the interval
    [[0, ub_o - 1]] otherwise. *)
Theorem mod_sound (x o : StridedInterval) (v d : Z) :
  wf x -> wf o -> bits o = bits x ->
  0 <= v < 2 ^ bits x -> _wrapped_member x v = true ->
  0 < d -> lower_bound o <= d <= upper_bound o ->
  exists r, __mod__ x o = Ok r /\ _wrapped_member r (v mod d) = true.
Proof.
  exact (mod_member x o v d).
Qed.

Lemma mod_sound_witness :
  exists r, __mod__ (interval 8 3 250 3) (interval 8 2 5 9) = Ok r
            /\ _wrapped_member r (253 mod 7) = true.
Proof.
  refine (mod_sound (interval 8 3 250 3) (interval 8 2 5 9) 253 7 _ _ eq_refl _ eq_refl _ _).
  - wf_by_computation.
  - wf_by_computation.
  - cbn. lia.
  - lia.
  - cbn. lia.
Defined.

(** *** Zero extension *)

(** X29.  [zero_extend] is exact on an interval that does not wrap: for an
    interval [x] of the data model with [lb <= ub] and a larger width,
    the result has the new width and [eval] lists for it the very values it
    lists for [x], whatever the number asked for. *)
Theorem zero_extend_keeps_values (x : StridedInterval) (new_length : positive) (n : Z) :
  wf x -> lower_bound x <= upper_bound x -> (bits x < new_length)%positive ->
  exists r, zero_extend x new_length = Ok r
            /\ bits r = new_length
            /\ eval r n false = eval x n false.
Proof.
  exact (zero_extend_exact_unwrapped x new_length n).
Qed.

Lemma zero_extend_keeps_values_witness :
  exists r, zero_extend (interval 8 3 2 11) 16 = Ok r
            /\ bits r = 16%positive
            /\ eval r 10 false = eval (interval 8 3 2 11) 10 false.
Proof.
  refine (zero_extend_keeps_values (interval 8 3 2 11) 16 10 _ _ _).
  - wf_by_computation.
  - cbn. lia.
  - reflexivity.
Defined.

(** *** Bitwise or and and of constants *)

Lemma land_pow2_testbit (x k : Z) :
  0 <= k -> (Z.land x (2 ^ k) =? 0) = negb (Z.testbit x k).
Proof.
  intros Hk.
  destruct (Z.testbit x k) eqn:E; cbn [negb].
  - apply Z.eqb_neq. intros H.
    assert (Hb : Z.testbit (Z.land x (2 ^ k)) k = true)
      by (rewrite Z.land_spec, E, Z.pow2_bits_true by exact Hk; reflexivity).
    rewrite H, Z.bits_0 in Hb. discriminate Hb.
  - apply Z.eqb_eq. apply Z.bits_inj'. intros n Hn.
    rewrite Z.land_spec, Z.bits_0.
    destruct (Z.eq_dec n k) as [->|Hne].
    + rewrite E. reflexivity.
    + rewrite Z.pow2_bits_false by lia. apply andb_false_r.
Qed.

Lemma land_neg_pow2 (x k : Z) :
  0 <= k -> Z.land x (- 2 ^ k) = x - x mod 2 ^ k.
Proof.
  intros Hk.
  assert (Hp : 0 < 2 ^ k) by (apply Z.pow_pos_nonneg; lia).
  replace (- 2 ^ k) with (Z.lnot (Z.ones k))
    by (unfold Z.lnot; rewrite Z.ones_equiv; lia).
  change (Z.land x (Z.lnot (Z.ones k))) with (Z.ldiff x (Z.ones k)) || idtac.
  rewrite <- Z.ldiff_land, Z.ldiff_ones_r by exact Hk.
  rewrite Z.shiftr_div_pow2, Z.shiftl_mul_pow2 by exact Hk.
  pose proof (Z.div_mod x (2 ^ k)). lia.
Qed.

Lemma lor_pow2_clear (x k : Z) :
  0 <= k -> Z.testbit x k = false -> Z.lor x (2 ^ k) = x + 2 ^ k.
Proof.
  intros Hk Hb.
  assert (H0 : Z.land x (2 ^ k) = 0).
  { apply Z.eqb_eq. rewrite land_pow2_testbit, Hb by exact Hk. reflexivity. }
  rewrite <- (Z.lxor_lor _ _ H0).
  symmetry. apply Z.add_nocarry_lxor. exact H0.
Qed.

Lemma lor_ones (x k : Z) :
  0 <= k -> Z.lor x (2 ^ k - 1) = x - x mod 2 ^ k + (2 ^ k - 1).
Proof.
  intros Hk.
  assert (Hp : 0 < 2 ^ k) by (apply Z.pow_pos_nonneg; lia).
  replace (2 ^ k - 1) with (Z.ones k) by (rewrite Z.ones_equiv; lia).
  assert (E : Z.lor x (Z.ones k) = Z.lor (Z.ldiff x (Z.ones k)) (Z.ones k)).
  { apply Z.bits_inj'. intros n Hn.
    rewrite !Z.lor_spec, Z.ldiff_spec.
    destruct (Z.testbit x n), (Z.testbit (Z.ones k) n); reflexivity. }
  rewrite E.
  assert (H0 : Z.land (Z.ldiff x (Z.ones k)) (Z.ones k) = 0).
  { apply Z.bits_inj'. intros n Hn.
    rewrite Z.land_spec, Z.ldiff_spec, Z.bits_0.
    destruct (Z.testbit x n), (Z.testbit (Z.ones k) n); reflexivity. }
  rewrite <- (Z.lxor_lor _ _ H0), <- (Z.add_nocarry_lxor _ _ H0).
  rewrite Z.ldiff_ones_r by exact Hk.
  rewrite Z.shiftr_div_pow2, Z.shiftl_mul_pow2 by exact Hk.
  rewrite Z.ones_equiv.
  pose proof (Z.div_mod x (2 ^ k)). lia.
Qed.

Lemma raise_above (a k : Z) :
  0 <= k -> Z.testbit a k = false ->
  a < Z.land (Z.lor a (2 ^ k)) (- 2 ^ k).
Proof.
  intros Hk Hb.
  assert (Hp : 0 < 2 ^ k) by (apply Z.pow_pos_nonneg; lia).
  rewrite (lor_pow2_clear a k Hk Hb), land_neg_pow2 by exact Hk.
  pose proof (Z.mod_pos_bound (a + 2 ^ k) (2 ^ k) Hp).
  pose proof (Z.mod_pos_bound a (2 ^ k) Hp).
  replace (a + 2 ^ k) with (a + 1 * 2 ^ k) at 2 by lia.
  rewrite Z.mod_add by lia. lia.
Qed.

Lemma lower_below_sub (b k : Z) :
  0 <= k -> Z.lor (b - 2 ^ k) (2 ^ k - 1) < b.
Proof.
  intros Hk.
  assert (Hp : 0 < 2 ^ k) by (apply Z.pow_pos_nonneg; lia).
  rewrite lor_ones by exact Hk.
  pose proof (Z.mod_pos_bound (b - 2 ^ k) (2 ^ k) Hp). lia.
Qed.

Lemma land_lnot_pow2 (b k : Z) :
  0 <= k -> Z.testbit b k = true -> Z.land b (Z.lnot (2 ^ k)) = b - 2 ^ k.
Proof.
  intros Hk Hb.
  assert (E : b = Z.lor (Z.land b (Z.lnot (2 ^ k))) (2 ^ k)).
  { apply Z.bits_inj'. intros n Hn.
    rewrite Z.lor_spec, Z.land_spec, Z.lnot_spec by exact Hn.
    destruct (Z.eq_dec n k) as [->|Hne].
    - rewrite Hb, Z.pow2_bits_true by exact Hk. reflexivity.
    - rewrite Z.pow2_bits_false by lia.
      cbn [negb]. rewrite andb_true_r, orb_false_r. reflexivity. }
  assert (Hc : Z.testbit (Z.land b (Z.lnot (2 ^ k))) k = false).
  { rewrite Z.land_spec, Z.lnot_spec, Z.pow2_bits_true by exact Hk.
    apply andb_false_r. }
  rewrite (lor_pow2_clear _ k Hk Hc) in E. lia.
Qed.

Lemma lower_below_clear (b k : Z) :
  0 <= k -> Z.testbit b k = true ->
  Z.lor (Z.land b (Z.lnot (2 ^ k))) (2 ^ k - 1) < b.
Proof.
  intros Hk Hb.
  rewrite (land_lnot_pow2 b k Hk Hb).
  apply lower_below_sub. exact Hk.
Qed.

Lemma loop_mask_shiftr (m : Z) : loop_mask m -> loop_mask (Z.shiftr m 1).
Proof.
  intros [->|(k & Hk & ->)]; [left; reflexivity|].
  destruct (Z.eq_dec k 0) as [->|Hne].
  - left. reflexivity.
  - right. exists (k - 1). split; [lia|].
    rewrite Z.shiftr_div_pow2 by lia.
    replace (2 ^ k) with (2 ^ (k - 1) * 2 ^ 1) by (rewrite <- Z.pow_add_r by lia; f_equal; lia).
    apply Z.div_mul. lia.
Qed.

Lemma loop_mask_start (w : Z) : 0 < w -> loop_mask (Z.shiftl 1 (w - 1)).
Proof.
  intros Hw. right. exists (w - 1). split; [lia|].
  rewrite Z.shiftl_1_l. reflexivity.
Qed.

Lemma min_or_loop_singleton (n : nat) (a c : Z) :
  forall m, loop_mask m -> WarrenMethods.min_or_loop n m a a c c = Z.lor a c.
Proof.
  induction n as [|n IH]; intros m Hm; cbn [WarrenMethods.min_or_loop]; [reflexivity|].
  destruct (m =? 0) eqn:E0; [reflexivity|].
  apply Z.eqb_neq in E0.
  pose proof (loop_mask_shiftr m Hm) as Hm'.
  destruct Hm as [->|(k & Hk & ->)]; [contradiction|].
  rewrite !land_pow2_testbit, !negb_involutive by exact Hk.
  rewrite !Z.land_spec, !Z.lnot_spec by exact Hk.
  destruct (Z.testbit a k) eqn:Ea; destruct (Z.testbit c k) eqn:Ec; cbn [negb andb];
    try (apply IH; exact Hm').
  - pose proof (raise_above c k Hk Ec) as Hr.
    destruct (_ <=? c) eqn:E; [apply Z.leb_le in E; lia|]. apply IH; exact Hm'.
  - pose proof (raise_above a k Hk Ea) as Hr.
    destruct (_ <=? a) eqn:E; [apply Z.leb_le in E; lia|]. apply IH; exact Hm'.
Qed.

Lemma max_or_loop_singleton (n : nat) (b d : Z) :
  forall m, loop_mask m -> WarrenMethods.max_or_loop n m b b d d = Z.lor b d.
Proof.
  induction n as [|n IH]; intros m Hm; cbn [WarrenMethods.max_or_loop]; [reflexivity|].
  destruct (m =? 0) eqn:E0; [reflexivity|].
  apply Z.eqb_neq in E0.
  pose proof (loop_mask_shiftr m Hm) as Hm'.
  destruct Hm as [->|(k & Hk & ->)]; [contradiction|].
  rewrite !land_pow2_testbit, !negb_involutive by exact Hk.
  destruct (Z.testbit (Z.land b d) k) eqn:Ebd; [|apply IH; exact Hm'].
  pose proof (lower_below_sub b k Hk) as Hb.
  pose proof (lower_below_sub d k Hk) as Hd.
  destruct (_ >=? b) eqn:E1; [rewrite Z.geb_leb in E1; apply Z.leb_le in E1; lia|].
  destruct (_ >=? d) eqn:E2; [rewrite Z.geb_leb in E2; apply Z.leb_le in E2; lia|].
  apply IH; exact Hm'.
Qed.

Lemma min_and_loop_singleton (n : nat) (a c : Z) :
  forall m, loop_mask m -> WarrenMethods.min_and_loop n m a a c c = Z.land a c.
Proof.
  induction n as [|n IH]; intros m Hm; cbn [WarrenMethods.min_and_loop]; [reflexivity|].
  destruct (m =? 0) eqn:E0; [reflexivity|].
  apply Z.eqb_neq in E0.
  pose proof (loop_mask_shiftr m Hm) as Hm'.
  destruct Hm as [->|(k & Hk & ->)]; [contradiction|].
  rewrite !land_pow2_testbit, !negb_involutive by exact Hk.
  rewrite !Z.land_spec, !Z.lnot_spec by exact Hk.
  destruct (Z.testbit a k) eqn:Ea; destruct (Z.testbit c k) eqn:Ec; cbn [negb andb];
    try (apply IH; exact Hm').
  pose proof (raise_above a k Hk Ea) as Hra.
  pose proof (raise_above c k Hk Ec) as Hrc.
  destruct (_ <=? a) eqn:E1; [apply Z.leb_le in E1; lia|].
  destruct (_ <=? c) eqn:E2; [apply Z.leb_le in E2; lia|].
  apply IH; exact Hm'.
Qed.

Lemma max_and_loop_singleton (n : nat) (b d : Z) :
  forall m, loop_mask m -> WarrenMethods.max_and_loop n m b b d d = Z.land b d.
Proof.
  induction n as [|n IH]; intros m Hm; cbn [WarrenMethods.max_and_loop]; [reflexivity|].
  destruct (m =? 0) eqn:E0; [reflexivity|].
  apply Z.eqb_neq in E0.
  pose proof (loop_mask_shiftr m Hm) as Hm'.
  destruct Hm as [->|(k & Hk & ->)]; [contradiction|].
  rewrite !land_pow2_testbit, !negb_involutive by exact Hk.
  rewrite !Z.land_spec, !Z.lnot_spec by exact Hk.
  destruct (Z.testbit b k) eqn:Eb; destruct (Z.testbit d k) eqn:Ed; cbn [negb andb];
    try (apply IH; exact Hm').
  - pose proof (lower_below_clear b k Hk Eb) as Hr.
    destruct (_ >=? b) eqn:E; [rewrite Z.geb_leb in E; apply Z.leb_le in E; lia|].
    apply IH; exact Hm'.
  - pose proof (lower_below_clear d k Hk Ed) as Hr.
    destruct (_ >=? d) eqn:E; [rewrite Z.geb_leb in E; apply Z.leb_le in E; lia|].
    apply IH; exact Hm'.
Qed.

Lemma lor_mod_small (w : positive) (a c : Z) :
  0 <= a < 2 ^ w -> 0 <= c < 2 ^ w -> Z.lor a c mod 2 ^ w = Z.lor a c.
Proof.
  intros Ha Hc.
  rewrite <- !Z.land_ones by lia.
  rewrite Z.land_lor_distr_l, !Z.land_ones by lia.
  rewrite (Z.mod_small a), (Z.mod_small c) by assumption.
  reflexivity.
Qed.

Lemma land_mod_small (w : positive) (a c : Z) :
  0 <= a < 2 ^ w -> 0 <= c < 2 ^ w -> Z.land a c mod 2 ^ w = Z.land a c.
Proof.
  intros Ha Hc.
  rewrite <- !Z.land_ones by lia.
  rewrite <- Z.land_assoc, !Z.land_ones by lia.
  rewrite (Z.mod_small c) by assumption.
  reflexivity.
Qed.

Lemma constant_interval (w : positive) (v : Z) :
  v mod 2 ^ w = v ->
  (new_interval <- SI w 1 v v ;;
   result_interval <- Ok ([] ++ [new_interval]) ;;
   r <- _least_upper_bound result_interval ;;
   normalize r)
  = Ok (interval w 0 v v).
Proof.
  intros Hv.
  pose proof (pow2_ge_2 w) as HM.
  pose proof (Z.mod_pos_bound v (2 ^ w) ltac:(lia)) as Hr.
  rewrite Hv in Hr.
  assert (HSI : SI w 1 v v = Ok (interval w 0 v v)).
  { unfold SI. rewrite init_live by (left; reflexivity).
    apply f_equal. unfold normal_form.
    rewrite Hv, Z.eqb_refl. cbn [Z.eqb]. rewrite andb_false_r. reflexivity. }
  rewrite HSI. cbn [bind app].
  assert (Hwf : wf (interval w 0 v v)) by (apply mk_wf; unfold interval; fields; first [lia|reflexivity]).
  unfold _least_upper_bound.
  rewrite (copy_wf_unwrapped _ Hwf) by (unfold interval; fields; lia).
  cbn [bind]. unfold interval.
  rewrite normalize_mk by (try lia; left; reflexivity).
  apply f_equal. apply normal_form_unwrapped; lia.
Qed.

Lemma bitwise_or_and_singletons (x y : StridedInterval) :
  wf x -> wf y -> bits y = bits x ->
  lower_bound x = upper_bound x -> lower_bound y = upper_bound y ->
  bitwise_or x y
  = Ok (interval (bits x) 0 (Z.lor (lower_bound x) (lower_bound y))
                            (Z.lor (lower_bound x) (lower_bound y)))
  /\ bitwise_and x y
     = Ok (interval (bits x) 0 (Z.land (lower_bound x) (lower_bound y))
                               (Z.land (lower_bound x) (lower_bound y))).
Proof.
  intros Hx Hy Hbits Ex Ey.
  pose proof Hx as [_ Hlx _ _ _].
  pose proof Hy as [_ Hly _ _ _].
  rewrite Hbits in Hly.
  pose proof (loop_mask_start (Z.pos (bits x)) ltac:(lia)) as Hm.
  split.
  - unfold bitwise_or.
    rewrite (ssplit_unwrapped x Hx) by lia.
    cbn [bind for_each].
    rewrite (ssplit_unwrapped y Hy) by lia.
    cbn [bind for_each].
    unfold WarrenMethods.min_or, WarrenMethods.max_or.
    rewrite <- Ex, <- Ey.
    rewrite (min_or_loop_singleton _ _ _ _ Hm), (max_or_loop_singleton _ _ _ _ Hm).
    pose proof (constant_interval (bits x) _ (lor_mod_small (bits x) _ _ Hlx Hly)) as Hc.
    destruct (SI (bits x) 1 (Z.lor (lower_bound x) (lower_bound y))
                 (Z.lor (lower_bound x) (lower_bound y))) as [i|e];
      cbn [bind] in Hc |- *; exact Hc.
  - unfold bitwise_and.
    rewrite (ssplit_unwrapped x Hx) by lia.
    cbn [bind for_each].
    rewrite (ssplit_unwrapped y Hy) by lia.
    cbn [bind for_each].
    unfold WarrenMethods.min_and, WarrenMethods.max_and.
    rewrite <- Ex, <- Ey.
    rewrite (min_and_loop_singleton _ _ _ _ Hm), (max_and_loop_singleton _ _ _ _ Hm).
    pose proof (constant_interval (bits x) _ (land_mod_small (bits x) _ _ Hlx Hly)) as Hc.
    destruct (SI (bits x) 1 (Z.land (lower_bound x) (lower_bound y))
                 (Z.land (lower_bound x) (lower_bound y))) as [i|e];
      cbn [bind] in Hc |- *; exact Hc.
Qed.

(** X30.  [bitwise_or] and [bitwise_and] fold constants exactly: for two
    singletons [{a}] and [{c}] of the data model of one width,
    [bitwise_or] returns the singleton [{a | c}] and [bitwise_and] the
    singleton [{a & c}], Warren's four bound searches leaving the bounds of a
    singleton where they are. *)
Theorem bitwise_or_and_of_constants (x y : StridedInterval) :
  wf x -> wf y -> bits y = bits x ->
  lower_bound x = upper_bound x -> lower_bound y = upper_bound y ->
  bitwise_or x y
  = Ok (interval (bits x) 0 (Z.lor (lower_bound x) (lower_bound y))
                            (Z.lor (lower_bound x) (lower_bound y)))
  /\ bitwise_and x y
     = Ok (interval (bits x) 0 (Z.land (lower_bound x) (lower_bound y))
                               (Z.land (lower_bound x) (lower_bound y))).
Proof.
  exact (bitwise_or_and_singletons x y).
Qed.

Lemma bitwise_or_and_of_constants_witness :
  bitwise_or (interval 8 0 202 202) (interval 8 0 92 92) = Ok (interval 8 0 222 222)
  /\ bitwise_and (interval 8 0 202 202) (interval 8 0 92 92) = Ok (interval 8 0 72 72).
Proof.
  refine (bitwise_or_and_of_constants (interval 8 0 202 202) (interval 8 0 92 92)
            _ _ eq_refl eq_refl eq_refl);
    wf_by_computation.
Defined.
